(** * The key-value repository layer of [src/db.ts]

    A shallow embedding of the Supabase-backed repository classes
    ([CookieDB], [ApiKeyDB], [RequestLogDB], [SystemSettingsDB],
    [ModelMappingDB]) and of [initializeDatabase], together with the
    properties the specification states about them.

    The backend table [kv_data (k : string, v : jsonb)] is a finite map from
    strings to values.  Every [async] function is a state transformer over a
    [World]; awaiting is sequencing.  The two ambient sources the code reads,
    [crypto.randomUUID()] and [Date.now()], are streams carried by the world,
    so nothing is assumed about the ids or the times they deliver unless a
    theorem says so. *)

From stdpp Require Import gmap strings list fin_maps fin_sets pretty sorting.
From Stdlib Require Import ZArith Lia Permutation Sorted Ascii.

Local Open Scope Z_scope.

(** ** Data model *)

(** A scalar held in a field of a JSON object whose shape [db.ts] never
    inspects. *)
Inductive jsval : Type :=
  | JBool (b : bool)
  | JNum (n : Z)
  | JStr (s : string).

(** A JavaScript object used as a bag of named fields. *)
Abbreviation jsobject := (gmap string jsval).

(** [{...a, ...b}] on two objects: the fields of [b] win. *)
Definition spread (a b : jsobject) : jsobject := b ∪ a.

Module Cookie.
(** Modelled from the spec: the interface [Cookie] of [types.ts], which is
    not among the sources; the fields are those of spec section 3, which
    are also the ones [db.ts] reads and writes. *)
Record t : Type := mk {
  id : string;
  value : string;
  isValid : bool;
  failCount : Z;
  isDefault : bool;
  createdAt : Z;
  updatedAt : Z
}.

(** [Omit<Cookie, "id" | "createdAt" | "updatedAt">]. *)
Record fields : Type := mkFields {
  f_value : string;
  f_isValid : bool;
  f_failCount : Z;
  f_isDefault : bool
}.

(** [Partial<Cookie>]: every field may be left out.  A field that is there
    holds a value of its type. *)
Record partial : Type := mkPartial {
  p_id : option string;
  p_value : option string;
  p_isValid : option bool;
  p_failCount : option Z;
  p_isDefault : option bool;
  p_createdAt : option Z;
  p_updatedAt : option Z
}.

Definition nothing : partial :=
  mkPartial None None None None None None None.

(** [{...existing, ...updates}]. *)
Definition merge (existing : t) (updates : partial) : t :=
  {| id := default (id existing) (p_id updates);
     value := default (value existing) (p_value updates);
     isValid := default (isValid existing) (p_isValid updates);
     failCount := default (failCount existing) (p_failCount updates);
     isDefault := default (isDefault existing) (p_isDefault updates);
     createdAt := default (createdAt existing) (p_createdAt updates);
     updatedAt := default (updatedAt existing) (p_updatedAt updates) |}.

Definition with_updatedAt (c : t) (now : Z) : t :=
  {| id := id c; value := value c; isValid := isValid c;
     failCount := failCount c; isDefault := isDefault c;
     createdAt := createdAt c; updatedAt := now |}.
End Cookie.

Module ApiKey.
(** Modelled from the spec: the interface [ApiKey] of [types.ts], which is
    not among the sources; the fields are those of spec section 3. *)
Record t : Type := mk {
  id : string;
  key : string;
  isEnabled : bool;
  isDefault : bool;
  createdAt : Z;
  requestCount : Z
}.

(** [Omit<ApiKey, "id" | "createdAt" | "requestCount">]. *)
Record fields : Type := mkFields {
  f_key : string;
  f_isEnabled : bool;
  f_isDefault : bool
}.

(** [Partial<ApiKey>]. *)
Record partial : Type := mkPartial {
  p_id : option string;
  p_key : option string;
  p_isEnabled : option bool;
  p_isDefault : option bool;
  p_createdAt : option Z;
  p_requestCount : option Z
}.

Definition nothing : partial := mkPartial None None None None None None.

(** [{...existing, ...updates}]. *)
Definition merge (existing : t) (updates : partial) : t :=
  {| id := default (id existing) (p_id updates);
     key := default (key existing) (p_key updates);
     isEnabled := default (isEnabled existing) (p_isEnabled updates);
     isDefault := default (isDefault existing) (p_isDefault updates);
     createdAt := default (createdAt existing) (p_createdAt updates);
     requestCount :=
       default (requestCount existing) (p_requestCount updates) |}.
End ApiKey.

Module RequestLog.
(** Modelled from the spec: the interface [RequestLog] of [types.ts], which
    is not among the sources: [{id, timestamp, path, ...metadata}]. *)
Record t : Type := mk {
  id : string;
  timestamp : Z;
  path : string;
  metadata : jsobject
}.

(** [Omit<RequestLog, "id">]. *)
Record fields : Type := mkFields {
  f_timestamp : Z;
  f_path : string;
  f_metadata : jsobject
}.

(** [{...log, id}]. *)
Definition with_id (log : fields) (i : string) : t :=
  {| id := i; timestamp := f_timestamp log; path := f_path log;
     metadata := f_metadata log |}.
End RequestLog.

(** Modelled from the spec: [SystemSettings] and [ModelMapping] of
    [types.ts], which are not among the sources.  [db.ts] only spreads,
    stores and returns them, so each is an object of unnamed shape. *)
Abbreviation SystemSettings := jsobject.
Abbreviation ModelMapping := jsobject.

(** Modelled from the spec: the constants of [config.ts] that [db.ts] reads;
    the file is not among the sources, so their values are parameters. *)
Record Config : Type := mkConfig {
  MAX_FAIL_NUM : Z;
  MAX_REQUEST_RECORD_NUM : Z;
  DEFAULT_CTO_COOKIES : list string;
  DEFAULT_CHAT_APIKEYS : list string;
  DEFAULT_MODELS_MAPS : list ModelMapping;
  getDefaultSystemSettings : SystemSettings
}.

(** What a [jsonb] cell of [kv_data] holds. *)
Inductive value : Type :=
  | VCookie (c : Cookie.t)
  | VApiKey (a : ApiKey.t)
  | VLog (l : RequestLog.t)
  | VSettings (s : SystemSettings)
  | VModels (m : list ModelMapping).

(** The unchecked TypeScript cast [row.v as T].  A cell of another type than
    the one asked for is outside the typed model; [well_typed] below says
    that the repository never produces one. *)
Class Cast (T : Type) : Type := cast : value → option T.

#[global] Instance cast_cookie : Cast Cookie.t :=
  λ v, match v with VCookie c => Some c | _ => None end.
#[global] Instance cast_apikey : Cast ApiKey.t :=
  λ v, match v with VApiKey a => Some a | _ => None end.
#[global] Instance cast_log : Cast RequestLog.t :=
  λ v, match v with VLog l => Some l | _ => None end.
#[global] Instance cast_settings : Cast SystemSettings :=
  λ v, match v with VSettings s => Some s | _ => None end.
#[global] Instance cast_models : Cast (list ModelMapping) :=
  λ v, match v with VModels m => Some m | _ => None end.

(** ** Key codec *)

(** A key segment, [string | number].  The numbers the program puts in a key
    are the timestamps of logs: integers, which [join] writes in decimal
    notation, as JavaScript does for integers below 10^21 in size; the
    codec is the code's on these, and a property that depends on the
    digits of a number says so. *)
Inductive segment : Type :=
  | SStr (s : string)
  | SNum (n : Z).

Definition segment_to_string (s : segment) : string :=
  match s with
  | SStr s => s
  | SNum n => pretty n
  end.

(** [Array.prototype.join]. *)
Fixpoint join (sep : string) (l : list string) : string :=
  match l with
  | [] => ""
  | [x] => x
  | x :: rest => x +:+ sep +:+ join sep rest
  end.

Definition makeKey (key : list segment) : string :=
  join ":" (segment_to_string <$> key).

Arguments makeKey : simpl never.

(** [p] is a string prefix of [k], character by character. *)
Definition starts_with (p k : string) : bool := String.prefix p k.

(** The characters that a [LIKE] pattern does not read as themselves: [%]
    stands for any run of characters, [_] for any one character, and the
    backslash takes the character after it literally. *)
Definition wildcard (c : ascii) : bool :=
  Ascii.eqb c "%" || Ascii.eqb c "_" || Ascii.eqb c "\".

Fixpoint wildcard_free (s : string) : bool :=
  match s with
  | EmptyString => true
  | String c s' => negb (wildcard c) && wildcard_free s'
  end.

(** [k LIKE pattern], the filter behind [.like("k", pattern)].  A pattern
    that ends in a lone backslash matches nothing (the database rejects
    it); the patterns [kvList] builds end in [%] and are never of that
    kind. *)
Fixpoint like (pattern : string) : string → bool :=
  match pattern with
  | EmptyString =>
      λ k, match k with EmptyString => true | String _ _ => false end
  | String c rest =>
      if Ascii.eqb c "%" then
        match rest with
        | EmptyString => λ _, true
        | String _ _ =>
            fix any (k : string) : bool :=
              like rest k
              || match k with
                 | EmptyString => false
                 | String _ k' => any k'
                 end
        end
      else if Ascii.eqb c "_" then
        λ k, match k with
             | EmptyString => false
             | String _ k' => like rest k'
             end
      else if Ascii.eqb c "\" then
        match rest with
        | EmptyString => λ _, false
        | String d rest' =>
            λ k, match k with
                 | EmptyString => false
                 | String e k' => Ascii.eqb d e && like rest' k'
                 end
        end
      else
        λ k, match k with
             | EmptyString => false
             | String e k' => Ascii.eqb c e && like rest k'
             end
  end.

(** The row filter of [kvList]: [.like("k", `${p}%`)], the encoded prefix
    pasted into the pattern as it is. *)
Definition selects (p k : string) : bool := like (p +:+ "%") k.

(** ** The world and its monad *)

Record World : Type := mkWorld {
  kv_data : gmap string value;
  uuid_source : nat → string;
  uuids_drawn : nat;
  clock_source : nat → Z;
  clock_reads : nat
}.

Definition IO (A : Type) : Type := World → A * World.

Definition ret {A} (a : A) : IO A := λ w, (a, w).

Definition bind {A B} (m : IO A) (k : A → IO B) : IO B :=
  λ w, let '(a, w') := m w in k a w'.

Notation "x <~ m ;; k" := (bind m (λ x, k))
  (at level 100, m at next level, right associativity,
   format "x  <~  m  ;;  '/' k").
Notation "m ;;; k" := (bind m (λ _, k))
  (at level 100, right associativity, format "m  ;;;  '/' k").

(** [for (const x of l) await body(x)]. *)
Fixpoint for_of {A} (l : list A) (body : A → IO unit) : IO unit :=
  match l with
  | [] => ret ()
  | x :: rest => body x ;;; for_of rest body
  end.

Definition result {A} (m : IO A) (w : World) : A := (m w).1.
Definition after {A} (m : IO A) (w : World) : World := (m w).2.

Definition with_kv (w : World) (m : gmap string value) : World :=
  {| kv_data := m; uuid_source := uuid_source w;
     uuids_drawn := uuids_drawn w; clock_source := clock_source w;
     clock_reads := clock_reads w |}.

(** [crypto.randomUUID()]: the next id of the stream. *)
Definition randomUUID : IO string :=
  λ w, (uuid_source w (uuids_drawn w),
        {| kv_data := kv_data w; uuid_source := uuid_source w;
           uuids_drawn := S (uuids_drawn w); clock_source := clock_source w;
           clock_reads := clock_reads w |}).

(** [Date.now()]: the next reading of the clock. *)
Definition Date_now : IO Z :=
  λ w, (clock_source w (clock_reads w),
        {| kv_data := kv_data w; uuid_source := uuid_source w;
           uuids_drawn := uuids_drawn w; clock_source := clock_source w;
           clock_reads := S (clock_reads w) |}).

(** ** KV wrappers *)

(** [kvGet]: the cell of the row at [k], cast to [T]; [null] when there is
    no such row.  The table is the backend itself: a round trip that fails is
    not modelled, here and in the three wrappers below. *)
Definition kvGet {T} `{Cast T} (key : list segment) : IO (option T) :=
  λ w, (kv_data w !! makeKey key ≫= cast, w).

(** [kvSet]: upsert on the primary key [k]. *)
Definition kvSet (key : list segment) (v : value) : IO unit :=
  λ w, ((), with_kv w (<[makeKey key := v]> (kv_data w))).

Definition kvDelete (key : list segment) : IO unit :=
  λ w, ((), with_kv w (delete (makeKey key) (kv_data w))).

(** The rows a prefix scan selects. *)
Definition scan (p : string) (m : gmap string value) : gmap string value :=
  filter (λ row, selects p row.1 = true) m.

(** [kvList]: the rows whose key the pattern [`${p}%`] matches ([error]
    and an empty [data] both give no rows).  The backend promises no order; the model delivers the rows in the order of
    [map_to_list], and what is proved of a scan holds for every order. *)
Definition kvList (prefix : list segment) : IO (list (string * value)) :=
  λ w, (map_to_list (scan (makeKey prefix) (kv_data w)), w).

(** [list.map(item => item.value)] at type [T]: the cells that are of type
    [T].  In a table that keeps the key discipline ([well_typed]) these are
    all the cells of the scan. *)
Definition values {T} `{Cast T} (rows : list (string * value)) : list T :=
  omap (λ row, cast row.2) rows.

(** ** Array helpers *)

(** Where [x] goes in a list already sorted by [cmp]: before the first [y]
    that [cmp x y <= 0] does not put after it. *)
Fixpoint sort_insert {A} (cmp : A → A → Z) (x : A) (l : list A) : list A :=
  match l with
  | [] => [x]
  | y :: rest =>
      if cmp x y <=? 0 then x :: y :: rest
      else y :: sort_insert cmp x rest
  end.

(** [Array.prototype.sort(cmp)]: a stable sort by the comparator. *)
Definition sort {A} (cmp : A → A → Z) (l : list A) : list A :=
  foldr (sort_insert cmp) [] l.

(** How [slice] reads an index: a negative one counts from the end. *)
Definition slice_index (len i : Z) : Z :=
  if i <? 0 then Z.max (len + i) 0 else Z.min i len.

(** [Array.prototype.slice(start, end)]; [None] is an omitted [end]. *)
Definition slice {A} (start : Z) (stop : option Z) (l : list A) : list A :=
  let len := Z.of_nat (length l) in
  let s := slice_index len start in
  let e := from_option (slice_index len) len stop in
  take (Z.to_nat (e - s)) (drop (Z.to_nat s) l).

(** ** Cookies *)

Module CookieDB.
Definition PREFIX : list segment := [SStr "cookies"].

Definition getAll : IO (list Cookie.t) :=
  rows <~ kvList PREFIX ;;
  let cookies : list Cookie.t := values rows in
  ret (sort (λ a b, Cookie.createdAt a - Cookie.createdAt b) cookies).

Definition get (id : string) : IO (option Cookie.t) :=
  kvGet (PREFIX ++ [SStr id]).

Definition add (cookie : Cookie.fields) : IO Cookie.t :=
  id <~ randomUUID ;;
  created <~ Date_now ;;
  updated <~ Date_now ;;
  let newCookie :=
    {| Cookie.id := id;
       Cookie.value := Cookie.f_value cookie;
       Cookie.isValid := Cookie.f_isValid cookie;
       Cookie.failCount := Cookie.f_failCount cookie;
       Cookie.isDefault := Cookie.f_isDefault cookie;
       Cookie.createdAt := created;
       Cookie.updatedAt := updated |} in
  kvSet (PREFIX ++ [SStr (Cookie.id newCookie)]) (VCookie newCookie) ;;;
  ret newCookie.

Definition update (id : string) (updates : Cookie.partial) : IO bool :=
  existing <~ get id ;;
  match existing with
  | None => ret false
  | Some existing =>
      now <~ Date_now ;;
      let updated :=
        Cookie.with_updatedAt (Cookie.merge existing updates) now in
      kvSet (PREFIX ++ [SStr id]) (VCookie updated) ;;;
      ret true
  end.

Definition delete (id : string) : IO bool :=
  existing <~ get id ;;
  match existing with
  | None => ret false
  | Some existing =>
      if Cookie.isDefault existing then ret false
      else kvDelete (PREFIX ++ [SStr id]) ;;; ret true
  end.


(** The count is an integer and [+ 1] its successor: the code's addition on
    the counts from -2^53 to below 2^53, which a JavaScript number
    increments exactly. *)
Definition incrementFailCount (cfg : Config) (id : string) : IO unit :=
  cookie <~ get id ;;
  match cookie with
  | None => ret ()
  | Some cookie =>
      let newFailCount := Cookie.failCount cookie + 1 in
      let isValid := newFailCount <? MAX_FAIL_NUM cfg in
      update id
        {| Cookie.p_id := None; Cookie.p_value := None;
           Cookie.p_isValid := Some isValid;
           Cookie.p_failCount := Some newFailCount;
           Cookie.p_isDefault := None; Cookie.p_createdAt := None;
           Cookie.p_updatedAt := None |} ;;;
      ret ()
  end.

Definition resetFailCount (id : string) : IO unit :=
  update id
    {| Cookie.p_id := None; Cookie.p_value := None;
       Cookie.p_isValid := Some true;
       Cookie.p_failCount := Some 0;
       Cookie.p_isDefault := None; Cookie.p_createdAt := None;
       Cookie.p_updatedAt := None |} ;;;
  ret ().
End CookieDB.

(** ** API keys *)

Module ApiKeyDB.
Definition PREFIX : list segment := [SStr "apikeys"].

Definition getAll : IO (list ApiKey.t) :=
  rows <~ kvList PREFIX ;;
  let keys : list ApiKey.t := values rows in
  ret (sort (λ a b, ApiKey.createdAt a - ApiKey.createdAt b) keys).

Definition get (id : string) : IO (option ApiKey.t) :=
  kvGet (PREFIX ++ [SStr id]).

Definition getByKey (key : string) : IO (option ApiKey.t) :=
  all <~ getAll ;;
  ret (List.find (λ k, String.eqb (ApiKey.key k) key) all).

Definition add (apiKey : ApiKey.fields) : IO ApiKey.t :=
  id <~ randomUUID ;;
  created <~ Date_now ;;
  let newKey :=
    {| ApiKey.id := id;
       ApiKey.key := ApiKey.f_key apiKey;
       ApiKey.isEnabled := ApiKey.f_isEnabled apiKey;
       ApiKey.isDefault := ApiKey.f_isDefault apiKey;
       ApiKey.createdAt := created;
       ApiKey.requestCount := 0 |} in
  kvSet (PREFIX ++ [SStr (ApiKey.id newKey)]) (VApiKey newKey) ;;;
  ret newKey.

Definition update (id : string) (updates : ApiKey.partial) : IO bool :=
  existing <~ get id ;;
  match existing with
  | None => ret false
  | Some existing =>
      let updated := ApiKey.merge existing updates in
      kvSet (PREFIX ++ [SStr id]) (VApiKey updated) ;;;
      ret true
  end.

Definition delete (id : string) : IO bool :=
  existing <~ get id ;;
  match existing with
  | None => ret false
  | Some existing =>
      if ApiKey.isDefault existing then ret false
      else kvDelete (PREFIX ++ [SStr id]) ;;; ret true
  end.

(** As for [CookieDB.incrementFailCount], [+ 1] is the code's addition on
    the counts from -2^53 to below 2^53. *)
Definition incrementRequestCount (key : string) : IO unit :=
  apiKey <~ getByKey key ;;
  match apiKey with
  | None => ret ()
  | Some apiKey =>
      update (ApiKey.id apiKey)
        {| ApiKey.p_id := None; ApiKey.p_key := None;
           ApiKey.p_isEnabled := None; ApiKey.p_isDefault := None;
           ApiKey.p_createdAt := None;
           ApiKey.p_requestCount := Some (ApiKey.requestCount apiKey + 1) |} ;;;
      ret ()
  end.

Definition getEnabledKeys : IO (list ApiKey.t) :=
  all <~ getAll ;;
  ret (List.filter ApiKey.isEnabled all).
End ApiKeyDB.

(** ** Request logs *)

Module RequestLogDB.
Definition PREFIX : list segment := [SStr "logs"].

(** The key a log is stored under and deleted at. *)
Definition key_of (log : RequestLog.t) : list segment :=
  PREFIX ++ [SNum (RequestLog.timestamp log); SStr (RequestLog.id log)].

Definition newest_first (a b : RequestLog.t) : Z :=
  RequestLog.timestamp b - RequestLog.timestamp a.

Definition cleanup (cfg : Config) : IO unit :=
  rows <~ kvList PREFIX ;;
  let logs : list RequestLog.t := values rows in
  if Z.of_nat (length logs) <=? MAX_REQUEST_RECORD_NUM cfg then ret ()
  else
    let toDelete :=
      slice (MAX_REQUEST_RECORD_NUM cfg) None (sort newest_first logs) in
    for_of toDelete (λ log, kvDelete (key_of log)).

Definition add (cfg : Config) (log : RequestLog.fields) : IO unit :=
  id <~ randomUUID ;;
  let newLog := RequestLog.with_id log id in
  kvSet (key_of newLog) (VLog newLog) ;;;
  cleanup cfg.

(** [limit] is [None] when the caller leaves it to its default. *)
Definition getRecent (cfg : Config) (limit : option Z)
    : IO (list RequestLog.t) :=
  let limit := default (MAX_REQUEST_RECORD_NUM cfg) limit in
  rows <~ kvList PREFIX ;;
  let logs : list RequestLog.t := values rows in
  ret (slice 0 (Some limit) (sort newest_first logs)).

Definition count : IO nat :=
  rows <~ kvList PREFIX ;;
  ret (length rows).

Definition countByPath (path : string) : IO nat :=
  rows <~ kvList PREFIX ;;
  let logs : list RequestLog.t := values rows in
  ret (length (List.filter (λ l, String.eqb (RequestLog.path l) path) logs)).
End RequestLogDB.

(** ** Settings and model mappings *)

Module SystemSettingsDB.
Definition KEY : list segment := [SStr "settings"; SStr "system"].

Definition get (cfg : Config) : IO SystemSettings :=
  stored <~ kvGet KEY ;;
  ret (default (getDefaultSystemSettings cfg) stored).

Definition update (cfg : Config) (settings : jsobject) : IO SystemSettings :=
  current <~ get cfg ;;
  let updated := spread current settings in
  kvSet KEY (VSettings updated) ;;;
  ret updated.
End SystemSettingsDB.

Module ModelMappingDB.
Definition KEY : list segment := [SStr "settings"; SStr "models"].

Definition get (cfg : Config) : IO (list ModelMapping) :=
  stored <~ kvGet KEY ;;
  ret (default (DEFAULT_MODELS_MAPS cfg) stored).

Definition update (mappings : list ModelMapping) : IO unit :=
  kvSet KEY (VModels mappings).
End ModelMappingDB.

(** ** Bootstrap *)

(** [initializeDatabase]; its closing [console.log] writes no row and is
    left out. *)
Definition initializeDatabase (cfg : Config) : IO unit :=
  cookies <~ CookieDB.getAll ;;
  (if bool_decide (length cookies = 0%nat)
      && bool_decide (0 < length (DEFAULT_CTO_COOKIES cfg))%nat
   then
     for_of (DEFAULT_CTO_COOKIES cfg) (λ value,
       CookieDB.add
         {| Cookie.f_value := value; Cookie.f_isValid := true;
            Cookie.f_failCount := 0; Cookie.f_isDefault := true |} ;;;
       ret ())
   else ret ()) ;;;
  keys <~ ApiKeyDB.getAll ;;
  if bool_decide (length keys = 0%nat) then
    for_of (DEFAULT_CHAT_APIKEYS cfg) (λ key,
      ApiKeyDB.add
        {| ApiKey.f_key := key; ApiKey.f_isEnabled := true;
           ApiKey.f_isDefault := true |} ;;;
      ret ())
  else ret ().

(** ** Predicates the properties are stated with *)

(** The discipline the repository keeps between a row's key and its cell:
    a cookie sits under [cookies:], an API key under [apikeys:], a log at
    the key built from its own timestamp and id, and the two singletons at
    their fixed keys. *)
Definition key_fits (k : string) (v : value) : Prop :=
  match v with
  | VCookie _ => ∃ id, k = makeKey (CookieDB.PREFIX ++ [SStr id])
  | VApiKey _ => ∃ id, k = makeKey (ApiKeyDB.PREFIX ++ [SStr id])
  | VLog l => k = makeKey (RequestLogDB.key_of l)
  | VSettings _ => k = makeKey SystemSettingsDB.KEY
  | VModels _ => k = makeKey ModelMappingDB.KEY
  end.

Definition well_typed (m : gmap string value) : Prop :=
  ∀ k v, m !! k = Some v → key_fits k v.

(** The cookie invariant of spec section 3, for the configured threshold. *)
Definition cookie_invariant (cfg : Config) (c : Cookie.t) : Prop :=
  Cookie.isValid c = (Cookie.failCount c <? MAX_FAIL_NUM cfg).

(** An API key the table holds in the [apikeys] collection. *)
Definition stored_apikey (w : World) (a : ApiKey.t) : Prop :=
  ∃ k, kv_data w !! k = Some (VApiKey a)
       ∧ starts_with (makeKey ApiKeyDB.PREFIX) k = true.

(** The log rows of a table, as a count. *)
Definition stored_logs (w : World) : nat :=
  size (scan (makeKey RequestLogDB.PREFIX) (kv_data w)).

(** The cookie that the [i]-th iteration of the bootstrap loop writes, when
    the loop starts in world [w]: one id and two clock readings each. *)
Definition seeded_cookie (w : World) (i : nat) (value : string) : Cookie.t :=
  {| Cookie.id := uuid_source w (uuids_drawn w + i)%nat;
     Cookie.value := value;
     Cookie.isValid := true;
     Cookie.failCount := 0;
     Cookie.isDefault := true;
     Cookie.createdAt := clock_source w (clock_reads w + 2 * i)%nat;
     Cookie.updatedAt := clock_source w (clock_reads w + 2 * i + 1)%nat |}.

(** The API key that the [i]-th iteration of the bootstrap loop writes. *)
Definition seeded_apikey (w : World) (i : nat) (key : string) : ApiKey.t :=
  {| ApiKey.id := uuid_source w (uuids_drawn w + i)%nat;
     ApiKey.key := key;
     ApiKey.isEnabled := true;
     ApiKey.isDefault := true;
     ApiKey.createdAt := clock_source w (clock_reads w + i)%nat;
     ApiKey.requestCount := 0 |}.

(** The update that spec section 4.6 describes for the model-mapping store,
    written from the spec's words and not from the code: read the current
    list or the default, spread the supplied list over it as JavaScript
    spreads arrays (index by index), write the result and return it. *)
Definition spread_list {A} (current supplied : list A) : list A :=
  supplied ++ drop (length supplied) current.

Definition ModelMappingDB_update_spec (cfg : Config)
    (mappings : list ModelMapping) : IO (list ModelMapping) :=
  current <~ ModelMappingDB.get cfg ;;
  let updated := spread_list current mappings in
  kvSet ModelMappingDB.KEY (VModels updated) ;;;
  ret updated.

(** Whether the character [c] occurs in [s]. *)
Fixpoint occurs (c : Ascii.ascii) (s : string) : bool :=
  match s with
  | EmptyString => false
  | String d s' => Ascii.eqb c d || occurs c s'
  end.

(** The key delimiter of [makeKey]. *)
Definition delimiter : Ascii.ascii := ":"%char.

(** The logs a table holds, in the order a scan of the collection delivers
    them. *)
Definition logs_of (w : World) : list RequestLog.t :=
  values (map_to_list (scan (makeKey RequestLogDB.PREFIX) (kv_data w))).

(** The table after the eviction loop of [cleanup] has deleted [logs]. *)
Definition evict (logs : list RequestLog.t) (m : gmap string value)
    : gmap string value :=
  foldl (λ m log, delete (makeKey (RequestLogDB.key_of log)) m) m logs.

(** The log that [RequestLogDB.add] stores for [log] in world [w]. *)
Definition appended (w : World) (log : RequestLog.fields) : RequestLog.t :=
  RequestLog.with_id log (result randomUUID w).

(** The world [w] after [ids] more ids were drawn and the clock was read
    [reads] more times, with the table [m]. *)
Definition advance (w : World) (ids reads : nat) (m : gmap string value)
    : World :=
  {| kv_data := m; uuid_source := uuid_source w;
     uuids_drawn := (uuids_drawn w + ids)%nat;
     clock_source := clock_source w;
     clock_reads := (clock_reads w + reads)%nat |}.

(** The table after the cookies [cs], then the API keys [ks], were written
    one after the other, each under its own id. *)
Definition put_cookies (cs : list Cookie.t) (m : gmap string value)
    : gmap string value :=
  foldl (λ m c, <[makeKey (CookieDB.PREFIX ++ [SStr (Cookie.id c)]) :=
                    VCookie c]> m) m cs.

Definition put_apikeys (ks : list ApiKey.t) (m : gmap string value)
    : gmap string value :=
  foldl (λ m a, <[makeKey (ApiKeyDB.PREFIX ++ [SStr (ApiKey.id a)]) :=
                    VApiKey a]> m) m ks.

(** What the bootstrap promises of a seeded cookie and of a seeded key. *)
Definition default_cookie (c : Cookie.t) : Prop :=
  Cookie.isDefault c = true ∧ Cookie.isValid c = true ∧ Cookie.failCount c = 0.

Definition default_apikey (a : ApiKey.t) : Prop :=
  ApiKey.isDefault a = true ∧ ApiKey.isEnabled a = true
  ∧ ApiKey.requestCount a = 0.

(** The id source never repeats an id. *)
Definition fresh_ids (w : World) : Prop :=
  ∀ i j, uuid_source w i = uuid_source w j → i = j.

(** The health state of the cookie [id]: its [failCount] and [isValid]. *)
Definition health (id : string) (w : World) : option (Z * bool) :=
  (λ c, (Cookie.failCount c, Cookie.isValid c)) <$> result (CookieDB.get id) w.

(** A segment whose text holds no delimiter. *)
Definition plain (s : segment) : Prop :=
  occurs delimiter (segment_to_string s) = false.

(** [n] calls of [m], one after the other. *)
Fixpoint times (n : nat) (m : IO unit) : IO unit :=
  match n with
  | O => ret ()
  | S n' => m ;;; times n' m
  end.

(** A cookie the table holds in the [cookies] collection. *)
Definition stored_cookie (w : World) (c : Cookie.t) : Prop :=
  ∃ k, kv_data w !! k = Some (VCookie c)
       ∧ starts_with (makeKey CookieDB.PREFIX) k = true.

(** The clock never shows the same time twice in a row or goes back. *)
Definition clock_increases (w : World) : Prop :=
  ∀ i j, (i < j)%nat → clock_source w i < clock_source w j.

(** The world [w'] differs from [w] at most in rows that a scan for the
    prefix [p] selects. *)
Definition untouched_outside (p : string) (w w' : World) : Prop :=
  ∀ k, selects p k = false → kv_data w' !! k = kv_data w !! k.

(** What the readers of each collection return is the same in [w'] as in
    [w]. *)
Definition same_cookies (w w' : World) : Prop :=
  result CookieDB.getAll w' = result CookieDB.getAll w
  ∧ ∀ id, result (CookieDB.get id) w' = result (CookieDB.get id) w.

Definition same_apikeys (w w' : World) : Prop :=
  result ApiKeyDB.getAll w' = result ApiKeyDB.getAll w
  ∧ (∀ id, result (ApiKeyDB.get id) w' = result (ApiKeyDB.get id) w)
  ∧ ∀ key, result (ApiKeyDB.getByKey key) w'
           = result (ApiKeyDB.getByKey key) w.

Definition same_logs (w w' : World) : Prop :=
  (∀ cfg limit, result (RequestLogDB.getRecent cfg limit) w'
                = result (RequestLogDB.getRecent cfg limit) w)
  ∧ result RequestLogDB.count w' = result RequestLogDB.count w
  ∧ ∀ path, result (RequestLogDB.countByPath path) w'
            = result (RequestLogDB.countByPath path) w.

Definition same_settings (w w' : World) : Prop :=
  ∀ cfg, result (SystemSettingsDB.get cfg) w'
         = result (SystemSettingsDB.get cfg) w.

Definition same_models (w w' : World) : Prop :=
  ∀ cfg, result (ModelMappingDB.get cfg) w'
         = result (ModelMappingDB.get cfg) w.

(** The API key [a] sits in the row of its own id and no other row of the
    collection holds an API key with the [key] field [key]. *)
Definition sole_key (w : World) (key : string) (a : ApiKey.t) : Prop :=
  kv_data w !! makeKey (ApiKeyDB.PREFIX ++ [SStr (ApiKey.id a)])
  = Some (VApiKey a)
  ∧ ApiKey.key a = key
  ∧ ∀ k b, kv_data w !! k = Some (VApiKey b) →
           starts_with (makeKey ApiKeyDB.PREFIX) k = true →
           ApiKey.key b = key →
           k = makeKey (ApiKeyDB.PREFIX ++ [SStr (ApiKey.id a)]).

(** One call of a writing method of the repository, or of the bootstrap,
    takes the world [w] to the world [w']. *)
Inductive step (cfg : Config) : World → World → Prop :=
  | step_cookie_add f w : step cfg w (after (CookieDB.add f) w)
  | step_cookie_update id u w : step cfg w (after (CookieDB.update id u) w)
  | step_cookie_delete id w : step cfg w (after (CookieDB.delete id) w)
  | step_cookie_fail id w :
      step cfg w (after (CookieDB.incrementFailCount cfg id) w)
  | step_cookie_reset id w :
      step cfg w (after (CookieDB.resetFailCount id) w)
  | step_apikey_add f w : step cfg w (after (ApiKeyDB.add f) w)
  | step_apikey_update id u w : step cfg w (after (ApiKeyDB.update id u) w)
  | step_apikey_delete id w : step cfg w (after (ApiKeyDB.delete id) w)
  | step_apikey_request key w :
      step cfg w (after (ApiKeyDB.incrementRequestCount key) w)
  | step_log_add log w : step cfg w (after (RequestLogDB.add cfg log) w)
  | step_settings_update s w :
      step cfg w (after (SystemSettingsDB.update cfg s) w)
  | step_models_update ms w :
      step cfg w (after (ModelMappingDB.update ms) w)
  | step_bootstrap w : step cfg w (after (initializeDatabase cfg) w).

(** A step from [w] to [w'] that only the readers of one collection, or
    of one singleton, can observe. *)
Definition only_cookies (w w' : World) : Prop :=
  same_apikeys w w' ∧ same_logs w w' ∧ same_settings w w' ∧ same_models w w'.

Definition only_apikeys (w w' : World) : Prop :=
  same_cookies w w' ∧ same_logs w w' ∧ same_settings w w' ∧ same_models w w'.

Definition only_logs (w w' : World) : Prop :=
  same_cookies w w' ∧ same_apikeys w w' ∧ same_settings w w'
  ∧ same_models w w'.

Definition only_settings (w w' : World) : Prop :=
  same_cookies w w' ∧ same_apikeys w w' ∧ same_logs w w' ∧ same_models w w'.

Definition only_models (w w' : World) : Prop :=
  same_cookies w w' ∧ same_apikeys w w' ∧ same_logs w w'
  ∧ same_settings w w'.

(** ** Concrete worlds

    A configuration and a few small worlds on which the statements below
    are evaluated. *)

Definition demo_uuid (n : nat) : string := "id-" +:+ pretty n.

Definition demo_clock (n : nat) : Z := 1700000000000 + Z.of_nat n.

Definition demo_settings : SystemSettings :=
  {[ "theme" := JStr "dark"; "maxTokens" := JNum 4096 ]}.

Definition demo_mapping (from to : string) : ModelMapping :=
  {[ "from" := JStr from; "to" := JStr to ]}.

Definition demo_config : Config :=
  {| MAX_FAIL_NUM := 3;
     MAX_REQUEST_RECORD_NUM := 2;
     DEFAULT_CTO_COOKIES := ["cookie-a"; "cookie-b"];
     DEFAULT_CHAT_APIKEYS := ["sk-default"];
     DEFAULT_MODELS_MAPS := [demo_mapping "gpt-4" "claude"];
     getDefaultSystemSettings := demo_settings |}.

Definition empty_world : World :=
  {| kv_data := ∅; uuid_source := demo_uuid; uuids_drawn := 0;
     clock_source := demo_clock; clock_reads := 0 |}.

(** The empty world after [initializeDatabase]: the cookies [id-0] and
    [id-1] and the API key [id-2], all default. *)
Definition seeded_world : World :=
  after (initializeDatabase demo_config) empty_world.

(** The seeded world with one more cookie, [id-3], and one more API key,
    [id-4], neither of them default. *)
Definition busy_world : World :=
  after (ApiKeyDB.add
           {| ApiKey.f_key := "sk-user"; ApiKey.f_isEnabled := true;
              ApiKey.f_isDefault := false |})
    (after (CookieDB.add
              {| Cookie.f_value := "cookie-c"; Cookie.f_isValid := true;
                 Cookie.f_failCount := 0; Cookie.f_isDefault := false |})
       seeded_world).

(** The order a comparator that subtracts the field [key] sorts by. *)
Definition by_key {A} (key : A → Z) (a b : A) : Prop := key a ≤ key b.

(** ** The claims that fail, as the specification words them *)

(** The claim C5 as the specification words it, for [update]: a stored
    cookie that satisfies the invariant still satisfies it after any
    update. *)
Definition update_keeps_invariant : Prop :=
  ∀ (cfg : Config) (w : World) (id : string) (u : Cookie.partial)
    (c c' : Cookie.t),
    result (CookieDB.get id) w = Some c →
    cookie_invariant cfg c →
    result (CookieDB.get id) (after (CookieDB.update id u) w) = Some c' →
    cookie_invariant cfg c'.

(** The claim C8 as the specification words it: the code's update of the
    model-mapping store leaves the table as the read-merge-write update of
    spec section 4.6 does. *)
Definition model_update_follows_pattern : Prop :=
  ∀ (cfg : Config) (mappings : list ModelMapping) (w : World),
    kv_data (after (ModelMappingDB.update mappings) w)
    = kv_data (after (ModelMappingDB_update_spec cfg mappings) w).


(** ** Tactics *)

(** Runs the monad: every wrapper and repository method is unfolded down to
    lookups, inserts and deletes on the table. *)
Ltac run :=
  cbv [result after bind ret for_of kvGet kvSet kvDelete Date_now randomUUID
       with_kv fst snd
       CookieDB.get CookieDB.update CookieDB.delete CookieDB.add
       CookieDB.incrementFailCount CookieDB.resetFailCount
       ApiKeyDB.get ApiKeyDB.update ApiKeyDB.delete ApiKeyDB.add
       SystemSettingsDB.get SystemSettingsDB.update
       ModelMappingDB.get ModelMappingDB.update ModelMappingDB_update_spec]
    in *.

(** Reads the fields of the worlds that [run] has built. *)
Ltac fields :=
  cbn [kv_data uuid_source uuids_drawn clock_source clock_reads fst snd] in *.

(** Closes [NoDup] goals over lists of integers. *)
Ltac nodup_lia :=
  repeat first
    [ apply NoDup_nil_2
    | apply NoDup_cons_2; [rewrite ?elem_of_cons, ?elem_of_nil; lia|] ].

(** * Properties *)

(** ** Strings and keys *)



Lemma string_app_cons (x : Ascii.ascii) (a b : string) :
  String x a +:+ b = String x (a +:+ b).
Proof. reflexivity. Qed.

(** *** The pattern filter *)

(** A character that is no wildcard matches itself and nothing else. *)
Lemma like_literal (c : ascii) (rest k : string) :
  wildcard c = false →
  like (String c rest) k
  = match k with
    | EmptyString => false
    | String e k' => Ascii.eqb c e && like rest k'
    end.
Proof.
  unfold wildcard. intros H.
  apply orb_false_iff in H as [H H3]. apply orb_false_iff in H as [H1 H2].
  cbn [like]. rewrite H1, H2, H3. by destruct k.
Qed.

Lemma selects_cons (c : ascii) (p k : string) :
  wildcard c = false →
  selects (String c p) k
  = match k with
    | EmptyString => false
    | String e k' => Ascii.eqb c e && selects p k'
    end.
Proof. intros H. unfold selects. by rewrite string_app_cons, like_literal. Qed.

(** A prefix that holds no wildcard selects the keys it is a string prefix
    of, and no other. *)
Lemma selects_plain (p k : string) :
  wildcard_free p = true → selects p k = starts_with p k.
Proof.
  revert k. induction p as [|c p IH]; intros k Hp.
  - by destruct k.
  - cbn [wildcard_free] in Hp. apply andb_true_iff in Hp as [Hc Hp].
    apply negb_true_iff in Hc. rewrite selects_cons by done.
    unfold starts_with. destruct k as [|e k]; [done|]. cbn [String.prefix].
    rewrite IH by done. unfold starts_with.
    destruct (Ascii.ascii_dec c e) as [->|Hne].
    + by rewrite Ascii.eqb_refl.
    + by apply Ascii.eqb_neq in Hne as ->.
Qed.

(** Two prefixes that begin with different plain characters select no key
    in common. *)
Lemma selects_disjoint (c d : ascii) (p q k : string) :
  wildcard c = false → wildcard d = false → c ≠ d →
  selects (String c p) k = true → selects (String d q) k = false.
Proof.
  intros Hc Hd Hne. rewrite !selects_cons by done.
  destruct k as [|e k]; [done|].
  intros [He _]%andb_true_iff. apply Ascii.eqb_eq in He as <-.
  destruct (Ascii.eqb_spec d c) as [E|_]; [by destruct Hne|done].
Qed.

(** The three prefixes the repository scans hold no wildcard. *)
Lemma selects_cookies (k : string) :
  selects (makeKey CookieDB.PREFIX) k = starts_with (makeKey CookieDB.PREFIX) k.
Proof. by apply selects_plain. Qed.

Lemma selects_apikeys (k : string) :
  selects (makeKey ApiKeyDB.PREFIX) k = starts_with (makeKey ApiKeyDB.PREFIX) k.
Proof. by apply selects_plain. Qed.

Lemma selects_logs (k : string) :
  selects (makeKey RequestLogDB.PREFIX) k
  = starts_with (makeKey RequestLogDB.PREFIX) k.
Proof. by apply selects_plain. Qed.





Lemma occurs_cons (c d : ascii) (s : string) :
  occurs c (String d s) = Ascii.eqb c d || occurs c s.
Proof. reflexivity. Qed.

Lemma occurs_head (c : ascii) (s : string) : occurs c (String c s) = true.
Proof. by rewrite occurs_cons, Ascii.eqb_refl. Qed.

(** The decimal notation of an integer holds no delimiter. *)
Lemma pretty_N_go_no_delimiter (x : N) (s : string) :
  occurs delimiter s = false → occurs delimiter (pretty_N_go x s) = false.
Proof.
  revert s. induction (N.lt_wf_0 x) as [x _ IH]; intros s Hs.
  assert (x = 0 ∨ 0 < x)%N as [->|Hx] by lia.
  - by rewrite pretty_N_go_0.
  - rewrite pretty_N_go_step by done. apply IH; [by apply N.div_lt|].
    rewrite occurs_cons, Hs. unfold pretty_N_char. by repeat case_match.
Qed.

Lemma pretty_N_no_delimiter (x : N) : occurs delimiter (pretty x) = false.
Proof.
  unfold pretty, pretty_N. case_decide; [done|].
  by apply pretty_N_go_no_delimiter.
Qed.

Lemma pretty_Z_no_delimiter (z : Z) : occurs delimiter (pretty z) = false.
Proof.
  destruct z as [|p|p]; [done|apply pretty_N_no_delimiter|].
  unfold pretty, pretty_Z. rewrite string_app_cons, occurs_cons.
  apply pretty_N_no_delimiter.
Qed.

(** Two strings that agree up to their first delimiter agree on both
    sides of it. *)
Lemma split_at_delimiter (s1 s2 r1 r2 : string) :
  occurs delimiter s1 = false → occurs delimiter s2 = false →
  s1 +:+ String delimiter r1 = s2 +:+ String delimiter r2 →
  s1 = s2 ∧ r1 = r2.
Proof.
  revert s2. induction s1 as [|a s1 IH]; intros [|b s2] Ha Hb;
    rewrite ?string_app_cons; intros H.
  - by injection H as ->.
  - injection H as <- _. by rewrite occurs_head in Hb.
  - injection H as -> _. by rewrite occurs_head in Ha.
  - injection H as -> Hrest.
    rewrite occurs_cons in Ha, Hb.
    apply orb_false_elim in Ha as [_ Ha], Hb as [_ Hb].
    destruct (IH _ Ha Hb Hrest) as [-> ->]. done.
Qed.

Lemma log_key_unfold (l : RequestLog.t) :
  makeKey (RequestLogDB.key_of l)
  = "logs:" +:+ pretty (RequestLog.timestamp l)
      +:+ String delimiter (RequestLog.id l).
Proof. reflexivity. Qed.

(** The key of a log determines its timestamp and its id, whatever the id
    is made of. *)
Lemma log_key_inj (l1 l2 : RequestLog.t) :
  makeKey (RequestLogDB.key_of l1) = makeKey (RequestLogDB.key_of l2) →
  RequestLog.timestamp l1 = RequestLog.timestamp l2
  ∧ RequestLog.id l1 = RequestLog.id l2.
Proof.
  rewrite !log_key_unfold, !string_app_cons. intros [= H].
  apply split_at_delimiter in H as [H1 H2];
    auto using pretty_Z_no_delimiter.
  split; [by apply (inj pretty)|done].
Qed.

Lemma cookie_key_unfold (id : string) :
  makeKey (CookieDB.PREFIX ++ [SStr id]) = "cookies:" +:+ id.
Proof. reflexivity. Qed.

Lemma apikey_key_unfold (id : string) :
  makeKey (ApiKeyDB.PREFIX ++ [SStr id]) = "apikeys:" +:+ id.
Proof. reflexivity. Qed.

Lemma cookie_key_inj (a b : string) :
  makeKey (CookieDB.PREFIX ++ [SStr a]) = makeKey (CookieDB.PREFIX ++ [SStr b])
  → a = b.
Proof. rewrite !cookie_key_unfold. cbv [String.append]. by intros [= ->]. Qed.

Lemma apikey_key_inj (a b : string) :
  makeKey (ApiKeyDB.PREFIX ++ [SStr a]) = makeKey (ApiKeyDB.PREFIX ++ [SStr b])
  → a = b.
Proof. rewrite !apikey_key_unfold. cbv [String.append]. by intros [= ->]. Qed.

(** ** Prefix scans *)

#[global] Instance values_Permutation {T} `{Cast T} :
  Proper ((≡ₚ) ==> (≡ₚ)) (values (T:=T)).
Proof. intros rows rows' Hp. unfold values. by rewrite Hp. Qed.

Lemma scan_lookup (p k : string) (m : gmap string value) (v : value) :
  scan p m !! k = Some v ↔ m !! k = Some v ∧ selects p k = true.
Proof. unfold scan. by rewrite map_lookup_filter_Some. Qed.

Lemma scan_insert_in (p k : string) (v : value) (m : gmap string value) :
  selects p k = true → scan p (<[k:=v]> m) = <[k:=v]> (scan p m).
Proof. intros H. unfold scan. by rewrite map_filter_insert_True. Qed.

Lemma scan_insert_out (p k : string) (v : value) (m : gmap string value) :
  selects p k = false → scan p (<[k:=v]> m) = scan p m.
Proof.
  intros H. apply map_eq. intros j. apply option_eq. intros x.
  rewrite !scan_lookup. destruct (decide (k = j)) as [->|Hne].
  - rewrite lookup_insert_eq. split; intros [_ ?]; congruence.
  - by rewrite lookup_insert_ne.
Qed.

Lemma scan_delete (p k : string) (m : gmap string value) :
  scan p (delete k m) = delete k (scan p m).
Proof. unfold scan. apply map_filter_delete. Qed.

Lemma scan_empty_lookup (p k : string) (m : gmap string value) :
  scan p m = ∅ → selects p k = true → m !! k = None.
Proof.
  intros Hs Hp. destruct (m !! k) as [v|] eqn:E; [|done].
  assert (scan p m !! k = Some v) as H by by apply scan_lookup.
  rewrite Hs, lookup_empty in H. done.
Qed.

(** ** Sorting and slicing *)

Section sorting.
Context {A : Type} (cmp : A → A → Z).

Lemma sort_insert_perm (x : A) (l : list A) : sort_insert cmp x l ≡ₚ x :: l.
Proof.
  induction l as [|y l IH]; simpl; [done|].
  destruct (cmp x y <=? 0); [done|].
  rewrite IH. apply perm_swap.
Qed.

Lemma sort_perm (l : list A) : sort cmp l ≡ₚ l.
Proof.
  induction l as [|x l IH]; simpl; [done|].
  by rewrite sort_insert_perm, IH.
Qed.

Lemma sort_length (l : list A) : length (sort cmp l) = length l.
Proof. by rewrite sort_perm. Qed.

(** The comparators of [db.ts] subtract one numeric field from another:
    they order by a key. *)
Context (key : A → Z) (cmp_key : ∀ a b, cmp a b ≤ 0 ↔ key a ≤ key b).

Lemma cmp_leb (a b : A) : (cmp a b <=? 0) = (key a <=? key b).
Proof.
  destruct (Z.leb_spec (cmp a b) 0) as [H|H],
    (Z.leb_spec (key a) (key b)) as [H'|H']; try done.
  - apply cmp_key in H. lia.
  - apply cmp_key in H'. lia.
Qed.

Lemma sort_insert_sorted (x : A) (l : list A) :
  StronglySorted (by_key key) l →
  StronglySorted (by_key key) (sort_insert cmp x l).
Proof.
  induction 1 as [|y l Hl IH Hy]; simpl.
  - repeat constructor.
  - rewrite cmp_leb. destruct (Z.leb_spec (key x) (key y)) as [Hxy|Hxy].
    + constructor; [by constructor|]. constructor; [done|].
      eapply Forall_impl; [exact Hy|]. unfold by_key. intros; lia.
    + constructor; [done|]. rewrite sort_insert_perm.
      constructor; [unfold by_key; lia|done].
Qed.

Lemma sort_sorted (l : list A) : StronglySorted (by_key key) (sort cmp l).
Proof.
  induction l as [|x l IH]; simpl; [constructor|].
  by apply sort_insert_sorted.
Qed.

(** Two elements of different keys may be inserted in either order. *)
Lemma sort_insert_comm (x y : A) (l : list A) :
  key x ≠ key y →
  sort_insert cmp x (sort_insert cmp y l)
  = sort_insert cmp y (sort_insert cmp x l).
Proof.
  intros Hxy. induction l as [|z l IH]; simpl; rewrite ?cmp_leb;
    repeat (match goal with
            | |- context [Z.leb ?a ?b] => destruct (Z.leb_spec a b)
            end; try lia; simpl; rewrite ?cmp_leb);
    try done.
  by rewrite IH.
Qed.

(** When no two elements share a key, the sorted list does not depend on
    the order the elements came in. *)
Lemma sort_perm_invariant (l l' : list A) :
  l ≡ₚ l' → NoDup (key <$> l) → sort cmp l = sort cmp l'.
Proof.
  induction 1 as [|x l l' Hp IH|x y l|l l' l'' Hp IH Hp' IH']; intros Hnd.
  - done.
  - simpl. f_equal. apply IH. by inversion Hnd.
  - simpl. apply sort_insert_comm.
    rewrite !fmap_cons in Hnd. apply NoDup_cons in Hnd as [Hy _].
    intros E. apply Hy. rewrite E. left.
  - rewrite IH by done. apply IH'. by rewrite <-Hp.
Qed.

(** [find] on a sorted list returns a match of least key. *)
Lemma find_sorted_least (p : A → bool) (l : list A) (a : A) :
  StronglySorted (by_key key) l → List.find p l = Some a →
  a ∈ l ∧ p a = true ∧ ∀ b, b ∈ l → p b = true → key a ≤ key b.
Proof.
  induction 1 as [|x l Hl IH Hx]; simpl; [done|].
  destruct (p x) eqn:Hpx.
  - intros [= <-]. split; [left|]. split; [done|].
    intros b [->|Hb]%elem_of_cons _; [lia|].
    rewrite Forall_forall in Hx. by apply Hx.
  - intros Hf. destruct (IH Hf) as (Ha & Hpa & Hmin).
    split; [by right|]. split; [done|].
    intros b [->|Hb]%elem_of_cons Hpb; [congruence|by apply Hmin].
Qed.

Lemma find_none (p : A → bool) (l : list A) :
  List.find p l = None ↔ ∀ b, b ∈ l → p b = false.
Proof.
  induction l as [|x l IH]; simpl.
  - split; [by intros _ b ?%elem_of_nil|done].
  - destruct (p x) eqn:Hpx.
    + split; [done|]. intros H. specialize (H x). rewrite Hpx in H.
      discriminate H. left.
    + rewrite IH. split.
      * intros H b [->|Hb]%elem_of_cons; auto.
      * intros H b Hb. apply H. by right.
Qed.
End sorting.

Lemma slice_from {A} (n : Z) (l : list A) :
  0 ≤ n → slice n None l = drop (Z.to_nat n) l.
Proof.
  intros Hn. unfold slice, slice_index. simpl.
  destruct (Z.ltb_spec n 0); [lia|].
  destruct (Z.min_spec n (Z.of_nat (length l))) as [[H1 ->]|[H1 ->]].
  - apply take_ge. rewrite length_drop. lia.
  - rewrite Z.sub_diag, Nat2Z.id. simpl.
    by rewrite !drop_ge by lia.
Qed.

Lemma slice_upto {A} (n : Z) (l : list A) :
  0 ≤ n → slice 0 (Some n) l = take (Z.to_nat n) l.
Proof.
  intros Hn. unfold slice, slice_index. simpl.
  destruct (Z.ltb_spec n 0); [lia|].
  rewrite (Z.min_l 0) by lia.
  change (Z.to_nat 0) with 0%nat. rewrite drop_0.
  destruct (Z.min_spec n (Z.of_nat (length l))) as [[H1 ->]|[H1 ->]].
  - by replace (Z.to_nat (n - 0)) with (Z.to_nat n) by lia.
  - replace (Z.to_nat (Z.of_nat (length l) - 0)) with (length l) by lia.
    rewrite (take_ge l (length l)) by lia.
    symmetry. apply take_ge. lia.
Qed.

(** ** Point reads and writes *)

(** [update] on a cookie that is there: one clock reading, one write. *)
Lemma cookie_update_run (id : string) (u : Cookie.partial) (w : World)
    (c : Cookie.t) :
  result (CookieDB.get id) w = Some c →
  CookieDB.update id u w
  = (true,
     with_kv (after Date_now w)
       (<[makeKey (CookieDB.PREFIX ++ [SStr id]) :=
            VCookie (Cookie.with_updatedAt (Cookie.merge c u)
                       (result Date_now w))]> (kv_data w))).
Proof. intros H. run. by repeat (rewrite H; fields). Qed.

Lemma cookie_update_absent (id : string) (u : Cookie.partial) (w : World) :
  result (CookieDB.get id) w = None → CookieDB.update id u w = (false, w).
Proof. intros H. run. by repeat (rewrite H; fields). Qed.

Lemma cookie_get_after_update (id : string) (u : Cookie.partial) (w : World)
    (c : Cookie.t) :
  result (CookieDB.get id) w = Some c →
  result (CookieDB.get id) (after (CookieDB.update id u) w)
  = Some (Cookie.with_updatedAt (Cookie.merge c u) (result Date_now w)).
Proof.
  intros H. run. repeat (rewrite H; fields). by rewrite lookup_insert_eq.
Qed.

Lemma cookie_increment_run (cfg : Config) (id : string) (w : World)
    (c : Cookie.t) :
  result (CookieDB.get id) w = Some c →
  result (CookieDB.get id) (after (CookieDB.incrementFailCount cfg id) w)
  = Some {| Cookie.id := Cookie.id c; Cookie.value := Cookie.value c;
            Cookie.isValid := Cookie.failCount c + 1 <? MAX_FAIL_NUM cfg;
            Cookie.failCount := Cookie.failCount c + 1;
            Cookie.isDefault := Cookie.isDefault c;
            Cookie.createdAt := Cookie.createdAt c;
            Cookie.updatedAt := result Date_now w |}.
Proof.
  intros H. run. repeat (rewrite H; fields). by rewrite lookup_insert_eq.
Qed.

Lemma cookie_increment_absent (cfg : Config) (id : string) (w : World) :
  result (CookieDB.get id) w = None →
  CookieDB.incrementFailCount cfg id w = ((), w).
Proof. intros H. run. by repeat (rewrite H; fields). Qed.

Lemma cookie_reset_run (id : string) (w : World) (c : Cookie.t) :
  result (CookieDB.get id) w = Some c →
  result (CookieDB.get id) (after (CookieDB.resetFailCount id) w)
  = Some {| Cookie.id := Cookie.id c; Cookie.value := Cookie.value c;
            Cookie.isValid := true;
            Cookie.failCount := 0;
            Cookie.isDefault := Cookie.isDefault c;
            Cookie.createdAt := Cookie.createdAt c;
            Cookie.updatedAt := result Date_now w |}.
Proof.
  intros H. run. repeat (rewrite H; fields). by rewrite lookup_insert_eq.
Qed.

Lemma cookie_reset_absent (id : string) (w : World) :
  result (CookieDB.get id) w = None →
  CookieDB.resetFailCount id w = ((), w).
Proof. intros H. run. by repeat (rewrite H; fields). Qed.

Example busy_world_cookie :
  result (CookieDB.get "id-3") busy_world
  = Some {| Cookie.id := "id-3"; Cookie.value := "cookie-c";
            Cookie.isValid := true; Cookie.failCount := 0;
            Cookie.isDefault := false;
            Cookie.createdAt := 1700000000005;
            Cookie.updatedAt := 1700000000006 |}.
Proof. vm_compute. reflexivity. Qed.

Example busy_world_cookies :
  Cookie.value <$> result CookieDB.getAll busy_world
  = ["cookie-a"; "cookie-b"; "cookie-c"].
Proof. vm_compute. reflexivity. Qed.

Example busy_world_apikeys :
  ApiKey.key <$> result ApiKeyDB.getAll busy_world = ["sk-default"; "sk-user"].
Proof. vm_compute. reflexivity. Qed.

(** ** The health state machine *)

(** C2.  With [maxFailThreshold = 3], three [incrementFailCount] calls on a
    cookie that starts at [failCount = 0], [isValid = true] take its
    [failCount] through 1, 2 and 3 and leave it with [isValid = false]
    (it is still valid after the first and the second call); a
    [resetFailCount] after them leaves [failCount = 0] and
    [isValid = true]. *)
Theorem C2_health_state_machine (cfg : Config) (w : World) (id : string)
    (c : Cookie.t) :
  MAX_FAIL_NUM cfg = 3 →
  result (CookieDB.get id) w = Some c →
  Cookie.failCount c = 0 →
  Cookie.isValid c = true →
  let w1 := after (CookieDB.incrementFailCount cfg id) w in
  let w2 := after (CookieDB.incrementFailCount cfg id) w1 in
  let w3 := after (CookieDB.incrementFailCount cfg id) w2 in
  let w4 := after (CookieDB.resetFailCount id) w3 in
  health id w1 = Some (1, true)
  ∧ health id w2 = Some (2, true)
  ∧ health id w3 = Some (3, false)
  ∧ health id w4 = Some (0, true).
Proof.
  intros Hmax Hget Hfc _ w1 w2 w3 w4.
  pose proof (cookie_increment_run cfg _ _ _ Hget) as H1. fold w1 in H1.
  pose proof (cookie_increment_run cfg _ _ _ H1) as H2. fold w2 in H2.
  pose proof (cookie_increment_run cfg _ _ _ H2) as H3. fold w3 in H3.
  pose proof (cookie_reset_run _ _ _ H3) as H4. fold w4 in H4.
  unfold health. rewrite H1, H2, H3, H4. simpl.
  rewrite Hmax, Hfc. done.
Qed.

Lemma C2_health_state_machine_witness :
  let id := "id-3" in
  let w1 := after (CookieDB.incrementFailCount demo_config id) busy_world in
  let w2 := after (CookieDB.incrementFailCount demo_config id) w1 in
  let w3 := after (CookieDB.incrementFailCount demo_config id) w2 in
  let w4 := after (CookieDB.resetFailCount id) w3 in
  health id w1 = Some (1, true)
  ∧ health id w2 = Some (2, true)
  ∧ health id w3 = Some (3, false)
  ∧ health id w4 = Some (0, true).
Proof.
  apply (C2_health_state_machine demo_config busy_world "id-3"
           {| Cookie.id := "id-3"; Cookie.value := "cookie-c";
              Cookie.isValid := true; Cookie.failCount := 0;
              Cookie.isDefault := false;
              Cookie.createdAt := 1700000000005;
              Cookie.updatedAt := 1700000000006 |});
    vm_compute; reflexivity.
Defined.

(** C5, refuted as stated: [update] writes the caller's [isValid] as it is
    given.  The cookie [id-3] of [busy_world] has [failCount = 0] and is
    valid; after [update(id, {isValid: false})] it is invalid with
    [failCount = 0 < 3]. *)
Lemma C5_update_breaks_invariant : ¬ update_keeps_invariant.
Proof.
  intros H.
  specialize (H demo_config busy_world "id-3"
    {| Cookie.p_id := None; Cookie.p_value := None;
       Cookie.p_isValid := Some false; Cookie.p_failCount := None;
       Cookie.p_isDefault := None; Cookie.p_createdAt := None;
       Cookie.p_updatedAt := None |}
    _ _ busy_world_cookie eq_refl
    (cookie_get_after_update _ _ _ _ busy_world_cookie)).
  vm_compute in H. discriminate H.
Qed.

(** C5, amended.  After [incrementFailCount] the stored cookie satisfies
    [isValid == (failCount < maxFailThreshold)], whatever it was before;
    after [resetFailCount] it does when the threshold is positive; [update]
    keeps the invariant of a cookie when the patch names neither
    [failCount] nor [isValid], and in general stores the stored cookie with
    the patch merged over it as it is given; and [add] stores the [isValid]
    and [failCount] it is given, so the new cookie satisfies the invariant
    exactly when the caller's two fields do. *)
Theorem C5_cookie_invariant (cfg : Config) (w : World) (id : string) :
  (∀ c', result (CookieDB.get id)
           (after (CookieDB.incrementFailCount cfg id) w) = Some c' →
         cookie_invariant cfg c')
  ∧ (∀ c', 0 < MAX_FAIL_NUM cfg →
           result (CookieDB.get id)
             (after (CookieDB.resetFailCount id) w) = Some c' →
           cookie_invariant cfg c')
  ∧ (∀ u c c', Cookie.p_isValid u = None → Cookie.p_failCount u = None →
               result (CookieDB.get id) w = Some c →
               cookie_invariant cfg c →
               result (CookieDB.get id)
                 (after (CookieDB.update id u) w) = Some c' →
               cookie_invariant cfg c')
  ∧ (∀ u c, result (CookieDB.get id) w = Some c →
            result (CookieDB.get id) (after (CookieDB.update id u) w)
            = Some (Cookie.with_updatedAt (Cookie.merge c u)
                      (result Date_now w)))
  ∧ (∀ f, let c' := result (CookieDB.add f) w in
          result (CookieDB.get (Cookie.id c'))
            (after (CookieDB.add f) w) = Some c'
          ∧ (cookie_invariant cfg c' ↔
             Cookie.f_isValid f = (Cookie.f_failCount f <? MAX_FAIL_NUM cfg))).
Proof.
  repeat split.
  - intros c' H'. destruct (result (CookieDB.get id) w) as [c|] eqn:Hc.
    + rewrite (cookie_increment_run cfg _ _ _ Hc) in H'.
      injection H' as <-. reflexivity.
    + unfold after in H'. rewrite (cookie_increment_absent cfg _ _ Hc) in H'.
      simpl in H'. congruence.
  - intros c' Hpos H'. destruct (result (CookieDB.get id) w) as [c|] eqn:Hc.
    + rewrite (cookie_reset_run _ _ _ Hc) in H'.
      injection H' as <-. unfold cookie_invariant. simpl.
      symmetry. by apply Z.ltb_lt.
    + unfold after in H'. rewrite (cookie_reset_absent _ _ Hc) in H'.
      simpl in H'. congruence.
  - intros u c c' Hv Hf Hc Hinv H'.
    rewrite (cookie_get_after_update _ _ _ _ Hc) in H'.
    injection H' as <-. unfold cookie_invariant in *. simpl.
    by rewrite Hv, Hf.
  - intros u c Hc. by apply cookie_get_after_update.
  - run. fields. by rewrite lookup_insert_eq.
  - run. fields. done.
  - run. fields. done.
Qed.

Lemma C5_cookie_invariant_witness :
  match result (CookieDB.get "id-3")
          (after (CookieDB.incrementFailCount demo_config "id-3") busy_world)
  with
  | Some c' => Cookie.failCount c' = 1 ∧ cookie_invariant demo_config c'
  | None => False
  end.
Proof.
  destruct (C5_cookie_invariant demo_config busy_world "id-3") as (Hinc & _).
  destruct (result _ _) as [c'|] eqn:E; [|vm_compute in E; discriminate E].
  split; [|by apply Hinc].
  vm_compute in E. by injection E as <-.
Defined.

(** ** Default protection *)

(** What [delete] does, by the row stored at the key of the id. *)
Lemma cookie_delete_cases (w : World) (id : string) :
  let k := makeKey (CookieDB.PREFIX ++ [SStr id]) in
  (kv_data w !! k = None → CookieDB.delete id w = (false, w))
  ∧ (∀ c, kv_data w !! k = Some (VCookie c) → Cookie.isDefault c = true →
          CookieDB.delete id w = (false, w))
  ∧ (∀ c, kv_data w !! k = Some (VCookie c) → Cookie.isDefault c = false →
          CookieDB.delete id w = (true, with_kv w (delete k (kv_data w)))).
Proof.
  intros k. split; [|split].
  - intros H. run. fold k. by rewrite H.
  - intros c H Hd. run. fold k. rewrite H. cbn. by rewrite Hd.
  - intros c H Hd. run. fold k. rewrite H. cbn. by rewrite Hd.
Qed.

Lemma apikey_delete_cases (w : World) (id : string) :
  let k := makeKey (ApiKeyDB.PREFIX ++ [SStr id]) in
  (kv_data w !! k = None → ApiKeyDB.delete id w = (false, w))
  ∧ (∀ a, kv_data w !! k = Some (VApiKey a) → ApiKey.isDefault a = true →
          ApiKeyDB.delete id w = (false, w))
  ∧ (∀ a, kv_data w !! k = Some (VApiKey a) → ApiKey.isDefault a = false →
          ApiKeyDB.delete id w = (true, with_kv w (delete k (kv_data w)))).
Proof.
  intros k. split; [|split].
  - intros H. run. fold k. by rewrite H.
  - intros a H Hd. run. fold k. rewrite H. cbn. by rewrite Hd.
  - intros a H Hd. run. fold k. rewrite H. cbn. by rewrite Hd.
Qed.

(** C3.  [delete(id)], on cookies and on API keys alike, by the row the
    table holds at the key of [id].  When there is no row, or the row holds
    an entity with [isDefault = true], it returns [false] and leaves the
    world as it was, so a default entity is still in its row and still
    returned by [get] afterwards.  When the row holds an entity that is
    not a default, it returns [true], the table loses exactly that row,
    and [get] no longer finds the entity. *)
Theorem C3_delete_protects_defaults (w : World) (id : string) :
  let kc := makeKey (CookieDB.PREFIX ++ [SStr id]) in
  let ka := makeKey (ApiKeyDB.PREFIX ++ [SStr id]) in
  (kv_data w !! kc = None → CookieDB.delete id w = (false, w))
  ∧ (∀ c, kv_data w !! kc = Some (VCookie c) → Cookie.isDefault c = true →
          CookieDB.delete id w = (false, w)
          ∧ kv_data (after (CookieDB.delete id) w) !! kc = Some (VCookie c)
          ∧ result (CookieDB.get id) (after (CookieDB.delete id) w) = Some c)
  ∧ (∀ c, kv_data w !! kc = Some (VCookie c) → Cookie.isDefault c = false →
          result (CookieDB.delete id) w = true
          ∧ kv_data (after (CookieDB.delete id) w) = delete kc (kv_data w)
          ∧ kv_data (after (CookieDB.delete id) w) !! kc = None
          ∧ result (CookieDB.get id) (after (CookieDB.delete id) w) = None)
  ∧ (kv_data w !! ka = None → ApiKeyDB.delete id w = (false, w))
  ∧ (∀ a, kv_data w !! ka = Some (VApiKey a) → ApiKey.isDefault a = true →
          ApiKeyDB.delete id w = (false, w)
          ∧ kv_data (after (ApiKeyDB.delete id) w) !! ka = Some (VApiKey a)
          ∧ result (ApiKeyDB.get id) (after (ApiKeyDB.delete id) w) = Some a)
  ∧ (∀ a, kv_data w !! ka = Some (VApiKey a) → ApiKey.isDefault a = false →
          result (ApiKeyDB.delete id) w = true
          ∧ kv_data (after (ApiKeyDB.delete id) w) = delete ka (kv_data w)
          ∧ kv_data (after (ApiKeyDB.delete id) w) !! ka = None
          ∧ result (ApiKeyDB.get id) (after (ApiKeyDB.delete id) w) = None).
Proof.
  intros kc ka.
  destruct (cookie_delete_cases w id) as (Hc0 & Hc1 & Hc2).
  destruct (apikey_delete_cases w id) as (Ha0 & Ha1 & Ha2).
  fold kc in Hc0, Hc1, Hc2. fold ka in Ha0, Ha1, Ha2.
  split; [exact Hc0|]. split; [|split; [|split; [exact Ha0|split]]].
  - intros c H Hd. unfold after. rewrite (Hc1 c H Hd). cbn [snd].
    split; [done|]. split; [exact H|].
    unfold result, CookieDB.get, kvGet. cbn [fst]. fold kc. by rewrite H.
  - intros c H Hd. unfold result at 1, after. rewrite (Hc2 c H Hd).
    cbn [fst snd with_kv kv_data]. split; [done|]. split; [done|].
    split; [apply lookup_delete_eq|].
    unfold result, CookieDB.get, kvGet. cbn [fst kv_data with_kv]. fold kc.
    by rewrite lookup_delete_eq.
  - intros a H Hd. unfold after. rewrite (Ha1 a H Hd). cbn [snd].
    split; [done|]. split; [exact H|].
    unfold result, ApiKeyDB.get, kvGet. cbn [fst]. fold ka. by rewrite H.
  - intros a H Hd. unfold result at 1, after. rewrite (Ha2 a H Hd).
    cbn [fst snd with_kv kv_data]. split; [done|]. split; [done|].
    split; [apply lookup_delete_eq|].
    unfold result, ApiKeyDB.get, kvGet. cbn [fst kv_data with_kv]. fold ka.
    by rewrite lookup_delete_eq.
Qed.

(** On the table the repository has built: the cookie [id-3] and the API
    key [id-4] are no defaults and go, the cookie [id-0] and the API key
    [id-2] are defaults and stay. *)
Lemma C3_delete_protects_defaults_witness :
  (result (CookieDB.delete "id-3") busy_world = true
   ∧ is_Some (kv_data busy_world !! "cookies:id-3")
   ∧ kv_data (after (CookieDB.delete "id-3") busy_world) !! "cookies:id-3"
     = None)
  ∧ (CookieDB.delete "id-0" busy_world = (false, busy_world)
     ∧ is_Some (kv_data (after (CookieDB.delete "id-0") busy_world)
                  !! "cookies:id-0"))
  ∧ (result (ApiKeyDB.delete "id-4") busy_world = true
     ∧ is_Some (kv_data busy_world !! "apikeys:id-4")
     ∧ kv_data (after (ApiKeyDB.delete "id-4") busy_world) !! "apikeys:id-4"
       = None)
  ∧ (ApiKeyDB.delete "id-2" busy_world = (false, busy_world)
     ∧ is_Some (kv_data (after (ApiKeyDB.delete "id-2") busy_world)
                  !! "apikeys:id-2")).
Proof.
  destruct (C3_delete_protects_defaults busy_world "id-3")
    as (_ & _ & Hc3 & _).
  destruct (C3_delete_protects_defaults busy_world "id-0")
    as (_ & Hc0 & _).
  destruct (C3_delete_protects_defaults busy_world "id-4")
    as (_ & _ & _ & _ & _ & Ha4).
  destruct (C3_delete_protects_defaults busy_world "id-2")
    as (_ & _ & _ & _ & Ha2 & _).
  assert (kv_data busy_world !! "cookies:id-3"
          = Some (VCookie
                    {| Cookie.id := "id-3"; Cookie.value := "cookie-c";
                       Cookie.isValid := true; Cookie.failCount := 0;
                       Cookie.isDefault := false;
                       Cookie.createdAt := 1700000000005;
                       Cookie.updatedAt := 1700000000006 |})) as E3
    by (vm_compute; reflexivity).
  assert (kv_data busy_world !! "cookies:id-0"
          = Some (VCookie
                    {| Cookie.id := "id-0"; Cookie.value := "cookie-a";
                       Cookie.isValid := true; Cookie.failCount := 0;
                       Cookie.isDefault := true;
                       Cookie.createdAt := 1700000000000;
                       Cookie.updatedAt := 1700000000001 |})) as E0
    by (vm_compute; reflexivity).
  assert (kv_data busy_world !! "apikeys:id-4"
          = Some (VApiKey
                    {| ApiKey.id := "id-4"; ApiKey.key := "sk-user";
                       ApiKey.isEnabled := true; ApiKey.isDefault := false;
                       ApiKey.createdAt := 1700000000007;
                       ApiKey.requestCount := 0 |})) as E4
    by (vm_compute; reflexivity).
  assert (kv_data busy_world !! "apikeys:id-2"
          = Some (VApiKey
                    {| ApiKey.id := "id-2"; ApiKey.key := "sk-default";
                       ApiKey.isEnabled := true; ApiKey.isDefault := true;
                       ApiKey.createdAt := 1700000000004;
                       ApiKey.requestCount := 0 |})) as E2
    by (vm_compute; reflexivity).
  destruct (Hc3 _ E3 eq_refl) as (H31 & _ & H33 & _).
  destruct (Hc0 _ E0 eq_refl) as (H01 & H02 & _).
  destruct (Ha4 _ E4 eq_refl) as (H41 & _ & H43 & _).
  destruct (Ha2 _ E2 eq_refl) as (H21 & H22 & _).
  split; [|split; [|split]].
  - split; [exact H31|]. split; [rewrite E3; by eexists|exact H33].
  - split; [exact H01|]. eexists. exact H02.
  - split; [exact H41|]. split; [rewrite E4; by eexists|exact H43].
  - split; [exact H21|]. eexists. exact H22.
Defined.

Example delete_default_cookie :
  result (CookieDB.delete "id-0") busy_world = false
  ∧ Cookie.value <$> result (CookieDB.get "id-0")
                       (after (CookieDB.delete "id-0") busy_world)
    = Some "cookie-a".
Proof. vm_compute. done. Qed.

Example delete_plain_cookie :
  result (CookieDB.delete "id-3") busy_world = true
  ∧ result (CookieDB.get "id-3") (after (CookieDB.delete "id-3") busy_world)
    = None
  ∧ Cookie.value <$> result CookieDB.getAll
                       (after (CookieDB.delete "id-3") busy_world)
    = ["cookie-a"; "cookie-b"].
Proof. vm_compute. done. Qed.

(** ** Silent no-ops *)

(** The values a scan returns at type [T], in terms of the table. *)
Lemma elem_of_values_scan {T} `{Cast T} (p : string) (m : gmap string value)
    (x : T) :
  x ∈ values (T:=T) (map_to_list (scan p m))
  ↔ ∃ k v, m !! k = Some v ∧ selects p k = true ∧ cast v = Some x.
Proof.
  unfold values. rewrite list_elem_of_omap. split.
  - intros [[k v] [Hin Hc]]. apply elem_of_map_to_list in Hin.
    apply scan_lookup in Hin as [Hm Hp]. by exists k, v.
  - intros (k & v & Hm & Hp & Hc). exists (k, v). split; [|done].
    apply elem_of_map_to_list, scan_lookup. done.
Qed.

Lemma apikey_getAll_run (w : World) :
  ApiKeyDB.getAll w
  = (sort (λ a b, ApiKey.createdAt a - ApiKey.createdAt b)
       (values (map_to_list (scan (makeKey ApiKeyDB.PREFIX) (kv_data w)))),
     w).
Proof. reflexivity. Qed.

Lemma cookie_getAll_run (w : World) :
  CookieDB.getAll w
  = (sort (λ a b, Cookie.createdAt a - Cookie.createdAt b)
       (values (map_to_list (scan (makeKey CookieDB.PREFIX) (kv_data w)))),
     w).
Proof. reflexivity. Qed.

Lemma elem_of_apikey_getAll (w : World) (a : ApiKey.t) :
  a ∈ result ApiKeyDB.getAll w ↔ stored_apikey w a.
Proof.
  unfold result. rewrite apikey_getAll_run. simpl.
  rewrite sort_perm, elem_of_values_scan. unfold stored_apikey.
  setoid_rewrite selects_apikeys. split.
  - intros (k & v & Hm & Hp & Hc). exists k.
    destruct v; try discriminate Hc. injection Hc as ->. done.
  - intros (k & Hm & Hp). by exists k, (VApiKey a).
Qed.

Lemma apikey_getByKey_run (key : string) (w : World) :
  ApiKeyDB.getByKey key w
  = (List.find (λ k, String.eqb (ApiKey.key k) key)
       (result ApiKeyDB.getAll w), w).
Proof. reflexivity. Qed.

Lemma apikey_getByKey_none (key : string) (w : World) :
  result (ApiKeyDB.getByKey key) w = None
  ↔ ∀ a, stored_apikey w a → ApiKey.key a ≠ key.
Proof.
  unfold result at 1. rewrite apikey_getByKey_run. simpl.
  rewrite find_none. setoid_rewrite elem_of_apikey_getAll.
  split; intros H a Ha; specialize (H a Ha).
  - by apply String.eqb_neq.
  - by apply String.eqb_neq.
Qed.

(** C10.  [incrementFailCount(id)] when no cookie is stored under [id], and
    [incrementRequestCount(key)] when no stored API key has that [key]
    field, return normally and leave the world as it was: no row is written
    or changed and the clock is not even read. *)
Theorem C10_silent_noops (cfg : Config) (w : World) (id key : string) :
  (result (CookieDB.get id) w = None →
   CookieDB.incrementFailCount cfg id w = ((), w))
  ∧ ((∀ a, stored_apikey w a → ApiKey.key a ≠ key) →
     ApiKeyDB.incrementRequestCount key w = ((), w)).
Proof.
  split; [apply cookie_increment_absent|].
  intros H%apikey_getByKey_none.
  unfold ApiKeyDB.incrementRequestCount, bind.
  pose proof (apikey_getByKey_run key w) as E. unfold result in H.
  destruct (ApiKeyDB.getByKey key w) as [o w']. simpl in H. subst o.
  by injection E as _ ->.
Qed.

Lemma C10_silent_noops_witness :
  CookieDB.incrementFailCount demo_config "id-9" busy_world = ((), busy_world)
  ∧ ApiKeyDB.incrementRequestCount "sk-nobody" busy_world = ((), busy_world).
Proof.
  destruct (C10_silent_noops demo_config busy_world "id-9" "sk-nobody")
    as [H1 H2].
  split.
  - apply H1. vm_compute. reflexivity.
  - apply H2. apply apikey_getByKey_none. vm_compute. reflexivity.
Defined.

(** ** Lookup by key value *)

(** C9.  [getByKey(key)] returns a stored API key whose [key] field is
    [key] and whose [createdAt] is least among the stored keys with that
    field; when no stored key has it, the result is [null]. *)
Theorem C9_getByKey_oldest_match (w : World) (key : string) :
  match result (ApiKeyDB.getByKey key) w with
  | Some a =>
      stored_apikey w a
      ∧ ApiKey.key a = key
      ∧ ∀ b, stored_apikey w b → ApiKey.key b = key →
             ApiKey.createdAt a ≤ ApiKey.createdAt b
  | None => ∀ b, stored_apikey w b → ApiKey.key b ≠ key
  end.
Proof.
  destruct (result (ApiKeyDB.getByKey key) w) as [a|] eqn:E;
    [|by apply apikey_getByKey_none].
  unfold result in E. rewrite apikey_getByKey_run in E. simpl in E.
  unfold result in E. rewrite apikey_getAll_run in E. simpl in E.
  apply (find_sorted_least ApiKey.createdAt) in E as (Hin & Hk & Hmin);
    [|apply sort_sorted; intros; lia].
  assert (∀ b, b ∈ sort (λ a b, ApiKey.createdAt a - ApiKey.createdAt b)
                     (values (map_to_list
                        (scan (makeKey ApiKeyDB.PREFIX) (kv_data w))))
               ↔ stored_apikey w b) as Hst.
  { intros b. rewrite <-elem_of_apikey_getAll. unfold result.
    by rewrite apikey_getAll_run. }
  split; [by apply Hst|]. split; [by apply String.eqb_eq|].
  intros b Hb Hkb. apply Hmin; [by apply Hst|]. by apply String.eqb_eq.
Qed.

(** Two API keys with the same [key] field: the older one is found. *)
Example getByKey_duplicates :
  let w := after (ApiKeyDB.add
                    {| ApiKey.f_key := "sk-user"; ApiKey.f_isEnabled := false;
                       ApiKey.f_isDefault := false |}) busy_world in
  ApiKey.key <$> result ApiKeyDB.getAll w = ["sk-default"; "sk-user"; "sk-user"]
  ∧ ApiKey.id <$> result (ApiKeyDB.getByKey "sk-user") w = Some "id-4"
  ∧ result (ApiKeyDB.getByKey "sk-other") w = None.
Proof. vm_compute. done. Qed.

(** ** Settings and model mappings *)

(** C6.  When no row is stored at the settings key, [SystemSettingsDB.get]
    returns the configured default record and leaves the world as it was:
    a raw read of the settings key afterwards still finds nothing. *)
Theorem C6_settings_fallback (cfg : Config) (w : World) :
  kv_data w !! makeKey SystemSettingsDB.KEY = None →
  SystemSettingsDB.get cfg w = (getDefaultSystemSettings cfg, w)
  ∧ kv_data (after (SystemSettingsDB.get cfg) w)
      !! makeKey SystemSettingsDB.KEY = None.
Proof. intros H. run. by rewrite H. Qed.

Lemma C6_settings_fallback_witness :
  SystemSettingsDB.get demo_config busy_world = (demo_settings, busy_world)
  ∧ kv_data (after (SystemSettingsDB.get demo_config) busy_world)
      !! makeKey SystemSettingsDB.KEY = None.
Proof.
  apply (C6_settings_fallback demo_config busy_world).
  vm_compute. reflexivity.
Defined.

(** C8, refuted as stated: with one mapping stored, updating with the empty
    list stores the empty list, where a merge over the current value keeps
    the stored mapping. *)
Lemma C8_model_update_overwrites : ¬ model_update_follows_pattern.
Proof.
  intros H.
  specialize (H demo_config []
    (after (ModelMappingDB.update [demo_mapping "a" "b"]) empty_world)).
  apply (f_equal (λ m, m !! makeKey ModelMappingDB.KEY)) in H.
  vm_compute in H. discriminate H.
Qed.

(** C8, amended.  [ModelMappingDB.update(mappings)] does not read the
    stored list: it writes [mappings] at the fixed key, replacing whatever
    was there, returns nothing, and a following [get] returns [mappings].
    [ModelMappingDB.get] returns the stored list, or the configured default
    when none is stored.  [SystemSettingsDB.update(partial)] is the one that
    reads the current record or the default, spreads [partial] over it,
    writes the result and returns it. *)
Theorem C8_model_update_replaces (cfg : Config)
    (mappings : list ModelMapping) (settings : jsobject) (w : World) :
  ModelMappingDB.update mappings w
  = ((), with_kv w (<[makeKey ModelMappingDB.KEY := VModels mappings]>
                      (kv_data w)))
  ∧ result (ModelMappingDB.get cfg) (after (ModelMappingDB.update mappings) w)
    = mappings
  ∧ ModelMappingDB.get cfg w
    = (default (DEFAULT_MODELS_MAPS cfg)
         (kv_data w !! makeKey ModelMappingDB.KEY ≫= cast), w)
  ∧ SystemSettingsDB.update cfg settings w
    = (spread (result (SystemSettingsDB.get cfg) w) settings,
       with_kv w
         (<[makeKey SystemSettingsDB.KEY :=
              VSettings (spread (result (SystemSettingsDB.get cfg) w)
                           settings)]> (kv_data w)))
  ∧ result (SystemSettingsDB.get cfg) w
    = default (getDefaultSystemSettings cfg)
        (kv_data w !! makeKey SystemSettingsDB.KEY ≫= cast).
Proof.
  repeat split; run; fields; try done.
  by rewrite lookup_insert_eq.
Qed.

Example settings_update_merges :
  let w := after (SystemSettingsDB.update demo_config
                    {[ "maxTokens" := JNum 1 ]}) empty_world in
  result (SystemSettingsDB.get demo_config) w
  = {[ "theme" := JStr "dark"; "maxTokens" := JNum 1 ]}.
Proof. vm_compute. reflexivity. Qed.

(** ** Prefix isolation *)

(** In a table that keeps the key discipline, a scan of a collection prefix
    returns cells of that collection only. *)
Lemma scan_cookies_typed (m : gmap string value) (k : string) (v : value) :
  well_typed m → scan (makeKey CookieDB.PREFIX) m !! k = Some v →
  ∃ c, v = VCookie c.
Proof.
  intros Hwt [Hm Hp]%scan_lookup. specialize (Hwt _ _ Hm).
  destruct v as [c|a|l|s|ms]; simpl in Hwt; [by eexists|..];
    [destruct Hwt as [i ->]|subst k..]; vm_compute in Hp; discriminate Hp.
Qed.

Lemma scan_apikeys_typed (m : gmap string value) (k : string) (v : value) :
  well_typed m → scan (makeKey ApiKeyDB.PREFIX) m !! k = Some v →
  ∃ a, v = VApiKey a.
Proof.
  intros Hwt [Hm Hp]%scan_lookup. specialize (Hwt _ _ Hm).
  destruct v as [c|a|l|s|ms]; simpl in Hwt; [|by eexists|..];
    [destruct Hwt as [i ->]|subst k..]; vm_compute in Hp; discriminate Hp.
Qed.

Lemma scan_logs_typed (m : gmap string value) (k : string) (v : value) :
  well_typed m → scan (makeKey RequestLogDB.PREFIX) m !! k = Some v →
  ∃ l, v = VLog l ∧ k = makeKey (RequestLogDB.key_of l).
Proof.
  intros Hwt [Hm Hp]%scan_lookup. specialize (Hwt _ _ Hm).
  destruct v as [c|a|l|s|ms]; simpl in Hwt; [| |by eexists|..];
    [destruct Hwt as [i ->]..|subst k|subst k];
    vm_compute in Hp; discriminate Hp.
Qed.


Example scan_matches_sibling :
  let w := after (kvSet [SStr "cookies"; SStr "10"; SStr "x"]
                    (VSettings demo_settings)) empty_world in
  (result (kvList [SStr "cookies"; SStr "1"]) w).*1 = ["cookies:10:x"].
Proof. vm_compute. reflexivity. Qed.

(** A segment that holds the one-character wildcard selects the siblings
    that put any character in its place. *)
Example scan_matches_wildcard :
  let w := after (kvSet [SStr "cookies"; SStr "abc"]
                    (VSettings demo_settings)) empty_world in
  (result (kvList [SStr "cookies"; SStr "a_c"]) w).*1 = ["cookies:abc"].
Proof. vm_compute. reflexivity. Qed.


(** ** Retention *)

Lemma with_kv_id (w : World) : with_kv w (kv_data w) = w.
Proof. by destruct w. Qed.

Lemma evict_run (logs : list RequestLog.t) (w : World) :
  for_of logs (λ log, kvDelete (RequestLogDB.key_of log)) w
  = ((), with_kv w (evict logs (kv_data w))).
Proof.
  revert w. induction logs as [|l logs IH]; intros w.
  - simpl. by rewrite with_kv_id.
  - change (for_of (l :: logs) ?f w)
      with (for_of logs f (kvDelete (RequestLogDB.key_of l) w).2).
    rewrite IH. reflexivity.
Qed.

Lemma evict_lookup (logs : list RequestLog.t) (m : gmap string value)
    (k : string) :
  evict logs m !! k
  = if decide (k ∈ (λ l, makeKey (RequestLogDB.key_of l)) <$> logs)
    then None else m !! k.
Proof.
  revert m. induction logs as [|l logs IH]; intros m; [done|].
  change (evict (l :: logs) m)
    with (evict logs (delete (makeKey (RequestLogDB.key_of l)) m)).
  rewrite IH, fmap_cons.
  destruct (decide (k = makeKey (RequestLogDB.key_of l))) as [->|Hne].
  - rewrite lookup_delete_eq.
    destruct (decide (_ ∈ _ :: _)) as [_|Hn]; [by case_decide|].
    exfalso. apply Hn. left.
  - rewrite lookup_delete_ne by done.
    destruct (decide (k ∈ _ <$> logs)) as [Hin|Hnin],
      (decide (k ∈ _ :: _)) as [Hin'|Hnin']; try done.
    + exfalso. apply Hnin'. by right.
    + exfalso. by apply elem_of_cons in Hin' as [?|?].
Qed.

Lemma scan_evict (p : string) (logs : list RequestLog.t)
    (m : gmap string value) :
  scan p (evict logs m) = evict logs (scan p m).
Proof.
  revert m. induction logs as [|l logs IH]; intros m; [done|].
  unfold evict in *. simpl. by rewrite IH, scan_delete.
Qed.

Lemma values_scan_insert {T} `{Cast T} (p k : string) (v : value) (x : T)
    (m : gmap string value) :
  m !! k = None → selects p k = true → cast v = Some x →
  values (T:=T) (map_to_list (scan p (<[k:=v]> m)))
  ≡ₚ x :: values (map_to_list (scan p m)).
Proof.
  intros Hm Hp Hc. rewrite scan_insert_in by done. unfold values.
  rewrite map_to_list_insert.
  - simpl. by rewrite Hc.
  - destruct (scan p m !! k) eqn:E; [|done].
    apply scan_lookup in E as [? _]. congruence.
Qed.

Lemma values_scan_empty {T} `{Cast T} (p : string) (m : gmap string value) :
  scan p m = ∅ → values (T:=T) (map_to_list (scan p m)) = [].
Proof. intros ->. by rewrite map_to_list_empty. Qed.

(** Under the key discipline every log row casts, and the logs read from a
    scan are as many as its rows. *)
Lemma log_rows_typed (m : gmap string value) :
  well_typed m →
  map_to_list (scan (makeKey RequestLogDB.PREFIX) m)
  = (λ l, (makeKey (RequestLogDB.key_of l), VLog l))
      <$> values (map_to_list (scan (makeKey RequestLogDB.PREFIX) m)).
Proof.
  intros Hwt.
  assert (Forall (λ row, ∃ l, row = (makeKey (RequestLogDB.key_of l), VLog l))
            (map_to_list (scan (makeKey RequestLogDB.PREFIX) m))) as Hrows.
  { apply Forall_forall. intros [k v] Hin%elem_of_map_to_list.
    destruct (scan_logs_typed _ _ _ Hwt Hin) as (l & -> & ->). by exists l. }
  induction Hrows as [|row rows [l ->] _ IH]; [done|].
  unfold values in *. cbn. f_equal. exact IH.
Qed.

Lemma newest_first_key (a b : RequestLog.t) :
  RequestLogDB.newest_first a b ≤ 0
  ↔ - RequestLog.timestamp a ≤ - RequestLog.timestamp b.
Proof. unfold RequestLogDB.newest_first. lia. Qed.

(** What [cleanup] does to the world, in terms of the logs it reads. *)
Lemma cleanup_run (cfg : Config) (w : World) :
  let logs : list RequestLog.t :=
    values (map_to_list (scan (makeKey RequestLogDB.PREFIX) (kv_data w))) in
  RequestLogDB.cleanup cfg w
  = if Z.of_nat (length logs) <=? MAX_REQUEST_RECORD_NUM cfg then ((), w)
    else ((), with_kv w
                (evict (slice (MAX_REQUEST_RECORD_NUM cfg) None
                          (sort RequestLogDB.newest_first logs))
                   (kv_data w))).
Proof.
  intros logs. unfold RequestLogDB.cleanup, bind, kvList. fold logs.
  destruct (Z.of_nat (length logs) <=? MAX_REQUEST_RECORD_NUM cfg);
    [done|apply evict_run].
Qed.

Lemma log_add_run (cfg : Config) (log : RequestLog.fields) (w : World) :
  RequestLogDB.add cfg log w
  = RequestLogDB.cleanup cfg
      (with_kv (after randomUUID w)
         (<[makeKey (RequestLogDB.key_of (appended w log)) :=
              VLog (appended w log)]> (kv_data w))).
Proof. reflexivity. Qed.

Lemma count_run (w : World) :
  result RequestLogDB.count w = stored_logs w.
Proof.
  unfold result, RequestLogDB.count, bind, kvList, ret, stored_logs. simpl.
  apply length_map_to_list.
Qed.

(** *** The key discipline is kept *)

Lemma well_typed_empty : well_typed ∅.
Proof. intros k v H. by rewrite lookup_empty in H. Qed.

Lemma well_typed_insert (m : gmap string value) (k : string) (v : value) :
  well_typed m → key_fits k v → well_typed (<[k:=v]> m).
Proof.
  intros Hwt Hk j x. destruct (decide (k = j)) as [<-|Hne].
  - rewrite lookup_insert_eq. by intros [= <-].
  - rewrite lookup_insert_ne by done. apply Hwt.
Qed.

Lemma well_typed_delete (m : gmap string value) (k : string) :
  well_typed m → well_typed (delete k m).
Proof.
  intros Hwt j x. destruct (decide (k = j)) as [<-|Hne].
  - by rewrite lookup_delete_eq.
  - rewrite lookup_delete_ne by done. apply Hwt.
Qed.

Lemma well_typed_evict (logs : list RequestLog.t) (m : gmap string value) :
  well_typed m → well_typed (evict logs m).
Proof.
  intros Hwt j x. rewrite evict_lookup. case_decide; [done|apply Hwt].
Qed.

(** *** The cap *)

Lemma stored_logs_typed (w : World) :
  well_typed (kv_data w) →
  stored_logs w
  = length (values (T:=RequestLog.t)
              (map_to_list (scan (makeKey RequestLogDB.PREFIX) (kv_data w)))).
Proof.
  intros Hwt. unfold stored_logs.
  by rewrite <-length_map_to_list, (log_rows_typed _ Hwt) at 1;
    rewrite length_fmap.
Qed.

Lemma cleanup_bound (cfg : Config) (w : World) :
  well_typed (kv_data w) → 0 ≤ MAX_REQUEST_RECORD_NUM cfg →
  Z.of_nat (stored_logs (after (RequestLogDB.cleanup cfg) w))
  ≤ MAX_REQUEST_RECORD_NUM cfg.
Proof.
  intros Hwt Hn. unfold after. rewrite cleanup_run.
  set (logs := values _).
  destruct (Z.leb_spec (Z.of_nat (length logs)) (MAX_REQUEST_RECORD_NUM cfg))
    as [Hle|Hgt]; simpl.
  { by rewrite stored_logs_typed. }
  rewrite slice_from by done.
  set (sorted := sort RequestLogDB.newest_first logs).
  set (n := Z.to_nat (MAX_REQUEST_RECORD_NUM cfg)).
  unfold stored_logs. simpl. rewrite scan_evict, <-length_map_to_list.
  assert ((map_to_list
             (evict (drop n sorted)
                (scan (makeKey RequestLogDB.PREFIX) (kv_data w)))).*1
          ⊆+ (λ l, makeKey (RequestLogDB.key_of l)) <$> take n sorted) as Hsub.
  { apply NoDup_submseteq; [apply NoDup_fst_map_to_list|].
    intros k [[k' v] [-> Hin]]%list_elem_of_fmap. simpl.
    apply elem_of_map_to_list in Hin. rewrite evict_lookup in Hin.
    case_decide as Hk; [done|].
    destruct (scan_logs_typed _ _ _ Hwt Hin) as (l & -> & ->).
    assert (l ∈ sorted) as Hl.
    { unfold sorted. rewrite sort_perm. unfold logs.
      apply elem_of_values_scan. apply scan_lookup in Hin as [Hm Hp].
      by exists (makeKey (RequestLogDB.key_of l)), (VLog l). }
    rewrite <-(take_drop n sorted) in Hl.
    apply elem_of_app in Hl as [Hl|Hl].
    - apply list_elem_of_fmap. by exists l.
    - exfalso. apply Hk. apply list_elem_of_fmap. by exists l. }
  apply submseteq_length in Hsub.
  rewrite !length_fmap, length_take in Hsub. lia.
Qed.

Lemma log_add_bound (cfg : Config) (log : RequestLog.fields) (w : World) :
  well_typed (kv_data w) → 0 ≤ MAX_REQUEST_RECORD_NUM cfg →
  Z.of_nat (result RequestLogDB.count (after (RequestLogDB.add cfg log) w))
  ≤ MAX_REQUEST_RECORD_NUM cfg.
Proof.
  intros Hwt Hn. rewrite count_run. unfold after at 1.
  rewrite log_add_run. apply cleanup_bound; [|done].
  simpl. by apply well_typed_insert.
Qed.

(** *** Appending in time order *)

Lemma log_key_prefix (l : RequestLog.t) :
  selects (makeKey RequestLogDB.PREFIX) (makeKey (RequestLogDB.key_of l))
  = true.
Proof. reflexivity. Qed.

Lemma newest_first_nodup (ls : list RequestLog.t) :
  NoDup (RequestLog.timestamp <$> ls) →
  NoDup ((λ l, - RequestLog.timestamp l) <$> ls).
Proof.
  intros H. rewrite (list_fmap_compose RequestLog.timestamp Z.opp).
  apply NoDup_fmap_2_strong; [|done]. intros x y _ _ ?. lia.
Qed.

(** The world after [add], in terms of the logs that were stored before
    it. *)
Lemma log_add_run_perm (cfg : Config) (log : RequestLog.fields) (w : World)
    (ls : list RequestLog.t) :
  let l := appended w log in
  let w' := with_kv (after randomUUID w)
              (<[makeKey (RequestLogDB.key_of l) := VLog l]> (kv_data w)) in
  values (map_to_list (scan (makeKey RequestLogDB.PREFIX) (kv_data w))) ≡ₚ ls →
  kv_data w !! makeKey (RequestLogDB.key_of l) = None →
  NoDup (RequestLog.timestamp <$> l :: ls) →
  after (RequestLogDB.add cfg log) w
  = if Z.of_nat (length (l :: ls)) <=? MAX_REQUEST_RECORD_NUM cfg then w'
    else with_kv w'
           (evict (slice (MAX_REQUEST_RECORD_NUM cfg) None
                     (sort RequestLogDB.newest_first (l :: ls)))
              (kv_data w')).
Proof.
  intros l w' Hls Hfresh Hnd. unfold after.
  rewrite log_add_run. fold l. fold w'. rewrite cleanup_run.
  assert (values (map_to_list (scan (makeKey RequestLogDB.PREFIX)
                                 (kv_data w'))) ≡ₚ l :: ls) as Hp.
  { unfold w'. simpl. rewrite values_scan_insert; [by rewrite Hls|done..]. }
  rewrite (sort_perm_invariant _ _ newest_first_key _ _ Hp).
  - rewrite Hp. by destruct (_ <=? _).
  - rewrite Hp. by apply newest_first_nodup.
Qed.

Lemma getRecent_run_perm (cfg : Config) (limit : option Z) (w : World)
    (ls : list RequestLog.t) :
  values (map_to_list (scan (makeKey RequestLogDB.PREFIX) (kv_data w))) ≡ₚ ls →
  NoDup (RequestLog.timestamp <$> ls) →
  result (RequestLogDB.getRecent cfg limit) w
  = slice 0 (Some (default (MAX_REQUEST_RECORD_NUM cfg) limit))
      (sort RequestLogDB.newest_first ls).
Proof.
  intros Hp Hnd. unfold result, RequestLogDB.getRecent, bind, kvList, ret.
  simpl. f_equal. apply (sort_perm_invariant _ _ newest_first_key _ _ Hp).
  rewrite Hp. by apply newest_first_nodup.
Qed.

Lemma log_key_ne (l1 l2 : RequestLog.t) :
  RequestLog.timestamp l1 ≠ RequestLog.timestamp l2 →
  makeKey (RequestLogDB.key_of l1) ≠ makeKey (RequestLogDB.key_of l2).
Proof. intros Hne [? _]%log_key_inj. done. Qed.

(** *** What is kept *)

(** Sorting a list that is already in order changes nothing. *)
Lemma sort_sorted_id {A} (cmp : A → A → Z) (key : A → Z) (l : list A) :
  (∀ a b, cmp a b ≤ 0 ↔ key a ≤ key b) →
  StronglySorted (by_key key) l → sort cmp l = l.
Proof.
  intros Hcmp. induction 1 as [|x l Hl IH Hx]; [done|].
  cbn [sort foldr]. fold (sort cmp l). rewrite IH.
  destruct l as [|y l']; [done|]. cbn [sort_insert].
  rewrite (cmp_leb _ _ Hcmp).
  apply Forall_cons in Hx as [Hxy _]. unfold by_key in Hxy.
  by destruct (Z.leb_spec (key x) (key y)); [|lia].
Qed.

(** A log whose timestamp no stored log has is stored under a key that is
    free. *)
Lemma log_key_free (m : gmap string value) (l : RequestLog.t) :
  well_typed m →
  (∀ l', l' ∈ values (T:=RequestLog.t)
                (map_to_list (scan (makeKey RequestLogDB.PREFIX) m)) →
         RequestLog.timestamp l' ≠ RequestLog.timestamp l) →
  m !! makeKey (RequestLogDB.key_of l) = None.
Proof.
  intros Hwt Hts. destruct (m !! _) as [v|] eqn:E; [exfalso|done].
  assert (scan (makeKey RequestLogDB.PREFIX) m
            !! makeKey (RequestLogDB.key_of l) = Some v) as Hs.
  { apply scan_lookup. split; [done|apply log_key_prefix]. }
  destruct (scan_logs_typed _ _ _ Hwt Hs) as (l' & -> & Hk).
  apply log_key_inj in Hk as [Ht _]. apply (Hts l'); [|done].
  apply elem_of_values_scan.
  exists (makeKey (RequestLogDB.key_of l)), (VLog l').
  split; [done|]. split; [apply log_key_prefix|done].
Qed.

(** Deleting one stored log takes exactly that log out of the scan. *)
Lemma values_scan_delete (m : gmap string value) (l : RequestLog.t) :
  m !! makeKey (RequestLogDB.key_of l) = Some (VLog l) →
  l :: values (map_to_list
                 (scan (makeKey RequestLogDB.PREFIX)
                    (delete (makeKey (RequestLogDB.key_of l)) m)))
  ≡ₚ values (map_to_list (scan (makeKey RequestLogDB.PREFIX) m)).
Proof.
  intros Hm. rewrite scan_delete. unfold values.
  rewrite <-(map_to_list_delete (scan (makeKey RequestLogDB.PREFIX) m)
               (makeKey (RequestLogDB.key_of l)) (VLog l)); [done|].
  apply scan_lookup. split; [done|apply log_key_prefix].
Qed.

(** The eviction loop takes exactly the logs it is given out of the scan. *)
Lemma values_scan_evict (gone kept : list RequestLog.t)
    (m : gmap string value) :
  well_typed m →
  values (map_to_list (scan (makeKey RequestLogDB.PREFIX) m)) ≡ₚ kept ++ gone →
  values (map_to_list (scan (makeKey RequestLogDB.PREFIX) (evict gone m)))
  ≡ₚ kept.
Proof.
  revert m. induction gone as [|d gone IH]; intros m Hwt Hp.
  - by rewrite app_nil_r in Hp.
  - change (evict (d :: gone) m)
      with (evict gone (delete (makeKey (RequestLogDB.key_of d)) m)).
    assert (m !! makeKey (RequestLogDB.key_of d) = Some (VLog d)) as Hd.
    { assert (d ∈ values (T:=RequestLog.t)
                (map_to_list (scan (makeKey RequestLogDB.PREFIX) m))) as Hin.
      { rewrite Hp. apply elem_of_app. right. left. }
      apply elem_of_values_scan in Hin as (k & v & Hm & Hk & Hc).
      destruct v; try discriminate Hc. injection Hc as ->.
      by rewrite <-(Hwt _ _ Hm). }
    apply IH; [by apply well_typed_delete|].
    apply (Permutation.Permutation_cons_inv (a:=d)).
    by rewrite values_scan_delete, Hp, Permutation_middle.
Qed.

(** After [add], the stored logs are the newest of the logs stored before
    and the new one, as many as the cap allows. *)
Lemma log_add_keeps_newest (cfg : Config) (log : RequestLog.fields)
    (w : World) (ls : list RequestLog.t) :
  let l := appended w log in
  let newest := take (Z.to_nat (MAX_REQUEST_RECORD_NUM cfg))
                  (sort RequestLogDB.newest_first (l :: ls)) in
  well_typed (kv_data w) → 0 ≤ MAX_REQUEST_RECORD_NUM cfg →
  values (map_to_list (scan (makeKey RequestLogDB.PREFIX) (kv_data w))) ≡ₚ ls →
  NoDup (RequestLog.timestamp <$> l :: ls) →
  values (map_to_list
            (scan (makeKey RequestLogDB.PREFIX)
               (kv_data (after (RequestLogDB.add cfg log) w))))
  ≡ₚ newest
  ∧ result (RequestLogDB.getRecent cfg None)
      (after (RequestLogDB.add cfg log) w)
    = newest.
Proof.
  intros l newest Hwt Hn Hls Hnd.
  assert (kv_data w !! makeKey (RequestLogDB.key_of l) = None) as Hfree.
  { apply log_key_free; [done|]. intros l' Hl' E.
    rewrite fmap_cons in Hnd. apply NoDup_cons in Hnd as [Hnd _].
    apply Hnd. rewrite <-E. apply list_elem_of_fmap.
    exists l'. by rewrite <-Hls. }
  assert (values (map_to_list
            (scan (makeKey RequestLogDB.PREFIX)
               (kv_data (after (RequestLogDB.add cfg log) w)))) ≡ₚ newest)
    as Hkept.
  { rewrite (log_add_run_perm cfg log w ls Hls Hfree Hnd). fold l.
    set (sorted := sort RequestLogDB.newest_first (l :: ls)).
    set (w' := with_kv _ _).
    assert (values (map_to_list (scan (makeKey RequestLogDB.PREFIX)
                                   (kv_data w'))) ≡ₚ l :: ls) as Hp.
    { unfold w'. cbn [kv_data with_kv].
      rewrite values_scan_insert; [by rewrite Hls|done|apply log_key_prefix
                                  |done]. }
    destruct (Z.leb_spec (Z.of_nat (length (l :: ls)))
                (MAX_REQUEST_RECORD_NUM cfg)) as [Hle|Hgt].
    - rewrite Hp. unfold newest. fold sorted. rewrite take_ge.
      + unfold sorted. by rewrite sort_perm.
      + unfold sorted. rewrite sort_length. lia.
    - cbn [kv_data with_kv]. rewrite slice_from by done.
      apply values_scan_evict.
      + unfold w'. cbn [kv_data with_kv]. by apply well_typed_insert.
      + fold (kv_data w'). rewrite Hp. unfold newest. fold sorted.
        rewrite take_drop. unfold sorted. by rewrite sort_perm. }
  split; [done|].
  rewrite (getRecent_run_perm cfg None _ newest Hkept).
  - cbn [default from_option id]. rewrite slice_upto by done.
    rewrite (sort_sorted_id _ _ _ newest_first_key).
    + unfold newest. rewrite take_take. f_equal. lia.
    + unfold newest.
      eapply StronglySorted_app_1_l. rewrite take_drop.
      apply sort_sorted, newest_first_key.
  - unfold newest. rewrite fmap_take.
    eapply sublist_NoDup; [|apply sublist_take].
    by rewrite sort_perm.
Qed.

(** One append that stays under the cap writes one row and evicts none. *)
Lemma log_add_under_cap (cfg : Config) (log : RequestLog.fields) (w : World)
    (ls : list RequestLog.t) :
  let l := appended w log in
  values (map_to_list (scan (makeKey RequestLogDB.PREFIX) (kv_data w))) ≡ₚ ls →
  kv_data w !! makeKey (RequestLogDB.key_of l) = None →
  NoDup (RequestLog.timestamp <$> l :: ls) →
  Z.of_nat (length (l :: ls)) ≤ MAX_REQUEST_RECORD_NUM cfg →
  kv_data (after (RequestLogDB.add cfg log) w)
  = <[makeKey (RequestLogDB.key_of l) := VLog l]> (kv_data w)
  ∧ values (map_to_list (scan (makeKey RequestLogDB.PREFIX)
                           (kv_data (after (RequestLogDB.add cfg log) w))))
    ≡ₚ l :: ls.
Proof.
  intros l Hls Hfresh Hnd Hlen.
  rewrite (log_add_run_perm cfg log w ls Hls Hfresh Hnd). fold l.
  destruct (Z.leb_spec (Z.of_nat (length (l :: ls)))
              (MAX_REQUEST_RECORD_NUM cfg)); [|lia].
  split; [done|]. cbn [kv_data with_kv].
  rewrite values_scan_insert; [by rewrite Hls|done|apply log_key_prefix|done].
Qed.

(** One append that takes a full store of two over the cap evicts the
    oldest log. *)
Lemma log_add_over_cap (cfg : Config) (log : RequestLog.fields) (w : World)
    (a b : RequestLog.t) :
  let l := appended w log in
  MAX_REQUEST_RECORD_NUM cfg = 2 →
  values (map_to_list (scan (makeKey RequestLogDB.PREFIX) (kv_data w)))
    ≡ₚ [b; a] →
  kv_data w !! makeKey (RequestLogDB.key_of l) = None →
  RequestLog.timestamp a < RequestLog.timestamp b →
  RequestLog.timestamp b < RequestLog.timestamp l →
  kv_data (after (RequestLogDB.add cfg log) w)
  = delete (makeKey (RequestLogDB.key_of a))
      (<[makeKey (RequestLogDB.key_of l) := VLog l]> (kv_data w)).
Proof.
  intros l Hcap Hls Hfresh Hab Hbl.
  rewrite (log_add_run_perm cfg log w [b; a] Hls Hfresh); fold l.
  2:{ rewrite !fmap_cons, fmap_nil. nodup_lia. }
  rewrite Hcap.
  assert (sort RequestLogDB.newest_first [l; b; a] = [l; b; a]) as ->.
  { unfold sort, RequestLogDB.newest_first. cbn [foldr sort_insert].
    repeat (match goal with
            | |- context [Z.leb ?x ?y] => destruct (Z.leb_spec x y)
            end; try lia; cbn [sort_insert]).
    done. }
  reflexivity.
Qed.

(** Three appends in time order under a cap of two: the table ends as the
    initial one plus the second and the third log. *)
Lemma three_appends (cfg : Config) (w : World) (f1 f2 f3 : RequestLog.fields) :
  MAX_REQUEST_RECORD_NUM cfg = 2 →
  scan (makeKey RequestLogDB.PREFIX) (kv_data w) = ∅ →
  RequestLog.f_timestamp f1 < RequestLog.f_timestamp f2 →
  RequestLog.f_timestamp f2 < RequestLog.f_timestamp f3 →
  let w1 := after (RequestLogDB.add cfg f1) w in
  let w2 := after (RequestLogDB.add cfg f2) w1 in
  let w3 := after (RequestLogDB.add cfg f3) w2 in
  let l1 := appended w f1 in
  let l2 := appended w1 f2 in
  let l3 := appended w2 f3 in
  kv_data w3
  = <[makeKey (RequestLogDB.key_of l3) := VLog l3]>
      (<[makeKey (RequestLogDB.key_of l2) := VLog l2]> (kv_data w))
  ∧ kv_data w !! makeKey (RequestLogDB.key_of l1) = None
  ∧ kv_data w !! makeKey (RequestLogDB.key_of l2) = None
  ∧ kv_data w !! makeKey (RequestLogDB.key_of l3) = None.
Proof.
  intros Hcap Hempty H12 H23 w1 w2 w3 l1 l2 l3.
  assert (∀ l, kv_data w !! makeKey (RequestLogDB.key_of l) = None) as Hfresh.
  { intros l. eapply scan_empty_lookup; [done|apply log_key_prefix]. }
  assert (RequestLog.timestamp l1 = RequestLog.f_timestamp f1) as Ht1
    by reflexivity.
  assert (RequestLog.timestamp l2 = RequestLog.f_timestamp f2) as Ht2
    by reflexivity.
  assert (RequestLog.timestamp l3 = RequestLog.f_timestamp f3) as Ht3
    by reflexivity.
  pose proof (values_scan_empty (T:=RequestLog.t) _ _ Hempty) as Hv0.
  (* first append *)
  destruct (log_add_under_cap cfg f1 w []) as [Hw1 Hv1];
    [by rewrite Hv0|apply Hfresh|rewrite fmap_cons, fmap_nil; nodup_lia
    |rewrite Hcap; cbn [length]; lia|].
  fold l1 w1 in Hw1, Hv1. clearbody l1 w1.
  (* second append *)
  assert (kv_data w1 !! makeKey (RequestLogDB.key_of l2) = None) as Hf2.
  { rewrite Hw1, lookup_insert_ne; [apply Hfresh|]. apply log_key_ne. lia. }
  destruct (log_add_under_cap cfg f2 w1 [l1] Hv1 Hf2) as [Hw2 Hv2];
    [fold l2; rewrite !fmap_cons, fmap_nil; nodup_lia
    |rewrite Hcap; cbn [length]; lia|].
  fold l2 w2 in Hw2, Hv2. clearbody l2 w2.
  (* third append: the first log is evicted *)
  assert (kv_data w2 !! makeKey (RequestLogDB.key_of l3) = None) as Hf3.
  { rewrite Hw2, Hw1, !lookup_insert_ne; [apply Hfresh|..];
      apply log_key_ne; lia. }
  pose proof (log_add_over_cap cfg f3 w2 l1 l2 Hcap Hv2 Hf3) as Hw3.
  fold l3 w3 in Hw3. clearbody l3 w3.
  split; [|by auto].
  rewrite Hw3 by lia. rewrite Hw2, Hw1.
  rewrite !delete_insert_ne by (apply not_eq_sym, log_key_ne; lia).
  by rewrite delete_insert_eq, delete_id by apply Hfresh.
Qed.

(** C1.  With a retention cap of two and no log stored, appending three
    logs with timestamps [t1 < t2 < t3] leaves exactly two log rows, those
    of the second and the third log: the table is the initial one plus
    these two rows, [getRecent] returns the third then the second, [count]
    is two, and a read at the key of the first log finds nothing.  More
    generally, in a table that keeps the key discipline and for a cap that
    is not negative, the log rows are at most the cap after every [add];
    and when no two logs share a timestamp, the logs stored after an [add]
    are the newest of the logs stored before it and the new one, as many as
    the cap allows, in whatever order they were appended. *)
Theorem C1_retention_cap (cfg : Config) (w : World) :
  (∀ log,
     well_typed (kv_data w) → 0 ≤ MAX_REQUEST_RECORD_NUM cfg →
     Z.of_nat (result RequestLogDB.count (after (RequestLogDB.add cfg log) w))
     ≤ MAX_REQUEST_RECORD_NUM cfg)
  ∧ (∀ log,
       well_typed (kv_data w) → 0 ≤ MAX_REQUEST_RECORD_NUM cfg →
       NoDup (RequestLog.timestamp <$> appended w log :: logs_of w) →
       let newest := take (Z.to_nat (MAX_REQUEST_RECORD_NUM cfg))
                       (sort RequestLogDB.newest_first
                          (appended w log :: logs_of w)) in
       logs_of (after (RequestLogDB.add cfg log) w) ≡ₚ newest
       ∧ result (RequestLogDB.getRecent cfg None)
           (after (RequestLogDB.add cfg log) w) = newest)
  ∧ (∀ f1 f2 f3,
       MAX_REQUEST_RECORD_NUM cfg = 2 →
       scan (makeKey RequestLogDB.PREFIX) (kv_data w) = ∅ →
       RequestLog.f_timestamp f1 < RequestLog.f_timestamp f2 →
       RequestLog.f_timestamp f2 < RequestLog.f_timestamp f3 →
       let w1 := after (RequestLogDB.add cfg f1) w in
       let w2 := after (RequestLogDB.add cfg f2) w1 in
       let w3 := after (RequestLogDB.add cfg f3) w2 in
       let l1 := appended w f1 in
       let l2 := appended w1 f2 in
       let l3 := appended w2 f3 in
       kv_data w3
       = <[makeKey (RequestLogDB.key_of l3) := VLog l3]>
           (<[makeKey (RequestLogDB.key_of l2) := VLog l2]> (kv_data w))
       ∧ result (RequestLogDB.getRecent cfg None) w3 = [l3; l2]
       ∧ result RequestLogDB.count w3 = 2%nat
       ∧ result (kvGet (T:=RequestLog.t) (RequestLogDB.key_of l1)) w3 = None).
Proof.
  split; [intros log; apply log_add_bound|].
  split.
  { intros log Hwt Hn Hnd newest.
    by apply (log_add_keeps_newest cfg log w (logs_of w)). }
  intros f1 f2 f3 Hcap Hempty H12 H23 w1 w2 w3 l1 l2 l3.
  destruct (three_appends cfg w f1 f2 f3 Hcap Hempty H12 H23)
    as (Hw3 & Hf1 & Hf2 & Hf3).
  fold w1 w2 w3 l1 l2 l3 in Hw3, Hf1, Hf2, Hf3.
  assert (RequestLog.timestamp l1 = RequestLog.f_timestamp f1) as Ht1
    by reflexivity.
  assert (RequestLog.timestamp l2 = RequestLog.f_timestamp f2) as Ht2
    by reflexivity.
  assert (RequestLog.timestamp l3 = RequestLog.f_timestamp f3) as Ht3
    by reflexivity.
  clearbody l1 l2 l3 w3 w2 w1.
  assert (makeKey (RequestLogDB.key_of l2) ≠ makeKey (RequestLogDB.key_of l3))
    as H23' by (apply log_key_ne; lia).
  assert (values (map_to_list (scan (makeKey RequestLogDB.PREFIX)
                                 (kv_data w3))) ≡ₚ [l3; l2]) as Hv3.
  { rewrite Hw3.
    rewrite values_scan_insert;
      [|by rewrite lookup_insert_ne|apply log_key_prefix|done].
    rewrite values_scan_insert; [|done|apply log_key_prefix|done].
    by rewrite values_scan_empty. }
  split; [done|]. split; [|split].
  - rewrite (getRecent_run_perm cfg None w3 [l3; l2] Hv3).
    2:{ rewrite !fmap_cons, fmap_nil. nodup_lia. }
    rewrite Hcap.
    assert (sort RequestLogDB.newest_first [l3; l2] = [l3; l2]) as ->.
    { unfold sort, RequestLogDB.newest_first. cbn [foldr sort_insert].
      destruct (Z.leb_spec (RequestLog.timestamp l2 - RequestLog.timestamp l3)
                  0); [done|lia]. }
    reflexivity.
  - rewrite count_run. unfold stored_logs. rewrite <-length_map_to_list.
    rewrite Hw3, !scan_insert_in, Hempty by apply log_key_prefix.
    rewrite length_map_to_list, !map_size_insert_None, map_size_empty;
      [done|done|by rewrite lookup_insert_ne].
  - unfold result, kvGet. cbn [fst].
    rewrite Hw3, !lookup_insert_ne, Hf1;
      [done|apply log_key_ne; lia..].
Qed.

(** Appended out of order, the oldest log is the one that goes. *)
Example retention_out_of_order :
  let log t := {| RequestLog.f_timestamp := t; RequestLog.f_path := "/v1/chat";
                  RequestLog.f_metadata := ∅ |} in
  let w1 := after (RequestLogDB.add demo_config (log 30)) busy_world in
  let w2 := after (RequestLogDB.add demo_config (log 10)) w1 in
  let w3 := after (RequestLogDB.add demo_config (log 20)) w2 in
  RequestLog.timestamp <$> result (RequestLogDB.getRecent demo_config None) w3
  = [30; 20]
  ∧ result RequestLogDB.count w3 = 2%nat.
Proof. vm_compute. done. Qed.

Lemma C1_retention_cap_witness :
  let log t := {| RequestLog.f_timestamp := t; RequestLog.f_path := "/v1/chat";
                  RequestLog.f_metadata := ∅ |} in
  let w1 := after (RequestLogDB.add demo_config (log 10)) empty_world in
  let w2 := after (RequestLogDB.add demo_config (log 20)) w1 in
  let w3 := after (RequestLogDB.add demo_config (log 30)) w2 in
  (Z.of_nat (result RequestLogDB.count w1) ≤ 2)
  ∧ RequestLog.timestamp <$> result (RequestLogDB.getRecent demo_config None) w1
    = [10]
  ∧ RequestLog.timestamp <$> result (RequestLogDB.getRecent demo_config None) w3
    = [30; 20]
  ∧ result RequestLogDB.count w3 = 2%nat.
Proof.
  intros log w1 w2 w3.
  destruct (C1_retention_cap demo_config empty_world) as (Hcap & Hnew & Hseq).
  split; [|split].
  - apply Hcap; [apply well_typed_empty|vm_compute; discriminate].
  - destruct (Hnew (log 10)) as [_ Hrecent];
      [apply well_typed_empty|vm_compute; discriminate
      |vm_compute; apply NoDup_singleton|].
    unfold w1. rewrite Hrecent. reflexivity.
  - destruct (Hseq (log 10) (log 20) (log 30)) as (_ & Hrecent & Hcount & _);
      [reflexivity|reflexivity|reflexivity|reflexivity|].
    split; [|exact Hcount].
    unfold w3, w2, w1. rewrite Hrecent. reflexivity.
Defined.

(** ** Bootstrap *)

Lemma advance_0 (w : World) : advance w 0 0 (kv_data w) = w.
Proof. destruct w. unfold advance. simpl. f_equal; lia. Qed.

Lemma seeded_cookie_shift (w : World) (m : gmap string value) (i : nat)
    (v : string) :
  seeded_cookie (advance w 1 2 m) i v = seeded_cookie w (S i) v.
Proof. unfold seeded_cookie, advance. simpl. f_equal; f_equal; lia. Qed.

Lemma seeded_apikey_shift (w : World) (m : gmap string value) (i : nat)
    (v : string) :
  seeded_apikey (advance w 1 1 m) i v = seeded_apikey w (S i) v.
Proof. unfold seeded_apikey, advance. simpl. f_equal; f_equal; lia. Qed.

Lemma seeded_cookie_0 (w : World) (v : string) :
  seeded_cookie w 0 v
  = {| Cookie.id := uuid_source w (uuids_drawn w);
       Cookie.value := v;
       Cookie.isValid := true;
       Cookie.failCount := 0;
       Cookie.isDefault := true;
       Cookie.createdAt := clock_source w (clock_reads w);
       Cookie.updatedAt := clock_source w (S (clock_reads w)) |}.
Proof. unfold seeded_cookie. f_equal; f_equal; lia. Qed.

Lemma seeded_apikey_0 (w : World) (v : string) :
  seeded_apikey w 0 v
  = {| ApiKey.id := uuid_source w (uuids_drawn w);
       ApiKey.key := v;
       ApiKey.isEnabled := true;
       ApiKey.isDefault := true;
       ApiKey.createdAt := clock_source w (clock_reads w);
       ApiKey.requestCount := 0 |}.
Proof. unfold seeded_apikey. f_equal; f_equal; lia. Qed.

Lemma cookie_add_run (f : Cookie.fields) (w : World) :
  CookieDB.add f w
  = (let c := {| Cookie.id := uuid_source w (uuids_drawn w);
                 Cookie.value := Cookie.f_value f;
                 Cookie.isValid := Cookie.f_isValid f;
                 Cookie.failCount := Cookie.f_failCount f;
                 Cookie.isDefault := Cookie.f_isDefault f;
                 Cookie.createdAt := clock_source w (clock_reads w);
                 Cookie.updatedAt := clock_source w (S (clock_reads w)) |} in
     (c, advance w 1 2
           (<[makeKey (CookieDB.PREFIX ++ [SStr (Cookie.id c)]) := VCookie c]>
              (kv_data w)))).
Proof.
  run. fields. unfold advance. do 2 f_equal; fields; lia.
Qed.

Lemma apikey_add_run (f : ApiKey.fields) (w : World) :
  ApiKeyDB.add f w
  = (let a := {| ApiKey.id := uuid_source w (uuids_drawn w);
                 ApiKey.key := ApiKey.f_key f;
                 ApiKey.isEnabled := ApiKey.f_isEnabled f;
                 ApiKey.isDefault := ApiKey.f_isDefault f;
                 ApiKey.createdAt := clock_source w (clock_reads w);
                 ApiKey.requestCount := 0 |} in
     (a, advance w 1 1
           (<[makeKey (ApiKeyDB.PREFIX ++ [SStr (ApiKey.id a)]) := VApiKey a]>
              (kv_data w)))).
Proof.
  run. fields. unfold advance. do 2 f_equal; fields; lia.
Qed.

(** The cookie loop of the bootstrap writes the seeded cookies in order. *)
Lemma cookie_seed_run (vals : list string) (w : World) :
  for_of vals (λ value,
    CookieDB.add {| Cookie.f_value := value; Cookie.f_isValid := true;
                    Cookie.f_failCount := 0; Cookie.f_isDefault := true |} ;;;
    ret ()) w
  = ((), advance w (length vals) (2 * length vals)
           (put_cookies (imap (seeded_cookie w) vals) (kv_data w))).
Proof.
  revert w. induction vals as [|v vals IH]; intros w.
  - by rewrite advance_0.
  - cbn [for_of]. unfold bind at 1. unfold bind at 1.
    rewrite cookie_add_run. cbv zeta. unfold ret at 1.
    rewrite IH. f_equal. rewrite imap_cons.
    rewrite (imap_ext _ (seeded_cookie w ∘ S))
      by (intros; apply seeded_cookie_shift).
    rewrite seeded_cookie_0. unfold advance, put_cookies.
    cbn [kv_data uuid_source uuids_drawn clock_source clock_reads length
         foldl Cookie.f_value Cookie.f_isValid Cookie.f_failCount
         Cookie.f_isDefault].
    f_equal; lia.
Qed.

Lemma apikey_seed_run (vals : list string) (w : World) :
  for_of vals (λ key,
    ApiKeyDB.add {| ApiKey.f_key := key; ApiKey.f_isEnabled := true;
                    ApiKey.f_isDefault := true |} ;;;
    ret ()) w
  = ((), advance w (length vals) (length vals)
           (put_apikeys (imap (seeded_apikey w) vals) (kv_data w))).
Proof.
  revert w. induction vals as [|v vals IH]; intros w.
  - by rewrite advance_0.
  - cbn [for_of]. unfold bind at 1. unfold bind at 1.
    rewrite apikey_add_run. cbv zeta. unfold ret at 1.
    rewrite IH. f_equal. rewrite imap_cons.
    rewrite (imap_ext _ (seeded_apikey w ∘ S))
      by (intros; apply seeded_apikey_shift).
    rewrite seeded_apikey_0. unfold advance, put_apikeys.
    cbn [kv_data uuid_source uuids_drawn clock_source clock_reads length
         foldl ApiKey.f_key ApiKey.f_isEnabled ApiKey.f_isDefault].
    f_equal; lia.
Qed.

Lemma values_put_cookies (cs : list Cookie.t) (m : gmap string value) :
  (∀ c, c ∈ cs →
        m !! makeKey (CookieDB.PREFIX ++ [SStr (Cookie.id c)]) = None) →
  NoDup (Cookie.id <$> cs) →
  values (map_to_list (scan (makeKey CookieDB.PREFIX) (put_cookies cs m)))
  ≡ₚ values (map_to_list (scan (makeKey CookieDB.PREFIX) m)) ++ cs.
Proof.
  revert m. induction cs as [|c cs IH]; intros m Hfresh Hnd.
  - by rewrite app_nil_r.
  - rewrite fmap_cons in Hnd. apply NoDup_cons in Hnd as [Hc Hnd].
    change (put_cookies (c :: cs) m)
      with (put_cookies cs
              (<[makeKey (CookieDB.PREFIX ++ [SStr (Cookie.id c)]) :=
                   VCookie c]> m)).
    rewrite IH; [|..|done].
    + rewrite values_scan_insert; [|apply Hfresh; left|reflexivity|done].
      by rewrite <-Permutation_middle.
    + intros c' Hc'. rewrite lookup_insert_ne; [apply Hfresh; by right|].
      intros E%cookie_key_inj. apply Hc. rewrite E.
      apply list_elem_of_fmap. by exists c'.
Qed.

Lemma values_put_apikeys (ks : list ApiKey.t) (m : gmap string value) :
  (∀ a, a ∈ ks →
        m !! makeKey (ApiKeyDB.PREFIX ++ [SStr (ApiKey.id a)]) = None) →
  NoDup (ApiKey.id <$> ks) →
  values (map_to_list (scan (makeKey ApiKeyDB.PREFIX) (put_apikeys ks m)))
  ≡ₚ values (map_to_list (scan (makeKey ApiKeyDB.PREFIX) m)) ++ ks.
Proof.
  revert m. induction ks as [|a ks IH]; intros m Hfresh Hnd.
  - by rewrite app_nil_r.
  - rewrite fmap_cons in Hnd. apply NoDup_cons in Hnd as [Ha Hnd].
    change (put_apikeys (a :: ks) m)
      with (put_apikeys ks
              (<[makeKey (ApiKeyDB.PREFIX ++ [SStr (ApiKey.id a)]) :=
                   VApiKey a]> m)).
    rewrite IH; [|..|done].
    + rewrite values_scan_insert; [|apply Hfresh; left|reflexivity|done].
      by rewrite <-Permutation_middle.
    + intros a' Ha'. rewrite lookup_insert_ne; [apply Hfresh; by right|].
      intros E%apikey_key_inj. apply Ha. rewrite E.
      apply list_elem_of_fmap. by exists a'.
Qed.

(** Writing cookies does not change what a scan of the API keys returns,
    nor the other way round. *)
Lemma scan_apikeys_put_cookies (cs : list Cookie.t) (m : gmap string value) :
  scan (makeKey ApiKeyDB.PREFIX) (put_cookies cs m)
  = scan (makeKey ApiKeyDB.PREFIX) m.
Proof.
  revert m. induction cs as [|c cs IH]; intros m; [done|].
  change (put_cookies (c :: cs) m)
    with (put_cookies cs
            (<[makeKey (CookieDB.PREFIX ++ [SStr (Cookie.id c)]) :=
                 VCookie c]> m)).
  rewrite IH. by apply scan_insert_out.
Qed.

Lemma scan_cookies_put_apikeys (ks : list ApiKey.t) (m : gmap string value) :
  scan (makeKey CookieDB.PREFIX) (put_apikeys ks m)
  = scan (makeKey CookieDB.PREFIX) m.
Proof.
  revert m. induction ks as [|a ks IH]; intros m; [done|].
  change (put_apikeys (a :: ks) m)
    with (put_apikeys ks
            (<[makeKey (ApiKeyDB.PREFIX ++ [SStr (ApiKey.id a)]) :=
                 VApiKey a]> m)).
  rewrite IH. by apply scan_insert_out.
Qed.

Lemma well_typed_put_cookies (cs : list Cookie.t) (m : gmap string value) :
  well_typed m → well_typed (put_cookies cs m).
Proof.
  revert m. induction cs as [|c cs IH]; intros m Hwt; [done|].
  apply IH, well_typed_insert; [done|]. by eexists.
Qed.

Lemma well_typed_put_apikeys (ks : list ApiKey.t) (m : gmap string value) :
  well_typed m → well_typed (put_apikeys ks m).
Proof.
  revert m. induction ks as [|a ks IH]; intros m Hwt; [done|].
  apply IH, well_typed_insert; [done|]. by eexists.
Qed.

(** When every row of a scan casts, the values are as many as the rows. *)
Lemma values_length {T} `{Cast T} (rows : list (string * value)) :
  Forall (λ row, is_Some (cast (T:=T) row.2)) rows →
  length (values (T:=T) rows) = length rows.
Proof.
  induction 1 as [|row rows [x Hx] _ IH]; [done|].
  unfold values in *. cbn [omap list_omap]. rewrite Hx. cbn. by rewrite IH.
Qed.

Lemma cookie_collection_empty (w : World) :
  well_typed (kv_data w) → result CookieDB.getAll w = [] →
  scan (makeKey CookieDB.PREFIX) (kv_data w) = ∅.
Proof.
  intros Hwt He. unfold result in He. rewrite cookie_getAll_run in He.
  cbn [fst] in He. apply (f_equal length) in He.
  rewrite sort_length, values_length in He.
  - by apply map_to_list_empty_iff, nil_length_inv.
  - apply Forall_forall. intros [k v] Hin%elem_of_map_to_list.
    destruct (scan_cookies_typed _ _ _ Hwt Hin) as [c ->]. by eexists.
Qed.

Lemma apikey_collection_empty (w : World) :
  well_typed (kv_data w) → result ApiKeyDB.getAll w = [] →
  scan (makeKey ApiKeyDB.PREFIX) (kv_data w) = ∅.
Proof.
  intros Hwt He. unfold result in He. rewrite apikey_getAll_run in He.
  cbn [fst] in He. apply (f_equal length) in He.
  rewrite sort_length, values_length in He.
  - by apply map_to_list_empty_iff, nil_length_inv.
  - apply Forall_forall. intros [k v] Hin%elem_of_map_to_list.
    destruct (scan_apikeys_typed _ _ _ Hwt Hin) as [c ->]. by eexists.
Qed.

Lemma seeded_cookie_ids (w : World) (vals : list string) :
  fresh_ids w → NoDup (Cookie.id <$> imap (seeded_cookie w) vals).
Proof.
  intros Hf. apply NoDup_alt. intros i j x.
  rewrite !list_lookup_fmap, !list_lookup_imap.
  destruct (vals !! i), (vals !! j); simpl; try done.
  intros [= <-] [= E]. apply Hf in E. lia.
Qed.

Lemma seeded_apikey_ids (w : World) (vals : list string) :
  fresh_ids w → NoDup (ApiKey.id <$> imap (seeded_apikey w) vals).
Proof.
  intros Hf. apply NoDup_alt. intros i j x.
  rewrite !list_lookup_fmap, !list_lookup_imap.
  destruct (vals !! i), (vals !! j); simpl; try done.
  intros [= <-] [= E]. apply Hf in E. lia.
Qed.

Lemma seeded_cookie_values (w : World) (vals : list string) :
  Cookie.value <$> imap (seeded_cookie w) vals = vals
  ∧ Forall default_cookie (imap (seeded_cookie w) vals).
Proof.
  split.
  - apply list_eq. intros i. rewrite list_lookup_fmap, list_lookup_imap.
    by destruct (vals !! i).
  - apply Forall_lookup_2. intros i c. rewrite list_lookup_imap.
    destruct (vals !! i); [|done]. by intros [= <-].
Qed.

Lemma seeded_apikey_values (w : World) (vals : list string) :
  ApiKey.key <$> imap (seeded_apikey w) vals = vals
  ∧ Forall default_apikey (imap (seeded_apikey w) vals).
Proof.
  split.
  - apply list_eq. intros i. rewrite list_lookup_fmap, list_lookup_imap.
    by destruct (vals !! i).
  - apply Forall_lookup_2. intros i c. rewrite list_lookup_imap.
    destruct (vals !! i); [|done]. by intros [= <-].
Qed.

Lemma bind_run {A B} (m : IO A) (k : A → IO B) (w : World) :
  bind m k w = k (result m w) (after m w).
Proof. unfold bind, result, after. by destruct (m w). Qed.

(** [initializeDatabase], phase by phase: the world after the cookie phase,
    then the world after the API key phase. *)
Lemma init_run (cfg : Config) (w : World) :
  let w1 :=
    if bool_decide (length (result CookieDB.getAll w) = 0%nat)
       && bool_decide (0 < length (DEFAULT_CTO_COOKIES cfg))%nat
    then advance w (length (DEFAULT_CTO_COOKIES cfg))
           (2 * length (DEFAULT_CTO_COOKIES cfg))
           (put_cookies (imap (seeded_cookie w) (DEFAULT_CTO_COOKIES cfg))
              (kv_data w))
    else w in
  initializeDatabase cfg w
  = ((), if bool_decide (length (result ApiKeyDB.getAll w1) = 0%nat)
         then advance w1 (length (DEFAULT_CHAT_APIKEYS cfg))
                (length (DEFAULT_CHAT_APIKEYS cfg))
                (put_apikeys
                   (imap (seeded_apikey w1) (DEFAULT_CHAT_APIKEYS cfg))
                   (kv_data w1))
         else w1).
Proof.
  intros w1. unfold initializeDatabase.
  rewrite bind_run. replace (after CookieDB.getAll w) with w by done.
  rewrite bind_run.
  match goal with
  | |- context [after ?m w] =>
      assert (after m w = w1) as ->
  end.
  { unfold after, w1. destruct (_ && _); [by rewrite cookie_seed_run|done]. }
  rewrite bind_run. replace (after ApiKeyDB.getAll w1) with w1 by done.
  clearbody w1.
  destruct (bool_decide (length (result ApiKeyDB.getAll w1) = 0%nat));
    [apply apikey_seed_run|done].
Qed.

Lemma cookie_getAll_scan (a b : World) :
  scan (makeKey CookieDB.PREFIX) (kv_data a)
  = scan (makeKey CookieDB.PREFIX) (kv_data b) →
  result CookieDB.getAll a = result CookieDB.getAll b.
Proof.
  intros E. unfold result. rewrite !cookie_getAll_run. cbn [fst].
  by rewrite E.
Qed.

Lemma apikey_getAll_scan (a b : World) :
  scan (makeKey ApiKeyDB.PREFIX) (kv_data a)
  = scan (makeKey ApiKeyDB.PREFIX) (kv_data b) →
  result ApiKeyDB.getAll a = result ApiKeyDB.getAll b.
Proof.
  intros E. unfold result. rewrite !apikey_getAll_run. cbn [fst].
  by rewrite E.
Qed.

Lemma cookie_getAll_perm (w : World) :
  result CookieDB.getAll w
  ≡ₚ values (map_to_list (scan (makeKey CookieDB.PREFIX) (kv_data w))).
Proof. unfold result. rewrite cookie_getAll_run. apply sort_perm. Qed.

Lemma apikey_getAll_perm (w : World) :
  result ApiKeyDB.getAll w
  ≡ₚ values (map_to_list (scan (makeKey ApiKeyDB.PREFIX) (kv_data w))).
Proof. unfold result. rewrite apikey_getAll_run. apply sort_perm. Qed.

(** The cookie phase of the bootstrap on a table whose cookie collection
    is empty. *)
Lemma cookie_phase_seeds (cfg : Config) (w : World) :
  well_typed (kv_data w) → fresh_ids w → result CookieDB.getAll w = [] →
  let w1 := advance w (length (DEFAULT_CTO_COOKIES cfg))
              (2 * length (DEFAULT_CTO_COOKIES cfg))
              (put_cookies (imap (seeded_cookie w) (DEFAULT_CTO_COOKIES cfg))
                 (kv_data w)) in
  result CookieDB.getAll w1 ≡ₚ imap (seeded_cookie w) (DEFAULT_CTO_COOKIES cfg).
Proof.
  intros Hwt Hf He w1.
  pose proof (cookie_collection_empty w Hwt He) as Hs.
  rewrite cookie_getAll_perm. unfold w1, advance. cbn [kv_data].
  rewrite values_put_cookies; [by rewrite values_scan_empty| |].
  - intros c _. eapply scan_empty_lookup; [done|reflexivity].
  - by apply seeded_cookie_ids.
Qed.

Lemma apikey_phase_seeds (cfg : Config) (w : World) :
  well_typed (kv_data w) → fresh_ids w → result ApiKeyDB.getAll w = [] →
  let w1 := advance w (length (DEFAULT_CHAT_APIKEYS cfg))
              (length (DEFAULT_CHAT_APIKEYS cfg))
              (put_apikeys (imap (seeded_apikey w) (DEFAULT_CHAT_APIKEYS cfg))
                 (kv_data w)) in
  result ApiKeyDB.getAll w1
  ≡ₚ imap (seeded_apikey w) (DEFAULT_CHAT_APIKEYS cfg).
Proof.
  intros Hwt Hf He w1.
  pose proof (apikey_collection_empty w Hwt He) as Hs.
  rewrite apikey_getAll_perm. unfold w1, advance. cbn [kv_data].
  rewrite values_put_apikeys; [by rewrite values_scan_empty| |].
  - intros c _. eapply scan_empty_lookup; [done|reflexivity].
  - by apply seeded_apikey_ids.
Qed.

(** What one run of [initializeDatabase] does to each collection. *)
Lemma bootstrap_effect (cfg : Config) (w : World) :
  (result CookieDB.getAll w ≠ [] → result ApiKeyDB.getAll w ≠ [] →
   initializeDatabase cfg w = ((), w))
  ∧ (well_typed (kv_data w) → fresh_ids w →
     let w' := after (initializeDatabase cfg) w in
     (result CookieDB.getAll w = [] →
      Cookie.value <$> result CookieDB.getAll w' ≡ₚ DEFAULT_CTO_COOKIES cfg
      ∧ Forall default_cookie (result CookieDB.getAll w'))
     ∧ (result ApiKeyDB.getAll w = [] →
        ApiKey.key <$> result ApiKeyDB.getAll w' ≡ₚ DEFAULT_CHAT_APIKEYS cfg
        ∧ Forall default_apikey (result ApiKeyDB.getAll w'))
     ∧ (result CookieDB.getAll w ≠ [] →
        result CookieDB.getAll w' = result CookieDB.getAll w)
     ∧ (result ApiKeyDB.getAll w ≠ [] →
        result ApiKeyDB.getAll w' = result ApiKeyDB.getAll w)).
Proof.
  split.
  { intros Hc Hk. rewrite init_run.
    rewrite (bool_decide_eq_false_2 (length (result CookieDB.getAll w) = 0%nat))
      by (by intros ?%nil_length_inv).
    cbn [andb].
    by rewrite bool_decide_eq_false_2 by (by intros ?%nil_length_inv). }
  intros Hwt Hf w'. unfold w', after. rewrite init_run. cbn [snd].
  set (w1 := if _ && _ then _ else w).
  (* the cookie phase *)
  assert (result ApiKeyDB.getAll w1 = result ApiKeyDB.getAll w) as Hk1.
  { apply apikey_getAll_scan. unfold w1. destruct (_ && _); [|done].
    apply scan_apikeys_put_cookies. }
  assert (well_typed (kv_data w1) ∧ fresh_ids w1) as [Hwt1 Hf1].
  { unfold w1. destruct (_ && _); [|done].
    split; [by apply well_typed_put_cookies|done]. }
  assert (result CookieDB.getAll w = [] →
          Cookie.value <$> result CookieDB.getAll w1
            ≡ₚ DEFAULT_CTO_COOKIES cfg
          ∧ Forall default_cookie (result CookieDB.getAll w1)) as Hseed1.
  { intros He. unfold w1. rewrite He. cbn [length].
    rewrite bool_decide_eq_true_2 by done. cbn [andb].
    case_bool_decide as Hd.
    - rewrite (cookie_phase_seeds cfg w Hwt Hf He).
      by destruct (seeded_cookie_values w (DEFAULT_CTO_COOKIES cfg))
        as [-> ?].
    - rewrite He. destruct (DEFAULT_CTO_COOKIES cfg); [done|].
      cbn [length] in Hd. lia. }
  assert (result CookieDB.getAll w ≠ [] → w1 = w) as Hsame1.
  { intros Hne. unfold w1.
    by rewrite (bool_decide_eq_false_2
                  (length (result CookieDB.getAll w) = 0%nat))
      by (by intros ?%nil_length_inv). }
  clearbody w1.
  (* the API key phase *)
  set (w2 := if bool_decide _ then _ else w1).
  assert (result CookieDB.getAll w2 = result CookieDB.getAll w1) as Hc2.
  { apply cookie_getAll_scan. unfold w2. destruct (bool_decide _); [|done].
    apply scan_cookies_put_apikeys. }
  split; [|split; [|split]].
  - intros He. rewrite Hc2. by apply Hseed1.
  - intros He. unfold w2. rewrite Hk1, He. cbn [length].
    rewrite bool_decide_eq_true_2 by done.
    rewrite (apikey_phase_seeds cfg w1 Hwt1 Hf1) by by rewrite Hk1.
    by destruct (seeded_apikey_values w1 (DEFAULT_CHAT_APIKEYS cfg))
      as [-> ?].
  - intros Hne. rewrite Hc2, (Hsame1 Hne). reflexivity.
  - intros Hne. unfold w2.
    rewrite bool_decide_eq_false_2
      by (rewrite Hk1; by intros ?%nil_length_inv).
    done.
Qed.

(** A second run of the bootstrap finds nothing to do. *)
Lemma bootstrap_twice (cfg : Config) (w : World) :
  well_typed (kv_data w) → fresh_ids w →
  let w' := after (initializeDatabase cfg) w in
  initializeDatabase cfg w' = ((), w').
Proof.
  intros Hwt Hf w'.
  destruct (bootstrap_effect cfg w) as [_ H].
  destruct (H Hwt Hf) as (Hc0 & Hk0 & Hc1 & Hk1). fold w' in Hc0, Hk0, Hc1, Hk1.
  clearbody w'. rewrite init_run.
  assert (bool_decide (length (result CookieDB.getAll w') = 0%nat)
          && bool_decide (0 < length (DEFAULT_CTO_COOKIES cfg))%nat = false)
    as ->.
  { apply andb_false_iff.
    destruct (DEFAULT_CTO_COOKIES cfg) as [|v vs] eqn:Ed;
      [right; by apply bool_decide_eq_false_2; cbn [length]; lia|left].
    apply bool_decide_eq_false_2. intros E%nil_length_inv.
    destruct (result CookieDB.getAll w) as [|c cs] eqn:Ew.
    - destruct Hc0 as [Hp _]; [done|]. rewrite E in Hp.
      by apply Permutation_nil_cons in Hp.
    - rewrite Hc1 in E by done. discriminate E. }
  case_bool_decide as Hk; [|done].
  apply nil_length_inv in Hk.
  assert (DEFAULT_CHAT_APIKEYS cfg = []) as ->; [|by rewrite advance_0].
  destruct (result ApiKeyDB.getAll w) as [|a ks] eqn:Ew.
  - destruct Hk0 as [Hp _]; [done|]. rewrite Hk in Hp.
    by apply Permutation_nil_l in Hp.
  - rewrite Hk1 in Hk by done. discriminate Hk.
Qed.

(** C7.  [initializeDatabase] leaves the world as it was when [getAll]
    returns at least one cookie and at least one API key, whatever these
    entries are.  In a table that keeps the key discipline and with an id
    source that does not repeat, a collection for which [getAll] returns
    nothing holds, after the bootstrap, one entry per configured default
    value, each with [isDefault = true] (cookies also valid with
    [failCount = 0], API keys also enabled with [requestCount = 0]); a
    collection that was not empty is returned by [getAll] as before; and a
    second run straight after the first leaves the world as the first run
    left it. *)
Theorem C7_bootstrap (cfg : Config) (w : World) :
  (result CookieDB.getAll w ≠ [] → result ApiKeyDB.getAll w ≠ [] →
   initializeDatabase cfg w = ((), w))
  ∧ (well_typed (kv_data w) → fresh_ids w →
     let w' := after (initializeDatabase cfg) w in
     (result CookieDB.getAll w = [] →
      Cookie.value <$> result CookieDB.getAll w' ≡ₚ DEFAULT_CTO_COOKIES cfg
      ∧ Forall default_cookie (result CookieDB.getAll w'))
     ∧ (result ApiKeyDB.getAll w = [] →
        ApiKey.key <$> result ApiKeyDB.getAll w' ≡ₚ DEFAULT_CHAT_APIKEYS cfg
        ∧ Forall default_apikey (result ApiKeyDB.getAll w'))
     ∧ (result CookieDB.getAll w ≠ [] →
        result CookieDB.getAll w' = result CookieDB.getAll w)
     ∧ (result ApiKeyDB.getAll w ≠ [] →
        result ApiKeyDB.getAll w' = result ApiKeyDB.getAll w)
     ∧ initializeDatabase cfg w' = ((), w')).
Proof.
  destruct (bootstrap_effect cfg w) as [Hnoop Hseed].
  split; [done|]. intros Hwt Hf w'.
  destruct (Hseed Hwt Hf) as (Hc0 & Hk0 & Hc1 & Hk1).
  repeat (split; [done|]).
  by apply bootstrap_twice.
Qed.

Lemma demo_uuid_fresh : fresh_ids empty_world.
Proof.
  intros i j. cbn [uuid_source empty_world]. unfold demo_uuid.
  cbv [String.append]. intros [= E]. by apply (inj pretty) in E.
Qed.

Lemma C7_bootstrap_witness :
  initializeDatabase demo_config busy_world = ((), busy_world)
  ∧ Cookie.value <$> result CookieDB.getAll seeded_world
    ≡ₚ ["cookie-a"; "cookie-b"]
  ∧ ApiKey.key <$> result ApiKeyDB.getAll seeded_world ≡ₚ ["sk-default"]
  ∧ Forall default_cookie (result CookieDB.getAll seeded_world)
  ∧ Forall default_apikey (result ApiKeyDB.getAll seeded_world)
  ∧ initializeDatabase demo_config seeded_world = ((), seeded_world).
Proof.
  split.
  - destruct (C7_bootstrap demo_config busy_world) as [H _].
    apply H; vm_compute; discriminate.
  - destruct (C7_bootstrap demo_config empty_world) as [_ H].
    destruct (H well_typed_empty demo_uuid_fresh) as (Hc & Hk & _ & _ & Hi).
    destruct (Hc eq_refl) as [Hc1 Hc2], (Hk eq_refl) as [Hk1 Hk2].
    split; [exact Hc1|]. split; [exact Hk1|]. split; [exact Hc2|].
    split; [exact Hk2|exact Hi].
Defined.

(** ** Reachable tables keep the key discipline *)

Lemma well_typed_cookie_add (f : Cookie.fields) (w : World) :
  well_typed (kv_data w) → well_typed (kv_data (after (CookieDB.add f) w)).
Proof.
  intros Hwt. unfold after. rewrite cookie_add_run. cbv zeta.
  cbn [snd advance kv_data]. apply well_typed_insert; [done|by eexists].
Qed.

Lemma well_typed_apikey_add (f : ApiKey.fields) (w : World) :
  well_typed (kv_data w) → well_typed (kv_data (after (ApiKeyDB.add f) w)).
Proof.
  intros Hwt. unfold after. rewrite apikey_add_run. cbv zeta.
  cbn [snd advance kv_data]. apply well_typed_insert; [done|by eexists].
Qed.

Lemma well_typed_cookie_update (id : string) (u : Cookie.partial) (w : World) :
  well_typed (kv_data w) →
  well_typed (kv_data (after (CookieDB.update id u) w)).
Proof.
  intros Hwt. destruct (result (CookieDB.get id) w) as [c|] eqn:Hc.
  - unfold after. rewrite (cookie_update_run _ _ _ _ Hc).
    cbn [snd with_kv kv_data]. apply well_typed_insert; [done|by eexists].
  - unfold after. by rewrite (cookie_update_absent _ _ _ Hc).
Qed.

Lemma well_typed_log_add (cfg : Config) (log : RequestLog.fields) (w : World) :
  well_typed (kv_data w) →
  well_typed (kv_data (after (RequestLogDB.add cfg log) w)).
Proof.
  intros Hwt. unfold after. rewrite log_add_run, cleanup_run. cbv zeta.
  destruct (_ <=? _); cbn [snd kv_data with_kv].
  - by apply well_typed_insert.
  - by apply well_typed_evict, well_typed_insert.
Qed.

Lemma well_typed_initializeDatabase (cfg : Config) (w : World) :
  well_typed (kv_data w) →
  well_typed (kv_data (after (initializeDatabase cfg) w)).
Proof.
  intros Hwt. unfold after. rewrite init_run. cbn [snd].
  set (w1 := if _ && _ then _ else w).
  assert (well_typed (kv_data w1)) as Hwt1.
  { unfold w1. destruct (_ && _); [|done]. by apply well_typed_put_cookies. }
  clearbody w1.
  destruct (bool_decide (length (result ApiKeyDB.getAll w1) = 0%nat));
    [|done].
  by apply well_typed_put_apikeys.
Qed.

(** Every writing method of the repository takes a table that keeps the
    key discipline to one that keeps it, and the empty table keeps it: the
    discipline holds in every world the repository can reach. *)
Lemma well_typed_preserved (cfg : Config) (w : World) :
  well_typed (kv_data w) →
  (∀ f, well_typed (kv_data (after (CookieDB.add f) w)))
  ∧ (∀ id u, well_typed (kv_data (after (CookieDB.update id u) w)))
  ∧ (∀ id, well_typed (kv_data (after (CookieDB.delete id) w)))
  ∧ (∀ id, well_typed
             (kv_data (after (CookieDB.incrementFailCount cfg id) w)))
  ∧ (∀ id, well_typed (kv_data (after (CookieDB.resetFailCount id) w)))
  ∧ (∀ f, well_typed (kv_data (after (ApiKeyDB.add f) w)))
  ∧ (∀ id u, well_typed (kv_data (after (ApiKeyDB.update id u) w)))
  ∧ (∀ id, well_typed (kv_data (after (ApiKeyDB.delete id) w)))
  ∧ (∀ log, well_typed (kv_data (after (RequestLogDB.add cfg log) w)))
  ∧ (∀ s, well_typed (kv_data (after (SystemSettingsDB.update cfg s) w)))
  ∧ (∀ ms, well_typed (kv_data (after (ModelMappingDB.update ms) w)))
  ∧ well_typed (kv_data (after (initializeDatabase cfg) w)).
Proof.
  intros Hwt.
  split; [intros; by apply well_typed_cookie_add|].
  split; [intros; by apply well_typed_cookie_update|].
  split.
  { intros id. run. destruct (_ ≫= _) as [c|]; [|done].
    destruct (Cookie.isDefault c); [done|]. fields.
    by apply well_typed_delete. }
  split.
  { intros id. destruct (result (CookieDB.get id) w) as [c|] eqn:Hc.
    - run. repeat (rewrite Hc; fields).
      apply well_typed_insert; [done|by eexists].
    - unfold after. by rewrite (cookie_increment_absent cfg _ _ Hc). }
  split.
  { intros id. destruct (result (CookieDB.get id) w) as [c|] eqn:Hc.
    - run. repeat (rewrite Hc; fields).
      apply well_typed_insert; [done|by eexists].
    - unfold after. by rewrite (cookie_reset_absent _ _ Hc). }
  split; [intros; by apply well_typed_apikey_add|].
  split.
  { intros id u. run. destruct (_ ≫= _) as [a|]; [|done]. fields.
    apply well_typed_insert; [done|by eexists]. }
  split.
  { intros id. run. destruct (_ ≫= _) as [a|]; [|done].
    destruct (ApiKey.isDefault a); [done|]. fields.
    by apply well_typed_delete. }
  split; [intros; by apply well_typed_log_add|].
  split; [intros s; run; fields; by apply well_typed_insert|].
  split; [intros ms; run; fields; by apply well_typed_insert|].
  by apply well_typed_initializeDatabase.
Qed.

Lemma busy_world_typed : well_typed (kv_data busy_world).
Proof.
  unfold busy_world.
  apply well_typed_apikey_add, well_typed_cookie_add.
  unfold seeded_world.
  apply well_typed_initializeDatabase, well_typed_empty.
Qed.


(** * Further properties

    Properties of the same code beyond the ones the specification states:
    the key codec, the wrappers, and what each repository method does to
    the rows it is not about. *)

(** ** The key codec *)

Lemma occurs_app_delimiter (a r : string) :
  occurs delimiter (a +:+ String delimiter r) = true.
Proof.
  induction a as [|c a IH]; [apply occurs_head|].
  rewrite string_app_cons, occurs_cons, IH. apply orb_true_r.
Qed.

Lemma join_cons (sep x y : string) (l : list string) :
  join sep (x :: y :: l) = x +:+ sep +:+ join sep (y :: l).
Proof. reflexivity. Qed.

Lemma join_delimiter_inj (l1 l2 : list string) :
  l1 ≠ [] → l2 ≠ [] →
  Forall (λ s, occurs delimiter s = false) l1 →
  Forall (λ s, occurs delimiter s = false) l2 →
  join ":" l1 = join ":" l2 → l1 = l2.
Proof.
  intros H1 H2 Hp1. revert l2 H2.
  induction Hp1 as [|x l1 Hx Hp1 IH]; [done|]. clear H1.
  intros l2 H2 Hp2. destruct Hp2 as [|y l2 Hy Hp2]; [done|]. clear H2.
  destruct l1 as [|x' l1], l2 as [|y' l2].
  - by intros [= ->].
  - rewrite join_cons. cbn [join]. intros ->.
    change (":" +:+ ?r) with (String delimiter r) in Hx.
    by rewrite occurs_app_delimiter in Hx.
  - rewrite join_cons. cbn [join]. intros <-.
    change (":" +:+ ?r) with (String delimiter r) in Hy.
    by rewrite occurs_app_delimiter in Hy.
  - rewrite !join_cons.
    change (":" +:+ ?r) with (String delimiter r). intros E.
    apply split_at_delimiter in E as [-> E]; [|done..].
    f_equal. by apply IH.
Qed.

(** X1.  On keys that have at least one segment and whose segments hold no
    [":"], [makeKey] is injective up to the text of the segments: two such
    keys with the same encoding have the same segments as text. *)
Theorem X1_makeKey_injective (k1 k2 : list segment) :
  k1 ≠ [] → k2 ≠ [] → Forall plain k1 → Forall plain k2 →
  makeKey k1 = makeKey k2 →
  segment_to_string <$> k1 = segment_to_string <$> k2.
Proof.
  intros H1 H2 Hp1 Hp2. unfold makeKey.
  apply join_delimiter_inj.
  - by destruct k1.
  - by destruct k2.
  - by apply Forall_fmap.
  - by apply Forall_fmap.
Qed.

Lemma X1_makeKey_injective_witness :
  segment_to_string <$> RequestLogDB.PREFIX ++ [SNum 17; SStr "id-0"]
  = segment_to_string <$> [SStr "logs"; SStr "17"; SStr "id-0"].
Proof.
  apply X1_makeKey_injective; [done|done| | |reflexivity];
    repeat constructor.
Defined.



(** ** The wrappers *)

(** X3.  A read after a write or a delete depends on the encodings of the
    two keys only: [kvGet key'] after [kvSet key v] returns [v] when the
    two keys have the same encoding and what it returned before otherwise;
    after [kvDelete key] it returns [null] when they have the same encoding
    and what it returned before otherwise.  A second write under the same
    key replaces the first, and deleting a key that is not there changes
    nothing. *)
Theorem X3_kv_round_trip {T} `{Cast T} (key key' : list segment)
    (v v' : value) (w : World) :
  result (kvGet (T:=T) key') (after (kvSet key v) w)
  = (if decide (makeKey key = makeKey key') then cast v
     else result (kvGet key') w)
  ∧ result (kvGet (T:=T) key') (after (kvDelete key) w)
    = (if decide (makeKey key = makeKey key') then None
       else result (kvGet key') w)
  ∧ after (kvSet key v') (after (kvSet key v) w) = after (kvSet key v') w
  ∧ (kv_data w !! makeKey key = None → after (kvDelete key) w = w).
Proof.
  repeat split; run; fields.
  - case_decide as E; [by rewrite E, lookup_insert_eq|].
    by rewrite lookup_insert_ne.
  - case_decide as E; [by rewrite E, lookup_delete_eq|].
    by rewrite lookup_delete_ne.
  - by rewrite insert_insert_eq.
  - intros Hnone. rewrite delete_id by done. by destruct w.
Qed.




(** ** Each collection has rows of its own *)

Lemma scan_untouched (q p : string) (w w' : World) :
  (∀ k, selects q k = true → selects p k = false) →
  untouched_outside p w w' →
  scan q (kv_data w') = scan q (kv_data w).
Proof.
  intros Hd Hu. apply map_eq. intros k. apply option_eq. intros v.
  rewrite !scan_lookup. split; intros [Hm Hk]; (split; [|done]).
  - by rewrite <-Hu by by apply Hd.
  - by rewrite Hu by by apply Hd.
Qed.

Lemma scan_lookup_in (p k : string) (m : gmap string value) :
  selects p k = true → scan p m !! k = m !! k.
Proof.
  intros Hp. apply option_eq. intros v. rewrite scan_lookup.
  split; [by intros [? _]|by intros ?].
Qed.

Lemma same_cookies_scan (w w' : World) :
  scan (makeKey CookieDB.PREFIX) (kv_data w')
  = scan (makeKey CookieDB.PREFIX) (kv_data w) →
  same_cookies w w'.
Proof.
  intros E. split; [by apply cookie_getAll_scan|].
  intros id. run.
  rewrite <-(scan_lookup_in (makeKey CookieDB.PREFIX) _ (kv_data w')),
    <-(scan_lookup_in (makeKey CookieDB.PREFIX) _ (kv_data w)), E;
    done.
Qed.

Lemma same_apikeys_scan (w w' : World) :
  scan (makeKey ApiKeyDB.PREFIX) (kv_data w')
  = scan (makeKey ApiKeyDB.PREFIX) (kv_data w) →
  same_apikeys w w'.
Proof.
  intros E. split; [by apply apikey_getAll_scan|]. split.
  - intros id. run.
    rewrite <-(scan_lookup_in (makeKey ApiKeyDB.PREFIX) _ (kv_data w')),
      <-(scan_lookup_in (makeKey ApiKeyDB.PREFIX) _ (kv_data w)), E;
      done.
  - intros key. unfold result. rewrite !apikey_getByKey_run. cbn [fst].
    by rewrite (apikey_getAll_scan _ _ E).
Qed.

Lemma same_logs_scan (w w' : World) :
  scan (makeKey RequestLogDB.PREFIX) (kv_data w')
  = scan (makeKey RequestLogDB.PREFIX) (kv_data w) →
  same_logs w w'.
Proof.
  intros E. split; [|split].
  - intros cfg limit.
    unfold result, RequestLogDB.getRecent, bind, kvList, ret. cbn [fst].
    by rewrite E.
  - unfold result, RequestLogDB.count, bind, kvList, ret. cbn [fst].
    by rewrite E.
  - intros path.
    unfold result, RequestLogDB.countByPath, bind, kvList, ret. cbn [fst].
    by rewrite E.
Qed.

Lemma same_settings_untouched (p : string) (w w' : World) :
  selects p (makeKey SystemSettingsDB.KEY) = false →
  untouched_outside p w w' → same_settings w w'.
Proof. intros Hp Hu cfg. run. by rewrite Hu. Qed.

Lemma same_models_untouched (p : string) (w w' : World) :
  selects p (makeKey ModelMappingDB.KEY) = false →
  untouched_outside p w w' → same_models w w'.
Proof. intros Hp Hu cfg. run. by rewrite Hu. Qed.

(** A write or a delete at one key leaves the rows outside every prefix of
    that key untouched, and so does a chain of such steps. *)
Lemma untouched_insert (p k : string) (v : value) (w w' : World) :
  selects p k = true → kv_data w' = <[k:=v]> (kv_data w) →
  untouched_outside p w w'.
Proof.
  intros Hp E j Hj. rewrite E, lookup_insert_ne; [done|]. congruence.
Qed.

Lemma untouched_delete (p k : string) (w w' : World) :
  selects p k = true → kv_data w' = delete k (kv_data w) →
  untouched_outside p w w'.
Proof.
  intros Hp E j Hj. rewrite E, lookup_delete_ne; [done|]. congruence.
Qed.

Lemma untouched_refl (p : string) (w w' : World) :
  kv_data w' = kv_data w → untouched_outside p w w'.
Proof. intros E j _. by rewrite E. Qed.

Lemma untouched_trans (p : string) (w1 w2 w3 : World) :
  untouched_outside p w1 w2 → untouched_outside p w2 w3 →
  untouched_outside p w1 w3.
Proof. intros H12 H23 j Hj. by rewrite H23, H12. Qed.

(** ** Listing a collection *)

Lemma elem_of_cookie_getAll (w : World) (c : Cookie.t) :
  c ∈ result CookieDB.getAll w ↔ stored_cookie w c.
Proof.
  unfold result. rewrite cookie_getAll_run. cbn [fst].
  rewrite sort_perm, elem_of_values_scan. unfold stored_cookie.
  setoid_rewrite selects_cookies. split.
  - intros (k & v & Hm & Hp & Hc). exists k.
    destruct v; try discriminate Hc. injection Hc as ->. done.
  - intros (k & Hm & Hp). by exists k, (VCookie c).
Qed.

(** X5.  [getAll], of cookies and of API keys: the result is in ascending
    order of [createdAt], its entries are exactly the entities stored under
    the collection prefix, and the world is left as it was. *)
Theorem X5_getAll_sorted (w : World) :
  StronglySorted (by_key Cookie.createdAt) (result CookieDB.getAll w)
  ∧ (∀ c, c ∈ result CookieDB.getAll w ↔ stored_cookie w c)
  ∧ after CookieDB.getAll w = w
  ∧ StronglySorted (by_key ApiKey.createdAt) (result ApiKeyDB.getAll w)
  ∧ (∀ a, a ∈ result ApiKeyDB.getAll w ↔ stored_apikey w a)
  ∧ after ApiKeyDB.getAll w = w.
Proof.
  split; [|split; [|split; [|split; [|split]]]].
  - unfold result. rewrite cookie_getAll_run. cbn [fst].
    apply sort_sorted. intros; lia.
  - apply elem_of_cookie_getAll.
  - done.
  - unfold result. rewrite apikey_getAll_run. cbn [fst].
    apply sort_sorted. intros; lia.
  - apply elem_of_apikey_getAll.
  - done.
Qed.

(** ** Cookies, one at a time *)

(** Deleting one row takes exactly its value out of the scan that holds
    it. *)
Lemma values_scan_take_out {T} `{Cast T} (p k : string) (v : value) (x : T)
    (m : gmap string value) :
  m !! k = Some v → selects p k = true → cast v = Some x →
  x :: values (T:=T) (map_to_list (scan p (delete k m)))
  ≡ₚ values (map_to_list (scan p m)).
Proof.
  intros Hm Hp Hc. rewrite scan_delete. unfold values.
  rewrite <-(map_to_list_delete (scan p m) k v);
    [|by apply scan_lookup].
  cbn [omap list_omap snd]. by rewrite Hc.
Qed.

(** Writing over one row swaps its value in the scan that holds it. *)
Lemma values_scan_overwrite {T} `{Cast T} (p k : string) (v v' : value)
    (x x' : T) (m : gmap string value) :
  m !! k = Some v → selects p k = true →
  cast v = Some x → cast v' = Some x' →
  x :: values (T:=T) (map_to_list (scan p (<[k:=v']> m)))
  ≡ₚ x' :: values (map_to_list (scan p m)).
Proof.
  intros Hm Hp Hc Hc'.
  rewrite <-(insert_delete_eq m k v').
  rewrite values_scan_insert; [|apply lookup_delete_eq|done..].
  rewrite <-(values_scan_take_out p k v x m) by done.
  apply perm_swap.
Qed.

Lemma cookie_key_starts (id : string) :
  starts_with (makeKey CookieDB.PREFIX)
    (makeKey (CookieDB.PREFIX ++ [SStr id])) = true.
Proof. reflexivity. Qed.

Lemma apikey_key_starts (id : string) :
  starts_with (makeKey ApiKeyDB.PREFIX)
    (makeKey (ApiKeyDB.PREFIX ++ [SStr id])) = true.
Proof. reflexivity. Qed.

Lemma cookie_key_prefix (id : string) :
  selects (makeKey CookieDB.PREFIX) (makeKey (CookieDB.PREFIX ++ [SStr id]))
  = true.
Proof. reflexivity. Qed.

Lemma apikey_key_prefix (id : string) :
  selects (makeKey ApiKeyDB.PREFIX) (makeKey (ApiKeyDB.PREFIX ++ [SStr id]))
  = true.
Proof. reflexivity. Qed.

(** What [get] returns is the cookie in the cell at the key of the id. *)
Lemma cookie_get_Some (id : string) (w : World) (c : Cookie.t) :
  result (CookieDB.get id) w = Some c
  ↔ kv_data w !! makeKey (CookieDB.PREFIX ++ [SStr id]) = Some (VCookie c).
Proof.
  run. destruct (kv_data w !! _) as [v|]; cbn; [|done].
  destruct v; cbn; split; intros E; try discriminate E; congruence.
Qed.

Lemma apikey_get_Some (id : string) (w : World) (a : ApiKey.t) :
  result (ApiKeyDB.get id) w = Some a
  ↔ kv_data w !! makeKey (ApiKeyDB.PREFIX ++ [SStr id]) = Some (VApiKey a).
Proof.
  run. destruct (kv_data w !! _) as [v|]; cbn; [|done].
  destruct v; cbn; split; intros E; try discriminate E; congruence.
Qed.

Lemma cookie_get_other (id id' : string) (v : value) (w w' : World) :
  id' ≠ id →
  kv_data w' = <[makeKey (CookieDB.PREFIX ++ [SStr id]) := v]> (kv_data w) →
  result (CookieDB.get id') w' = result (CookieDB.get id') w.
Proof.
  intros Hne E. run. rewrite E, lookup_insert_ne; [done|].
  by intros ?%cookie_key_inj.
Qed.

(** X6.  [CookieDB.add] returns a cookie with the id it drew and the fields
    it was given; a [get] of that id then returns this cookie, and a [get]
    of any other id returns what it returned before.  When no row was
    stored under the new id, [getAll] gains exactly the new cookie; when a
    cookie was, that cookie is replaced. *)
Theorem X6_cookie_add_get (f : Cookie.fields) (w : World) :
  let c := result (CookieDB.add f) w in
  let w' := after (CookieDB.add f) w in
  let k := makeKey (CookieDB.PREFIX ++ [SStr (Cookie.id c)]) in
  Cookie.id c = result randomUUID w
  ∧ (Cookie.value c, Cookie.isValid c, Cookie.failCount c, Cookie.isDefault c)
    = (Cookie.f_value f, Cookie.f_isValid f, Cookie.f_failCount f,
       Cookie.f_isDefault f)
  ∧ result (CookieDB.get (Cookie.id c)) w' = Some c
  ∧ (∀ id, id ≠ Cookie.id c →
           result (CookieDB.get id) w' = result (CookieDB.get id) w)
  ∧ (kv_data w !! k = None →
     result CookieDB.getAll w' ≡ₚ c :: result CookieDB.getAll w)
  ∧ (∀ c0, result (CookieDB.get (Cookie.id c)) w = Some c0 →
           c0 :: result CookieDB.getAll w' ≡ₚ c :: result CookieDB.getAll w).
Proof.
  intros c w' k.
  assert (kv_data w' = <[k := VCookie c]> (kv_data w)) as Hw'.
  { unfold w', after, c, result, k. by rewrite cookie_add_run. }
  split; [done|]. split; [done|]. split.
  { apply cookie_get_Some. fold k. by rewrite Hw', lookup_insert_eq. }
  split.
  { intros id Hne. by apply (cookie_get_other (Cookie.id c) id (VCookie c)). }
  clearbody c w'. split.
  - intros Hfree. rewrite !cookie_getAll_perm, Hw'.
    by apply values_scan_insert.
  - intros c0 Hc0%cookie_get_Some. fold k in Hc0.
    rewrite !cookie_getAll_perm, Hw'.
    by apply (values_scan_overwrite _ _ (VCookie c0) (VCookie c)).
Qed.

(** X7.  [CookieDB.update(id, updates)]: when [get(id)] finds nothing it
    returns [false] and leaves the world as it was; otherwise it returns
    [true], the cookie stored under [id] becomes the old one with the
    supplied fields over it and [updatedAt] set to the clock, every field
    the patch leaves out (but [updatedAt]) keeps its value, the cookies of
    all other ids are as before, and the table has the same keys as
    before: [update] never creates or removes a row. *)
Theorem X7_cookie_update_effect (id : string) (u : Cookie.partial)
    (w : World) :
  match result (CookieDB.get id) w with
  | None => CookieDB.update id u w = (false, w)
  | Some c =>
      let w' := after (CookieDB.update id u) w in
      let c' := Cookie.with_updatedAt (Cookie.merge c u)
                  (result Date_now w) in
      result (CookieDB.update id u) w = true
      ∧ result (CookieDB.get id) w' = Some c'
      ∧ (Cookie.p_id u = None → Cookie.id c' = Cookie.id c)
      ∧ (Cookie.p_value u = None → Cookie.value c' = Cookie.value c)
      ∧ (Cookie.p_isValid u = None → Cookie.isValid c' = Cookie.isValid c)
      ∧ (Cookie.p_failCount u = None →
         Cookie.failCount c' = Cookie.failCount c)
      ∧ (Cookie.p_isDefault u = None →
         Cookie.isDefault c' = Cookie.isDefault c)
      ∧ (Cookie.p_createdAt u = None →
         Cookie.createdAt c' = Cookie.createdAt c)
      ∧ Cookie.updatedAt c' = result Date_now w
      ∧ (∀ id', id' ≠ id →
                result (CookieDB.get id') w' = result (CookieDB.get id') w)
      ∧ dom (kv_data w') = dom (kv_data w)
      ∧ length (result CookieDB.getAll w')
        = length (result CookieDB.getAll w)
  end.
Proof.
  destruct (result (CookieDB.get id) w) as [c|] eqn:Hc;
    [|by apply cookie_update_absent].
  intros w' c'.
  assert (kv_data w'
          = <[makeKey (CookieDB.PREFIX ++ [SStr id]) := VCookie c']>
              (kv_data w)) as Hw'.
  { unfold w', after. by rewrite (cookie_update_run _ _ _ _ Hc). }
  split; [unfold result; by rewrite (cookie_update_run _ _ _ _ Hc)|].
  split; [by apply cookie_get_after_update|].
  do 6 (split; [by intros E; cbn; rewrite E|]).
  split; [done|].
  split; [intros id' Hne; by apply (cookie_get_other id id' (VCookie c'))|].
  apply cookie_get_Some in Hc. clearbody w' c'. split.
  - rewrite Hw'. apply dom_insert_lookup_L. by rewrite Hc.
  - assert (c :: result CookieDB.getAll w' ≡ₚ c' :: result CookieDB.getAll w)
      as Hp.
    { rewrite !cookie_getAll_perm, Hw'.
      by apply (values_scan_overwrite _ _ (VCookie c) (VCookie c')). }
    apply Permutation_length in Hp. cbn [length] in Hp. lia.
Qed.

(** X8.  [CookieDB.update] never moves a row.  A patch that names another
    [id] changes the [id] field of the cookie stored under the old key and
    nothing else: [get] of the old id returns a cookie that carries the new
    id, [get] of the new id returns what it returned before, and [getAll]
    lists the cookie with the new id. *)
Theorem X8_update_never_rekeys (id id2 : string) (u : Cookie.partial)
    (w : World) (c : Cookie.t) :
  result (CookieDB.get id) w = Some c →
  Cookie.p_id u = Some id2 →
  id2 ≠ id →
  let w' := after (CookieDB.update id u) w in
  ∃ c', result (CookieDB.get id) w' = Some c'
        ∧ Cookie.id c' = id2
        ∧ result (CookieDB.get id2) w' = result (CookieDB.get id2) w
        ∧ c' ∈ result CookieDB.getAll w'.
Proof.
  intros Hc Hu Hne w'.
  pose proof (cookie_get_after_update id u w c Hc) as Hget. fold w' in Hget.
  assert (kv_data w'
          = <[makeKey (CookieDB.PREFIX ++ [SStr id]) :=
                VCookie (Cookie.with_updatedAt (Cookie.merge c u)
                           (result Date_now w))]> (kv_data w)) as Hw'.
  { unfold w', after. by rewrite (cookie_update_run _ _ _ _ Hc). }
  clearbody w'. eexists. split; [exact Hget|]. split; [|split].
  - cbn. by rewrite Hu.
  - by eapply cookie_get_other.
  - apply elem_of_cookie_getAll. eexists. split.
    + by apply cookie_get_Some.
    + apply cookie_key_starts.
Qed.

Lemma X8_update_never_rekeys_witness :
  let u := {| Cookie.p_id := Some "id-9"; Cookie.p_value := None;
              Cookie.p_isValid := None; Cookie.p_failCount := None;
              Cookie.p_isDefault := None; Cookie.p_createdAt := None;
              Cookie.p_updatedAt := None |} in
  let w' := after (CookieDB.update "id-3" u) busy_world in
  ∃ c', result (CookieDB.get "id-3") w' = Some c'
        ∧ Cookie.id c' = "id-9"
        ∧ result (CookieDB.get "id-9") w'
          = result (CookieDB.get "id-9") busy_world
        ∧ c' ∈ result CookieDB.getAll w'.
Proof.
  intros u.
  exact (X8_update_never_rekeys "id-3" "id-9" u busy_world _
           busy_world_cookie eq_refl ltac:(discriminate)).
Defined.

Lemma cookie_delete_run (id : string) (w : World) (c : Cookie.t) :
  result (CookieDB.get id) w = Some c → Cookie.isDefault c = false →
  CookieDB.delete id w
  = (true,
     with_kv w (delete (makeKey (CookieDB.PREFIX ++ [SStr id])) (kv_data w))).
Proof. intros H Hd. run. repeat (rewrite H; fields). by rewrite Hd. Qed.

Lemma cookie_delete_kept (id : string) (w : World) :
  match result (CookieDB.get id) w with
  | None => True
  | Some c => Cookie.isDefault c = true
  end →
  CookieDB.delete id w = (false, w).
Proof.
  destruct (result (CookieDB.get id) w) as [c|] eqn:H; intros Hd; run;
    repeat (rewrite H; fields); [by rewrite Hd|done].
Qed.

Lemma apikey_delete_run (id : string) (w : World) (a : ApiKey.t) :
  result (ApiKeyDB.get id) w = Some a → ApiKey.isDefault a = false →
  ApiKeyDB.delete id w
  = (true,
     with_kv w (delete (makeKey (ApiKeyDB.PREFIX ++ [SStr id])) (kv_data w))).
Proof. intros H Hd. run. repeat (rewrite H; fields). by rewrite Hd. Qed.

Lemma apikey_delete_kept (id : string) (w : World) :
  match result (ApiKeyDB.get id) w with
  | None => True
  | Some a => ApiKey.isDefault a = true
  end →
  ApiKeyDB.delete id w = (false, w).
Proof.
  destruct (result (ApiKeyDB.get id) w) as [a|] eqn:H; intros Hd; run;
    repeat (rewrite H; fields); [by rewrite Hd|done].
Qed.

(** X9.  What [delete(id)] does to the listing, for cookies and for API
    keys: when it removes the entity stored under [id], [getAll] loses
    exactly that entity; in every case each entity listed afterwards was
    listed before, and a default entity that was listed is still
    listed. *)
Theorem X9_delete_listing (id : string) (w : World) :
  let wc := after (CookieDB.delete id) w in
  let wa := after (ApiKeyDB.delete id) w in
  (∀ c, result (CookieDB.get id) w = Some c → Cookie.isDefault c = false →
        c :: result CookieDB.getAll wc ≡ₚ result CookieDB.getAll w)
  ∧ (∀ c, c ∈ result CookieDB.getAll wc → c ∈ result CookieDB.getAll w)
  ∧ (∀ c, c ∈ result CookieDB.getAll w → Cookie.isDefault c = true →
          c ∈ result CookieDB.getAll wc)
  ∧ (∀ a, result (ApiKeyDB.get id) w = Some a → ApiKey.isDefault a = false →
          a :: result ApiKeyDB.getAll wa ≡ₚ result ApiKeyDB.getAll w)
  ∧ (∀ a, a ∈ result ApiKeyDB.getAll wa → a ∈ result ApiKeyDB.getAll w)
  ∧ (∀ a, a ∈ result ApiKeyDB.getAll w → ApiKey.isDefault a = true →
          a ∈ result ApiKeyDB.getAll wa).
Proof.
  intros wc wa.
  assert (∀ c, result (CookieDB.get id) w = Some c →
               Cookie.isDefault c = false →
               c :: result CookieDB.getAll wc ≡ₚ result CookieDB.getAll w)
    as Hc.
  { intros c Hget Hd. rewrite !cookie_getAll_perm.
    unfold wc, after. rewrite (cookie_delete_run _ _ _ Hget Hd).
    cbn [snd with_kv kv_data].
    apply (values_scan_take_out _ _ (VCookie c));
      [by apply cookie_get_Some|apply cookie_key_prefix|done]. }
  assert (∀ a, result (ApiKeyDB.get id) w = Some a →
               ApiKey.isDefault a = false →
               a :: result ApiKeyDB.getAll wa ≡ₚ result ApiKeyDB.getAll w)
    as Ha.
  { intros a Hget Hd. rewrite !apikey_getAll_perm.
    unfold wa, after. rewrite (apikey_delete_run _ _ _ Hget Hd).
    cbn [snd with_kv kv_data].
    apply (values_scan_take_out _ _ (VApiKey a));
      [by apply apikey_get_Some|apply apikey_key_prefix|done]. }
  split; [exact Hc|]. split; [|split; [|split; [exact Ha|split]]].
  - intros c Hin.
    destruct (result (CookieDB.get id) w) as [c0|] eqn:Hget;
      [destruct (Cookie.isDefault c0) eqn:Hd|].
    + unfold wc, after in Hin. rewrite cookie_delete_kept in Hin; [done|].
      by rewrite Hget.
    + rewrite <-(Hc c0 eq_refl Hd). by apply list_elem_of_further.
    + unfold wc, after in Hin. rewrite cookie_delete_kept in Hin; [done|].
      by rewrite Hget.
  - intros c Hin Hdef.
    destruct (result (CookieDB.get id) w) as [c0|] eqn:Hget;
      [destruct (Cookie.isDefault c0) eqn:Hd|].
    + unfold wc, after. rewrite cookie_delete_kept; [done|]. by rewrite Hget.
    + rewrite <-(Hc c0 eq_refl Hd) in Hin.
      apply elem_of_cons in Hin as [->|Hin]; [congruence|done].
    + unfold wc, after. rewrite cookie_delete_kept; [done|]. by rewrite Hget.
  - intros a Hin.
    destruct (result (ApiKeyDB.get id) w) as [a0|] eqn:Hget;
      [destruct (ApiKey.isDefault a0) eqn:Hd|].
    + unfold wa, after in Hin. rewrite apikey_delete_kept in Hin; [done|].
      by rewrite Hget.
    + rewrite <-(Ha a0 eq_refl Hd). by apply list_elem_of_further.
    + unfold wa, after in Hin. rewrite apikey_delete_kept in Hin; [done|].
      by rewrite Hget.
  - intros a Hin Hdef.
    destruct (result (ApiKeyDB.get id) w) as [a0|] eqn:Hget;
      [destruct (ApiKey.isDefault a0) eqn:Hd|].
    + unfold wa, after. rewrite apikey_delete_kept; [done|]. by rewrite Hget.
    + rewrite <-(Ha a0 eq_refl Hd) in Hin.
      apply elem_of_cons in Hin as [->|Hin]; [congruence|done].
    + unfold wa, after. rewrite apikey_delete_kept; [done|]. by rewrite Hget.
Qed.

(** ** Cookie health over many failures *)

Lemma times_S (n : nat) (m : IO unit) (w : World) :
  after (times (S n) m) w = after (times n m) (after m w).
Proof. unfold after. cbn [times]. by rewrite bind_run. Qed.

(** X10.  While the count stays among the integers that a JavaScript
    number holds exactly (from -2^53 to 2^53), [n] calls of
    [incrementFailCount(id)] on a stored cookie add [n] to its
    [failCount], and go on counting past [Config.MAX_FAIL_NUM]; after the
    last of them (when there is one) [isValid] says whether the count is
    below [Config.MAX_FAIL_NUM]; the cookie keeps its id, value, default
    flag and creation time. *)
Theorem X10_failures_accumulate (cfg : Config) (id : string) (n : nat)
    (w : World) (c : Cookie.t) :
  result (CookieDB.get id) w = Some c →
  - 2 ^ 53 ≤ Cookie.failCount c →
  Cookie.failCount c + Z.of_nat n ≤ 2 ^ 53 →
  ∃ c', result (CookieDB.get id)
          (after (times n (CookieDB.incrementFailCount cfg id)) w) = Some c'
        ∧ Cookie.failCount c' = Cookie.failCount c + Z.of_nat n
        ∧ (n ≠ 0%nat →
           Cookie.isValid c'
           = (Cookie.failCount c + Z.of_nat n <? MAX_FAIL_NUM cfg))
        ∧ (Cookie.id c', Cookie.value c', Cookie.isDefault c',
           Cookie.createdAt c')
          = (Cookie.id c, Cookie.value c, Cookie.isDefault c,
             Cookie.createdAt c).
Proof.
  revert w c. induction n as [|n IH]; intros w c Hc Hlo Hhi.
  - exists c. split; [exact Hc|]. split; [lia|]. split; [done|done].
  - rewrite times_S.
    pose proof (cookie_increment_run cfg id w c Hc) as H1.
    destruct (IH _ _ H1) as (c' & Hget & Hfc & Hv & Hrest);
      [cbn [Cookie.failCount]; lia..|].
    exists c'. split; [exact Hget|]. cbn in Hfc, Hv, Hrest.
    split; [lia|]. split; [|exact Hrest].
    intros _. destruct n as [|n'].
    + cbn [times after ret snd] in Hget. rewrite H1 in Hget.
      injection Hget as <-. cbn. f_equal.
    + rewrite Hv by done. f_equal. lia.
Qed.

Lemma X10_failures_accumulate_witness :
  ∃ c', result (CookieDB.get "id-3")
          (after (times 5 (CookieDB.incrementFailCount demo_config "id-3"))
             busy_world) = Some c'
        ∧ Cookie.failCount c' = 0 + 5
        ∧ (5%nat ≠ 0%nat → Cookie.isValid c' = (0 + 5 <? 3))
        ∧ (Cookie.id c', Cookie.value c', Cookie.isDefault c',
           Cookie.createdAt c')
          = ("id-3", "cookie-c", false, 1700000000005).
Proof.
  apply (X10_failures_accumulate demo_config "id-3" 5 busy_world _
           busy_world_cookie); cbn [Cookie.failCount]; lia.
Defined.


Lemma filter_sublist {A} (p : A → bool) (l : list A) :
  sublist (List.filter p l) l.
Proof.
  induction l as [|x l IH]; cbn; [constructor|].
  destruct (p x); by constructor.
Qed.


(** ** Writers of one collection leave the others alone *)

Lemma only_cookies_untouched (w w' : World) :
  untouched_outside (makeKey CookieDB.PREFIX) w w' → only_cookies w w'.
Proof.
  intros Hu. split; [|split; [|split]].
  - apply same_apikeys_scan, (scan_untouched _ _ _ _ (λ k, selects_disjoint
      "a" "c" _ _ k eq_refl eq_refl ltac:(discriminate)) Hu).
  - apply same_logs_scan, (scan_untouched _ _ _ _ (λ k, selects_disjoint
      "l" "c" _ _ k eq_refl eq_refl ltac:(discriminate)) Hu).
  - by apply (same_settings_untouched (makeKey CookieDB.PREFIX)).
  - by apply (same_models_untouched (makeKey CookieDB.PREFIX)).
Qed.

Lemma cookie_update_untouched (id : string) (u : Cookie.partial) (w : World) :
  untouched_outside (makeKey CookieDB.PREFIX) w
    (after (CookieDB.update id u) w).
Proof.
  destruct (result (CookieDB.get id) w) as [c|] eqn:Hc.
  - unfold after. rewrite (cookie_update_run _ _ _ _ Hc).
    by eapply untouched_insert; [apply (cookie_key_prefix id)|].
  - unfold after. rewrite (cookie_update_absent _ _ _ Hc).
    by apply untouched_refl.
Qed.

(** X12.  [add], [update], [delete], [incrementFailCount] and
    [resetFailCount] of [CookieDB] change nothing that the readers of the
    API keys, of the request logs, of the system settings or of the model
    mappings return. *)
Theorem X12_cookie_writers_frame (cfg : Config) (w : World) :
  (∀ f, only_cookies w (after (CookieDB.add f) w))
  ∧ (∀ id u, only_cookies w (after (CookieDB.update id u) w))
  ∧ (∀ id, only_cookies w (after (CookieDB.delete id) w))
  ∧ (∀ id, only_cookies w (after (CookieDB.incrementFailCount cfg id) w))
  ∧ (∀ id, only_cookies w (after (CookieDB.resetFailCount id) w)).
Proof.
  split; [|split; [|split; [|split]]].
  - intros f. apply only_cookies_untouched.
    unfold after. rewrite cookie_add_run.
    by eapply untouched_insert; [apply cookie_key_prefix|].
  - intros id u. apply only_cookies_untouched, cookie_update_untouched.
  - intros id. apply only_cookies_untouched.
    destruct (result (CookieDB.get id) w) as [c|] eqn:Hc;
      [destruct (Cookie.isDefault c) eqn:Hd|].
    + unfold after. rewrite cookie_delete_kept by by rewrite Hc.
      by apply untouched_refl.
    + unfold after. rewrite (cookie_delete_run _ _ _ Hc Hd).
      by eapply untouched_delete; [apply (cookie_key_prefix id)|].
    + unfold after. rewrite cookie_delete_kept by by rewrite Hc.
      by apply untouched_refl.
  - intros id. apply only_cookies_untouched.
    destruct (result (CookieDB.get id) w) as [c|] eqn:Hc.
    + unfold after, CookieDB.incrementFailCount. rewrite bind_run, Hc.
      rewrite bind_run. cbn [ret snd]. apply cookie_update_untouched.
    + unfold after. rewrite (cookie_increment_absent _ _ _ Hc).
      by apply untouched_refl.
  - intros id. apply only_cookies_untouched.
    unfold after, CookieDB.resetFailCount. rewrite bind_run. cbn [ret snd].
    apply cookie_update_untouched.
Qed.

(** ** API keys, one at a time *)

Lemma apikey_update_run (id : string) (u : ApiKey.partial) (w : World)
    (a : ApiKey.t) :
  result (ApiKeyDB.get id) w = Some a →
  ApiKeyDB.update id u w
  = (true,
     with_kv w
       (<[makeKey (ApiKeyDB.PREFIX ++ [SStr id]) := VApiKey (ApiKey.merge a u)]>
          (kv_data w))).
Proof. intros H. run. by repeat (rewrite H; fields). Qed.

Lemma apikey_update_absent (id : string) (u : ApiKey.partial) (w : World) :
  result (ApiKeyDB.get id) w = None → ApiKeyDB.update id u w = (false, w).
Proof. intros H. run. by repeat (rewrite H; fields). Qed.

Lemma apikey_get_other (id id' : string) (v : value) (w w' : World) :
  id' ≠ id →
  kv_data w' = <[makeKey (ApiKeyDB.PREFIX ++ [SStr id]) := v]> (kv_data w) →
  result (ApiKeyDB.get id') w' = result (ApiKeyDB.get id') w.
Proof.
  intros Hne E. run. rewrite E, lookup_insert_ne; [done|].
  by intros ?%apikey_key_inj.
Qed.

Lemma apikey_getByKey_some (key : string) (w : World) (a : ApiKey.t) :
  result (ApiKeyDB.getByKey key) w = Some a →
  stored_apikey w a ∧ ApiKey.key a = key.
Proof.
  unfold result at 1. rewrite apikey_getByKey_run. cbn [fst].
  intros [Hin Hk]%find_some. split.
  - by apply elem_of_apikey_getAll, list_elem_of_In.
  - by apply String.eqb_eq.
Qed.

(** X13.  [ApiKeyDB.add] returns a key with the id it drew, the fields it
    was given and [requestCount = 0]; a [get] of that id then returns it
    and a [get] of any other id returns what it returned before.  When no
    row was stored under the new id, [getAll] gains exactly the new key,
    and when also no stored key had its [key] field, [getByKey] of that
    field now finds the new key. *)
Theorem X13_apikey_add_get (f : ApiKey.fields) (w : World) :
  let a := result (ApiKeyDB.add f) w in
  let w' := after (ApiKeyDB.add f) w in
  let k := makeKey (ApiKeyDB.PREFIX ++ [SStr (ApiKey.id a)]) in
  ApiKey.id a = result randomUUID w
  ∧ (ApiKey.key a, ApiKey.isEnabled a, ApiKey.isDefault a,
     ApiKey.requestCount a)
    = (ApiKey.f_key f, ApiKey.f_isEnabled f, ApiKey.f_isDefault f, 0)
  ∧ result (ApiKeyDB.get (ApiKey.id a)) w' = Some a
  ∧ (∀ id, id ≠ ApiKey.id a →
           result (ApiKeyDB.get id) w' = result (ApiKeyDB.get id) w)
  ∧ (kv_data w !! k = None →
     result ApiKeyDB.getAll w' ≡ₚ a :: result ApiKeyDB.getAll w)
  ∧ (kv_data w !! k = None →
     result (ApiKeyDB.getByKey (ApiKey.f_key f)) w = None →
     result (ApiKeyDB.getByKey (ApiKey.f_key f)) w' = Some a).
Proof.
  intros a w' k.
  assert (kv_data w' = <[k := VApiKey a]> (kv_data w)) as Hw'.
  { unfold w', after, a, result, k. by rewrite apikey_add_run. }
  assert (ApiKey.key a = ApiKey.f_key f) as Hkey by done.
  split; [done|]. split; [done|]. split.
  { apply apikey_get_Some. fold k. by rewrite Hw', lookup_insert_eq. }
  split.
  { intros id Hne. by apply (apikey_get_other (ApiKey.id a) id (VApiKey a)). }
  clearbody a w'.
  assert (kv_data w !! k = None →
          result ApiKeyDB.getAll w' ≡ₚ a :: result ApiKeyDB.getAll w) as Hall.
  { intros Hfree. rewrite !apikey_getAll_perm, Hw'.
    by apply values_scan_insert. }
  split; [exact Hall|].
  intros Hfree Hnone.
  destruct (result (ApiKeyDB.getByKey (ApiKey.f_key f)) w') as [b|] eqn:E.
  - apply apikey_getByKey_some in E as [Hb Hbk].
    apply elem_of_apikey_getAll in Hb. rewrite (Hall Hfree) in Hb.
    apply elem_of_cons in Hb as [->|Hb]; [done|].
    apply elem_of_apikey_getAll in Hb.
    by destruct (proj1 (apikey_getByKey_none _ _) Hnone b Hb).
  - exfalso. apply (proj1 (apikey_getByKey_none _ _) E a); [|done].
    apply elem_of_apikey_getAll. rewrite (Hall Hfree). apply list_elem_of_here.
Qed.

(** X14.  [incrementRequestCount(key)] when [getByKey] finds the key [a],
    whose count is among the integers that a JavaScript number can add 1
    to exactly (from -2^53 to below 2^53): no clock is read and no id is
    drawn.  If no row is stored under the id
    that [a] carries, nothing is written.  Otherwise the row under that id
    is rewritten as the entity [b] it held with [requestCount] set to the
    count of [a] plus one, and no other row changes; so when [a] sits in
    the row of its own id, its count goes up by one and its other fields
    stay. *)
Theorem X14_incrementRequestCount (key : string) (w : World)
    (a : ApiKey.t) :
  result (ApiKeyDB.getByKey key) w = Some a →
  - 2 ^ 53 ≤ ApiKey.requestCount a < 2 ^ 53 →
  let w' := after (ApiKeyDB.incrementRequestCount key) w in
  let k := makeKey (ApiKeyDB.PREFIX ++ [SStr (ApiKey.id a)]) in
  match result (ApiKeyDB.get (ApiKey.id a)) w with
  | None => w' = w
  | Some b =>
      w' = with_kv w
             (<[k := VApiKey
                  {| ApiKey.id := ApiKey.id b; ApiKey.key := ApiKey.key b;
                     ApiKey.isEnabled := ApiKey.isEnabled b;
                     ApiKey.isDefault := ApiKey.isDefault b;
                     ApiKey.createdAt := ApiKey.createdAt b;
                     ApiKey.requestCount := ApiKey.requestCount a + 1 |}]>
                (kv_data w))
      ∧ (∀ id, id ≠ ApiKey.id a →
               result (ApiKeyDB.get id) w' = result (ApiKeyDB.get id) w)
  end.
Proof.
  intros Hfind _ w' k.
  assert (w' = after (ApiKeyDB.update (ApiKey.id a)
                        {| ApiKey.p_id := None; ApiKey.p_key := None;
                           ApiKey.p_isEnabled := None;
                           ApiKey.p_isDefault := None;
                           ApiKey.p_createdAt := None;
                           ApiKey.p_requestCount :=
                             Some (ApiKey.requestCount a + 1) |}) w) as Hw'.
  { unfold w', after at 1, ApiKeyDB.incrementRequestCount.
    rewrite bind_run, Hfind, bind_run. done. }
  clearbody w'.
  destruct (result (ApiKeyDB.get (ApiKey.id a)) w) as [b|] eqn:Hb.
  - unfold after in Hw'. rewrite (apikey_update_run _ _ _ _ Hb) in Hw'.
    cbn [snd] in Hw'. split; [exact Hw'|].
    intros id Hne. eapply apikey_get_other; [exact Hne|].
    rewrite Hw'. reflexivity.
  - unfold after in Hw'. by rewrite (apikey_update_absent _ _ _ Hb) in Hw'.
Qed.

Example busy_world_getByKey :
  result (ApiKeyDB.getByKey "sk-user") busy_world
  = Some {| ApiKey.id := "id-4"; ApiKey.key := "sk-user";
            ApiKey.isEnabled := true; ApiKey.isDefault := false;
            ApiKey.createdAt := 1700000000007; ApiKey.requestCount := 0 |}.
Proof. vm_compute. reflexivity. Qed.

Lemma X14_incrementRequestCount_witness :
  let a := {| ApiKey.id := "id-4"; ApiKey.key := "sk-user";
              ApiKey.isEnabled := true; ApiKey.isDefault := false;
              ApiKey.createdAt := 1700000000007;
              ApiKey.requestCount := 0 |} in
  let w' := after (ApiKeyDB.incrementRequestCount "sk-user") busy_world in
  let k := makeKey (ApiKeyDB.PREFIX ++ [SStr (ApiKey.id a)]) in
  match result (ApiKeyDB.get (ApiKey.id a)) busy_world with
  | None => w' = busy_world
  | Some b =>
      w' = with_kv busy_world
             (<[k := VApiKey
                  {| ApiKey.id := ApiKey.id b; ApiKey.key := ApiKey.key b;
                     ApiKey.isEnabled := ApiKey.isEnabled b;
                     ApiKey.isDefault := ApiKey.isDefault b;
                     ApiKey.createdAt := ApiKey.createdAt b;
                     ApiKey.requestCount := ApiKey.requestCount a + 1 |}]>
                (kv_data busy_world))
      ∧ (∀ id, id ≠ ApiKey.id a →
               result (ApiKeyDB.get id) w'
               = result (ApiKeyDB.get id) busy_world)
  end.
Proof.
  intros a.
  apply (X14_incrementRequestCount "sk-user" busy_world a
           busy_world_getByKey).
  cbn [ApiKey.requestCount a]. lia.
Defined.

Lemma sole_key_found (w : World) (key : string) (a : ApiKey.t) :
  sole_key w key a → result (ApiKeyDB.getByKey key) w = Some a.
Proof.
  intros (Hrow & Hkey & Hsole).
  destruct (result (ApiKeyDB.getByKey key) w) as [b|] eqn:E.
  - apply apikey_getByKey_some in E as [(k & Hk & Hp) Hbk].
    rewrite (Hsole k b Hk Hp Hbk) in Hk. congruence.
  - exfalso. apply (proj1 (apikey_getByKey_none _ _) E a); [|done].
    eexists. split; [exact Hrow|apply apikey_key_starts].
Qed.

Lemma sole_key_step (w : World) (key : string) (a : ApiKey.t) :
  sole_key w key a →
  sole_key (after (ApiKeyDB.incrementRequestCount key) w) key
    {| ApiKey.id := ApiKey.id a; ApiKey.key := ApiKey.key a;
       ApiKey.isEnabled := ApiKey.isEnabled a;
       ApiKey.isDefault := ApiKey.isDefault a;
       ApiKey.createdAt := ApiKey.createdAt a;
       ApiKey.requestCount := ApiKey.requestCount a + 1 |}.
Proof.
  intros Hs. pose proof (sole_key_found _ _ _ Hs) as Hfind.
  destruct Hs as (Hrow & Hkey & Hsole).
  pose proof (proj2 (apikey_get_Some _ _ _) Hrow) as Hget.
  unfold after, ApiKeyDB.incrementRequestCount.
  rewrite bind_run, Hfind, bind_run.
  unfold after. rewrite (apikey_update_run _ _ _ _ Hget). unfold sole_key.
  cbn [ret snd with_kv kv_data ApiKey.merge ApiKey.id ApiKey.key
       ApiKey.p_id ApiKey.p_key ApiKey.p_isEnabled ApiKey.p_isDefault
       ApiKey.p_createdAt ApiKey.p_requestCount default from_option].
  split; [by rewrite lookup_insert_eq|]. split; [done|].
  intros k b Hk Hp Hbk.
  destruct (decide (k = makeKey (ApiKeyDB.PREFIX ++ [SStr (ApiKey.id a)])))
    as [->|Hne]; [done|].
  rewrite lookup_insert_ne in Hk by done. by apply (Hsole k b).
Qed.

(** X15.  Counting requests.  When the API key [a] sits in the row of its
    own id and is the only stored key with its [key] field, and while its
    count stays among the integers that a JavaScript number holds exactly
    (from -2^53 to 2^53), [n] calls of [incrementRequestCount(key)] leave
    it so, with [requestCount] raised by [n] and every other field as it
    was. *)
Theorem X15_requests_counted (n : nat) (w : World) (key : string)
    (a : ApiKey.t) :
  sole_key w key a →
  - 2 ^ 53 ≤ ApiKey.requestCount a →
  ApiKey.requestCount a + Z.of_nat n ≤ 2 ^ 53 →
  sole_key (after (times n (ApiKeyDB.incrementRequestCount key)) w) key
    {| ApiKey.id := ApiKey.id a; ApiKey.key := ApiKey.key a;
       ApiKey.isEnabled := ApiKey.isEnabled a;
       ApiKey.isDefault := ApiKey.isDefault a;
       ApiKey.createdAt := ApiKey.createdAt a;
       ApiKey.requestCount := ApiKey.requestCount a + Z.of_nat n |}.
Proof.
  revert w a. induction n as [|n IH]; intros w a Hs Hlo Hhi.
  - cbn [times after ret snd]. rewrite Z.add_0_r. by destruct a.
  - rewrite times_S. apply sole_key_step, IH in Hs;
      [|cbn [ApiKey.requestCount]; lia..].
    cbn [ApiKey.id ApiKey.key ApiKey.isEnabled ApiKey.isDefault
         ApiKey.createdAt ApiKey.requestCount] in Hs.
    by replace (ApiKey.requestCount a + Z.of_nat (S n))
      with (ApiKey.requestCount a + 1 + Z.of_nat n) by lia.
Qed.

Lemma busy_world_sole_key :
  sole_key busy_world "sk-user"
    {| ApiKey.id := "id-4"; ApiKey.key := "sk-user";
       ApiKey.isEnabled := true; ApiKey.isDefault := false;
       ApiKey.createdAt := 1700000000007; ApiKey.requestCount := 0 |}.
Proof.
  split; [vm_compute; reflexivity|]. split; [reflexivity|].
  intros k b Hk Hp Hbk.
  assert (k ∈ dom (kv_data busy_world)) as Hs.
  { apply elem_of_dom. exists (VApiKey b). exact Hk. }
  assert (dom (kv_data busy_world)
          = list_to_set (C:=gset string)
              ["cookies:id-0"; "cookies:id-1"; "apikeys:id-2";
               "cookies:id-3"; "apikeys:id-4"]) as E
    by (vm_compute; reflexivity).
  rewrite E in Hs. clear E.
  rewrite elem_of_list_to_set, !elem_of_cons, elem_of_nil in Hs.
  destruct Hs as [->|[->|[->|[->|[->|[]]]]]];
    first [ reflexivity
          | vm_compute in Hp; discriminate Hp
          | vm_compute in Hk; injection Hk as <-; discriminate Hbk ].
Qed.

Lemma X15_requests_counted_witness :
  sole_key (after (times 3 (ApiKeyDB.incrementRequestCount "sk-user"))
              busy_world) "sk-user"
    {| ApiKey.id := "id-4"; ApiKey.key := "sk-user";
       ApiKey.isEnabled := true; ApiKey.isDefault := false;
       ApiKey.createdAt := 1700000000007; ApiKey.requestCount := 0 + 3 |}.
Proof.
  apply (X15_requests_counted 3 busy_world _ _ busy_world_sole_key);
    cbn [ApiKey.requestCount]; lia.
Defined.

Lemma apikey_merge_nothing (a : ApiKey.t) : ApiKey.merge a ApiKey.nothing = a.
Proof. by destruct a. Qed.

Lemma apikey_merge_twice (a : ApiKey.t) (u : ApiKey.partial) :
  ApiKey.merge (ApiKey.merge a u) u = ApiKey.merge a u.
Proof.
  destruct u as [i k e d c r]. unfold ApiKey.merge. cbn.
  by destruct i, k, e, d, c, r.
Qed.

Lemma with_kv_twice (w : World) (m m' : gmap string value) :
  with_kv (with_kv w m) m' = with_kv w m'.
Proof. done. Qed.

(** X16.  [ApiKeyDB.update(id, updates)]: when [get(id)] finds nothing it
    returns [false] and leaves the world as it was; otherwise it returns
    [true] and writes one row, the stored key with the supplied fields
    over it, reading no clock.  An empty patch therefore leaves the whole
    world as it was (where [CookieDB.update] with an empty patch still
    sets [updatedAt] from the clock), and the same patch applied twice
    gives the world that applying it once gives. *)
Theorem X16_apikey_update_effect (id : string) (u : ApiKey.partial)
    (w : World) :
  match result (ApiKeyDB.get id) w with
  | None => ApiKeyDB.update id u w = (false, w)
  | Some a =>
      let w' := after (ApiKeyDB.update id u) w in
      result (ApiKeyDB.update id u) w = true
      ∧ w' = with_kv w (<[makeKey (ApiKeyDB.PREFIX ++ [SStr id]) :=
                            VApiKey (ApiKey.merge a u)]> (kv_data w))
      ∧ result (ApiKeyDB.get id) w' = Some (ApiKey.merge a u)
      ∧ (∀ id', id' ≠ id →
                result (ApiKeyDB.get id') w' = result (ApiKeyDB.get id') w)
      ∧ ApiKeyDB.update id ApiKey.nothing w = (true, w)
      ∧ after (ApiKeyDB.update id u) w' = w'
      ∧ (∀ c, result (CookieDB.get id) w = Some c →
              result (CookieDB.get id)
                (after (CookieDB.update id Cookie.nothing) w)
              = Some (Cookie.with_updatedAt c (result Date_now w))
              ∧ clock_reads (after (CookieDB.update id Cookie.nothing) w)
                = S (clock_reads w))
  end.
Proof.
  destruct (result (ApiKeyDB.get id) w) as [a|] eqn:Ha;
    [|by apply apikey_update_absent].
  intros w'.
  assert (w' = with_kv w (<[makeKey (ApiKeyDB.PREFIX ++ [SStr id]) :=
                              VApiKey (ApiKey.merge a u)]> (kv_data w)))
    as Hw'.
  { unfold w', after. by rewrite (apikey_update_run _ _ _ _ Ha). }
  assert (result (ApiKeyDB.get id) w' = Some (ApiKey.merge a u)) as Hget.
  { apply apikey_get_Some. rewrite Hw'. cbn [with_kv kv_data].
    by rewrite lookup_insert_eq. }
  split; [unfold result; by rewrite (apikey_update_run _ _ _ _ Ha)|].
  split; [exact Hw'|]. split; [exact Hget|]. clearbody w'. split.
  { intros id' Hne. eapply apikey_get_other; [exact Hne|].
    rewrite Hw'. reflexivity. }
  split; [|split].
  - rewrite (apikey_update_run _ _ _ _ Ha), apikey_merge_nothing.
    apply apikey_get_Some in Ha. rewrite (insert_id _ _ _ Ha).
    by rewrite with_kv_id.
  - unfold after. rewrite (apikey_update_run _ _ _ _ Hget).
    cbn [snd]. rewrite apikey_merge_twice, Hw', with_kv_twice.
    cbn [with_kv kv_data]. by rewrite insert_insert_eq.
  - intros c Hc. split.
    + rewrite (cookie_get_after_update _ _ _ _ Hc). by destruct c.
    + unfold after. by rewrite (cookie_update_run _ _ _ _ Hc).
Qed.

Lemma elem_of_getEnabledKeys (w : World) (a : ApiKey.t) :
  a ∈ result ApiKeyDB.getEnabledKeys w
  ↔ a ∈ result ApiKeyDB.getAll w ∧ ApiKey.isEnabled a = true.
Proof.
  unfold result at 1, ApiKeyDB.getEnabledKeys. rewrite bind_run.
  cbn [ret fst]. rewrite list_elem_of_In, filter_In, <-list_elem_of_In.
  done.
Qed.

(** X17.  [getEnabledKeys] returns the stored API keys whose [isEnabled]
    is set, in the order of [getAll].  A key just added is on that list
    exactly when it was added enabled, and after
    [update(id, {isEnabled})] the key of [id] is on the list exactly when
    the flag written is [true]. *)
Theorem X17_enabled_keys (w : World) :
  (∀ a, a ∈ result ApiKeyDB.getEnabledKeys w
        ↔ stored_apikey w a ∧ ApiKey.isEnabled a = true)
  ∧ sublist (result ApiKeyDB.getEnabledKeys w) (result ApiKeyDB.getAll w)
  ∧ after ApiKeyDB.getEnabledKeys w = w
  ∧ (∀ f, let a := result (ApiKeyDB.add f) w in
          a ∈ result ApiKeyDB.getEnabledKeys (after (ApiKeyDB.add f) w)
          ↔ ApiKey.f_isEnabled f = true)
  ∧ (∀ id a u flag,
       result (ApiKeyDB.get id) w = Some a →
       ApiKey.p_isEnabled u = Some flag →
       ApiKey.merge a u ∈ result ApiKeyDB.getEnabledKeys
                            (after (ApiKeyDB.update id u) w)
       ↔ flag = true).
Proof.
  split; [|split; [|split; [|split]]].
  - intros a. by rewrite elem_of_getEnabledKeys, elem_of_apikey_getAll.
  - unfold result at 1, ApiKeyDB.getEnabledKeys. rewrite bind_run.
    apply filter_sublist.
  - done.
  - intros f a. rewrite elem_of_getEnabledKeys, elem_of_apikey_getAll.
    split; [by intros [_ ?]|]. intros He. split; [|exact He].
    exists (makeKey (ApiKeyDB.PREFIX ++ [SStr (ApiKey.id a)])).
    split; [|apply apikey_key_starts].
    unfold after, a, result. rewrite apikey_add_run.
    cbn [fst snd advance kv_data]. by rewrite lookup_insert_eq.
  - intros id a u flag Ha Hu.
    rewrite elem_of_getEnabledKeys, elem_of_apikey_getAll.
    assert (ApiKey.isEnabled (ApiKey.merge a u) = flag) as ->
      by (cbn; by rewrite Hu).
    split; [by intros [_ ?]|]. intros He. split; [|exact He].
    exists (makeKey (ApiKeyDB.PREFIX ++ [SStr id])).
    split; [|apply apikey_key_starts].
    unfold after. rewrite (apikey_update_run _ _ _ _ Ha).
    cbn [snd with_kv kv_data]. by rewrite lookup_insert_eq.
Qed.

Lemma only_apikeys_untouched (w w' : World) :
  untouched_outside (makeKey ApiKeyDB.PREFIX) w w' → only_apikeys w w'.
Proof.
  intros Hu. split; [|split; [|split]].
  - apply same_cookies_scan, (scan_untouched _ _ _ _ (λ k, selects_disjoint
      "c" "a" _ _ k eq_refl eq_refl ltac:(discriminate)) Hu).
  - apply same_logs_scan, (scan_untouched _ _ _ _ (λ k, selects_disjoint
      "l" "a" _ _ k eq_refl eq_refl ltac:(discriminate)) Hu).
  - by apply (same_settings_untouched (makeKey ApiKeyDB.PREFIX)).
  - by apply (same_models_untouched (makeKey ApiKeyDB.PREFIX)).
Qed.

Lemma apikey_update_untouched (id : string) (u : ApiKey.partial) (w : World) :
  untouched_outside (makeKey ApiKeyDB.PREFIX) w
    (after (ApiKeyDB.update id u) w).
Proof.
  destruct (result (ApiKeyDB.get id) w) as [a|] eqn:Ha.
  - unfold after. rewrite (apikey_update_run _ _ _ _ Ha).
    by eapply untouched_insert; [apply (apikey_key_prefix id)|].
  - unfold after. rewrite (apikey_update_absent _ _ _ Ha).
    by apply untouched_refl.
Qed.

(** X18.  [add], [update], [delete] and [incrementRequestCount] of
    [ApiKeyDB] change nothing that the readers of the cookies, of the
    request logs, of the system settings or of the model mappings
    return. *)
Theorem X18_apikey_writers_frame (w : World) :
  (∀ f, only_apikeys w (after (ApiKeyDB.add f) w))
  ∧ (∀ id u, only_apikeys w (after (ApiKeyDB.update id u) w))
  ∧ (∀ id, only_apikeys w (after (ApiKeyDB.delete id) w))
  ∧ (∀ key, only_apikeys w (after (ApiKeyDB.incrementRequestCount key) w)).
Proof.
  split; [|split; [|split]].
  - intros f. apply only_apikeys_untouched.
    unfold after. rewrite apikey_add_run.
    by eapply untouched_insert; [apply apikey_key_prefix|].
  - intros id u. apply only_apikeys_untouched, apikey_update_untouched.
  - intros id. apply only_apikeys_untouched.
    destruct (result (ApiKeyDB.get id) w) as [a|] eqn:Ha;
      [destruct (ApiKey.isDefault a) eqn:Hd|].
    + unfold after. rewrite apikey_delete_kept by by rewrite Ha.
      by apply untouched_refl.
    + unfold after. rewrite (apikey_delete_run _ _ _ Ha Hd).
      by eapply untouched_delete; [apply (apikey_key_prefix id)|].
    + unfold after. rewrite apikey_delete_kept by by rewrite Ha.
      by apply untouched_refl.
  - intros key. apply only_apikeys_untouched.
    unfold after, ApiKeyDB.incrementRequestCount. rewrite bind_run.
    destruct (result (ApiKeyDB.getByKey key) w) as [a|].
    + rewrite bind_run. cbn [ret snd].
      replace (after (ApiKeyDB.getByKey key) w) with w by done.
      apply apikey_update_untouched.
    + by apply untouched_refl.
Qed.

(** ** Reading the request log *)

Lemma slice_head {A} (n : Z) (l : list A) :
  slice 0 (Some n) l
  = take (Z.to_nat (slice_index (Z.of_nat (length l)) n)) l.
Proof.
  unfold slice. cbn [from_option].
  assert (slice_index (Z.of_nat (length l)) 0 = 0) as ->.
  { unfold slice_index. destruct (Z.ltb_spec 0 0); lia. }
  by rewrite Z.sub_0_r.
Qed.

Lemma omap_length_le {A B} (f : A → option B) (l : list A) :
  (length (omap f l) ≤ length l)%nat.
Proof.
  induction l as [|x l IH]; cbn; [lia|]. destruct (f x); cbn; lia.
Qed.

Lemma filter_length_disjoint {A} (p q : A → bool) (l : list A) :
  (∀ x, p x = true → q x = false) →
  (length (List.filter p l) + length (List.filter q l) ≤ length l)%nat.
Proof.
  intros Hpq. induction l as [|x l IH]; cbn; [lia|].
  destruct (p x) eqn:Hp; [rewrite (Hpq x Hp)|destruct (q x)]; cbn; lia.
Qed.

(** X19.  [getRecent(limit)] reads without writing and returns an initial
    stretch of the stored logs in newest-first order: the first [limit] of
    them when [limit] is not negative (all of them when there are fewer),
    and all but the last [-limit] when it is negative.  Left out, [limit]
    is [Config.MAX_REQUEST_RECORD_NUM]. *)
Theorem X19_getRecent_window (cfg : Config) (limit : option Z) (w : World) :
  let all := sort RequestLogDB.newest_first (logs_of w) in
  let n := default (MAX_REQUEST_RECORD_NUM cfg) limit in
  let got := result (RequestLogDB.getRecent cfg limit) w in
  after (RequestLogDB.getRecent cfg limit) w = w
  ∧ got `prefix_of` all
  ∧ StronglySorted (by_key (λ l, - RequestLog.timestamp l)) got
  ∧ (∀ l, l ∈ got →
          ∃ k, kv_data w !! k = Some (VLog l)
               ∧ starts_with (makeKey RequestLogDB.PREFIX) k = true)
  ∧ length all = length (logs_of w)
  ∧ (0 ≤ n → length got = (Z.to_nat n `min` length all)%nat)
  ∧ (n < 0 → length got = (length all - Z.to_nat (- n))%nat).
Proof.
  intros all n got.
  assert (got = take (Z.to_nat (slice_index (Z.of_nat (length all)) n)) all)
    as Hgot by apply slice_head.
  assert (StronglySorted (by_key (λ l, - RequestLog.timestamp l)) all)
    as Hsorted by (apply sort_sorted, newest_first_key).
  clearbody got. split; [done|]. split; [|split; [|split; [|split; [|split]]]].
  - rewrite Hgot. eexists. symmetry. apply take_drop.
  - rewrite Hgot. eapply StronglySorted_app_1_l. rewrite take_drop.
    exact Hsorted.
  - intros l Hl. rewrite Hgot in Hl. apply elem_of_take in Hl as (i & Hl & _).
    apply list_elem_of_lookup_2 in Hl. unfold all in Hl.
    rewrite sort_perm in Hl. apply elem_of_values_scan in Hl
      as (k & v & Hm & Hp & Hc).
    rewrite selects_logs in Hp.
    exists k. destruct v; try discriminate Hc. injection Hc as ->. done.
  - apply sort_length.
  - intros Hn. rewrite Hgot, length_take. unfold slice_index.
    destruct (Z.ltb_spec n 0); lia.
  - intros Hn. rewrite Hgot, length_take. unfold slice_index.
    destruct (Z.ltb_spec n 0); lia.
Qed.

Lemma filter_length_le {A} (p : A → bool) (l : list A) :
  (length (List.filter p l) ≤ length l)%nat.
Proof.
  induction l as [|x l IH]; cbn; [lia|]. destruct (p x); cbn; lia.
Qed.

Lemma getRecent_all (cfg : Config) (w : World) (n : Z) :
  Z.of_nat (length (logs_of w)) ≤ n →
  length (result (RequestLogDB.getRecent cfg (Some n)) w)
  = length (logs_of w).
Proof.
  intros Hn.
  change (result (RequestLogDB.getRecent cfg (Some n)) w)
    with (slice 0 (Some n) (sort RequestLogDB.newest_first (logs_of w))).
  rewrite slice_upto by lia. rewrite length_take, sort_length. lia.
Qed.

(** X20.  [count] and [countByPath] read without writing.  The logs of one
    path are never more than the rows counted, and the logs of two
    different paths together are never more either; in a table that keeps
    the key discipline [count] is the number of logs that [getRecent] can
    return. *)
Theorem X20_log_counts (w : World) (path path' : string) :
  after RequestLogDB.count w = w
  ∧ after (RequestLogDB.countByPath path) w = w
  ∧ (result (RequestLogDB.countByPath path) w
     ≤ result RequestLogDB.count w)%nat
  ∧ (path ≠ path' →
     (result (RequestLogDB.countByPath path) w
      + result (RequestLogDB.countByPath path') w
      ≤ result RequestLogDB.count w)%nat)
  ∧ (well_typed (kv_data w) →
     ∀ cfg, result RequestLogDB.count w
            = length (result (RequestLogDB.getRecent cfg
                                (Some (Z.of_nat
                                         (result RequestLogDB.count w)))) w)).
Proof.
  assert (∀ p, result (RequestLogDB.countByPath p) w
               = length (List.filter
                           (λ l, String.eqb (RequestLog.path l) p)
                           (logs_of w))) as Hby by done.
  assert (length (logs_of w) ≤ result RequestLogDB.count w)%nat as Hle.
  { rewrite count_run. unfold stored_logs, logs_of, values.
    rewrite <-length_map_to_list. apply omap_length_le. }
  split; [done|]. split; [done|]. split; [|split].
  - rewrite Hby. etrans; [|exact Hle]. apply filter_length_le.
  - intros Hne. rewrite !Hby. etrans; [|exact Hle].
    apply filter_length_disjoint. intros l H1%String.eqb_eq.
    apply String.eqb_neq. congruence.
  - intros Hwt cfg.
    assert (result RequestLogDB.count w = length (logs_of w)) as E
      by (rewrite count_run; apply (stored_logs_typed _ Hwt)).
    rewrite getRecent_all; [done|]. rewrite E. lia.
Qed.

(** ** Appending to the request log *)

Lemma only_logs_untouched (w w' : World) :
  untouched_outside (makeKey RequestLogDB.PREFIX) w w' → only_logs w w'.
Proof.
  intros Hu. split; [|split; [|split]].
  - apply same_cookies_scan, (scan_untouched _ _ _ _ (λ k, selects_disjoint
      "c" "l" _ _ k eq_refl eq_refl ltac:(discriminate)) Hu).
  - apply same_apikeys_scan, (scan_untouched _ _ _ _ (λ k, selects_disjoint
      "a" "l" _ _ k eq_refl eq_refl ltac:(discriminate)) Hu).
  - by apply (same_settings_untouched (makeKey RequestLogDB.PREFIX)).
  - by apply (same_models_untouched (makeKey RequestLogDB.PREFIX)).
Qed.

Lemma untouched_evict (logs : list RequestLog.t) (w w' : World) :
  kv_data w' = evict logs (kv_data w) →
  untouched_outside (makeKey RequestLogDB.PREFIX) w w'.
Proof.
  intros E k Hk. rewrite E, evict_lookup.
  destruct (decide (k ∈ _)) as [Hin|]; [|done].
  apply list_elem_of_fmap in Hin as (l & -> & _).
  by rewrite log_key_prefix in Hk.
Qed.

Lemma cleanup_untouched (cfg : Config) (w : World) :
  untouched_outside (makeKey RequestLogDB.PREFIX) w
    (after (RequestLogDB.cleanup cfg) w).
Proof.
  unfold after. rewrite cleanup_run. cbv zeta.
  destruct (_ <=? _); cbn [snd].
  - by apply untouched_refl.
  - by eapply untouched_evict.
Qed.

(** X21.  [RequestLogDB.add], with the eviction it runs, draws one id,
    reads no clock, and changes nothing that the readers of the cookies,
    of the API keys, of the system settings or of the model mappings
    return, in any table and for any cap. *)
Theorem X21_log_add_frame (cfg : Config) (log : RequestLog.fields)
    (w : World) :
  let w' := after (RequestLogDB.add cfg log) w in
  only_logs w w'
  ∧ uuids_drawn w' = S (uuids_drawn w)
  ∧ clock_reads w' = clock_reads w
  ∧ uuid_source w' = uuid_source w
  ∧ clock_source w' = clock_source w.
Proof.
  intros w'.
  set (w1 := with_kv (after randomUUID w)
               (<[makeKey (RequestLogDB.key_of (appended w log)) :=
                    VLog (appended w log)]> (kv_data w))).
  assert (w' = after (RequestLogDB.cleanup cfg) w1) as Hw'.
  { unfold w', after at 1. by rewrite log_add_run. }
  assert (untouched_outside (makeKey RequestLogDB.PREFIX) w w1) as H1.
  { by eapply untouched_insert; [apply log_key_prefix|]. }
  assert (uuids_drawn w' = uuids_drawn w1 ∧ clock_reads w' = clock_reads w1
          ∧ uuid_source w' = uuid_source w1
          ∧ clock_source w' = clock_source w1) as (-> & -> & -> & ->).
  { rewrite Hw'. unfold after. rewrite cleanup_run. cbv zeta.
    by destruct (_ <=? _). }
  split; [|done].
  apply only_logs_untouched. rewrite Hw'.
  eapply untouched_trans; [exact H1|apply cleanup_untouched].
Qed.

(** X22.  The eviction settles: in a table that keeps the key discipline
    and for a cap that is not negative, an eviction pass right after
    [add], or right after another pass, finds nothing to do and leaves the
    world as it is. *)
Theorem X22_cleanup_settles (cfg : Config) (w : World) :
  well_typed (kv_data w) →
  0 ≤ MAX_REQUEST_RECORD_NUM cfg →
  (∀ log, RequestLogDB.cleanup cfg (after (RequestLogDB.add cfg log) w)
          = ((), after (RequestLogDB.add cfg log) w))
  ∧ RequestLogDB.cleanup cfg (after (RequestLogDB.cleanup cfg) w)
    = ((), after (RequestLogDB.cleanup cfg) w).
Proof.
  intros Hwt Hcap.
  assert (∀ w0, well_typed (kv_data w0) →
                RequestLogDB.cleanup cfg (after (RequestLogDB.cleanup cfg) w0)
                = ((), after (RequestLogDB.cleanup cfg) w0)) as Hsettle.
  { intros w0 Hwt0.
    pose proof (cleanup_bound cfg w0 Hwt0 Hcap) as Hb.
    assert (well_typed (kv_data (after (RequestLogDB.cleanup cfg) w0)))
      as Hwt1.
    { unfold after. rewrite cleanup_run. cbv zeta.
      destruct (_ <=? _); cbn [snd kv_data with_kv];
        [done|by apply well_typed_evict]. }
    rewrite (stored_logs_typed _ Hwt1) in Hb.
    set (w1 := after (RequestLogDB.cleanup cfg) w0) in *. clearbody w1.
    rewrite cleanup_run. cbv zeta.
    by destruct (Z.leb_spec
                   (Z.of_nat (length (values (T:=RequestLog.t)
                      (map_to_list (scan (makeKey RequestLogDB.PREFIX)
                                      (kv_data w1))))))
                   (MAX_REQUEST_RECORD_NUM cfg)); [|lia]. }
  split; [|by apply Hsettle].
  intros log.
  assert (after (RequestLogDB.add cfg log) w
          = after (RequestLogDB.cleanup cfg)
              (with_kv (after randomUUID w)
                 (<[makeKey (RequestLogDB.key_of (appended w log)) :=
                      VLog (appended w log)]> (kv_data w)))) as ->
    by (unfold after at 1; by rewrite log_add_run).
  apply Hsettle. cbn [kv_data with_kv]. by apply well_typed_insert.
Qed.

Lemma X22_cleanup_settles_witness :
  (∀ log, RequestLogDB.cleanup demo_config
            (after (RequestLogDB.add demo_config log) busy_world)
          = ((), after (RequestLogDB.add demo_config log) busy_world))
  ∧ RequestLogDB.cleanup demo_config
      (after (RequestLogDB.cleanup demo_config) busy_world)
    = ((), after (RequestLogDB.cleanup demo_config) busy_world).
Proof.
  apply (X22_cleanup_settles demo_config busy_world busy_world_typed).
  vm_compute. discriminate.
Defined.

(** ** The two singletons *)

Lemma settings_update_run (cfg : Config) (s : jsobject) (w : World) :
  SystemSettingsDB.update cfg s w
  = (spread (result (SystemSettingsDB.get cfg) w) s,
     with_kv w
       (<[makeKey SystemSettingsDB.KEY :=
            VSettings (spread (result (SystemSettingsDB.get cfg) w) s)]>
          (kv_data w))).
Proof. reflexivity. Qed.

Lemma settings_get_stored (cfg : Config) (w : World) (s : SystemSettings) :
  kv_data w !! makeKey SystemSettingsDB.KEY = Some (VSettings s) →
  result (SystemSettingsDB.get cfg) w = s.
Proof. intros H. run. by rewrite H. Qed.

(** X23.  [SystemSettingsDB.update(settings)] on the current record (the
    stored one, or the configured default): every key of [settings] takes
    its new value and every other key keeps its current one; a [get]
    afterwards returns what [update] returned, whatever the configured
    default is by then, so an empty patch stores the current record, a
    default included.  Two updates in a row are one update with the second
    patch laid over the first, and repeating an update changes nothing. *)
Theorem X23_settings_update (cfg : Config) (s1 s2 : jsobject) (w : World) :
  let cur := result (SystemSettingsDB.get cfg) w in
  let new := result (SystemSettingsDB.update cfg s1) w in
  let w1 := after (SystemSettingsDB.update cfg s1) w in
  (∀ key, new !! key = match s1 !! key with
                       | Some v => Some v
                       | None => cur !! key
                       end)
  ∧ (∀ cfg', result (SystemSettingsDB.get cfg') w1 = new)
  ∧ SystemSettingsDB.update cfg ∅ w
    = (cur, with_kv w (<[makeKey SystemSettingsDB.KEY := VSettings cur]>
                         (kv_data w)))
  ∧ after (SystemSettingsDB.update cfg s2) w1
    = after (SystemSettingsDB.update cfg (spread s1 s2)) w
  ∧ after (SystemSettingsDB.update cfg s1) w1 = w1.
Proof.
  intros cur new w1.
  assert (new = spread cur s1) as Hnew by done.
  assert (w1 = with_kv w (<[makeKey SystemSettingsDB.KEY := VSettings new]>
                            (kv_data w))) as Hw1 by done.
  assert (∀ cfg', result (SystemSettingsDB.get cfg') w1 = new) as Hget.
  { intros cfg'. apply settings_get_stored. rewrite Hw1.
    cbn [with_kv kv_data]. by rewrite lookup_insert_eq. }
  clearbody new w1. split; [|split; [exact Hget|split; [|split]]].
  - intros key. rewrite Hnew. unfold spread. rewrite lookup_union.
    destruct (s1 !! key), (cur !! key); done.
  - rewrite settings_update_run. fold cur. unfold spread.
    by rewrite (left_id_L ∅ (∪)).
  - unfold after. rewrite !settings_update_run. cbn [snd].
    rewrite Hget. fold cur. rewrite Hw1, with_kv_twice.
    cbn [with_kv kv_data]. rewrite insert_insert_eq, Hnew. unfold spread.
    by rewrite (assoc_L (∪)).
  - unfold after. rewrite settings_update_run. cbn [snd].
    rewrite Hget, Hw1, with_kv_twice. cbn [with_kv kv_data].
    rewrite insert_insert_eq, Hnew. unfold spread.
    by rewrite (assoc_L (∪)), (idemp_L (∪)).
Qed.

Lemma only_settings_untouched (w w' : World) :
  untouched_outside (makeKey SystemSettingsDB.KEY) w w' →
  only_settings w w'.
Proof.
  intros Hu. split; [|split; [|split]].
  - apply same_cookies_scan, (scan_untouched _ _ _ _ (λ k, selects_disjoint
      "c" "s" _ _ k eq_refl eq_refl ltac:(discriminate)) Hu).
  - apply same_apikeys_scan, (scan_untouched _ _ _ _ (λ k, selects_disjoint
      "a" "s" _ _ k eq_refl eq_refl ltac:(discriminate)) Hu).
  - apply same_logs_scan, (scan_untouched _ _ _ _ (λ k, selects_disjoint
      "l" "s" _ _ k eq_refl eq_refl ltac:(discriminate)) Hu).
  - by apply (same_models_untouched (makeKey SystemSettingsDB.KEY)).
Qed.

Lemma only_models_untouched (w w' : World) :
  untouched_outside (makeKey ModelMappingDB.KEY) w w' →
  only_models w w'.
Proof.
  intros Hu. split; [|split; [|split]].
  - apply same_cookies_scan, (scan_untouched _ _ _ _ (λ k, selects_disjoint
      "c" "s" _ _ k eq_refl eq_refl ltac:(discriminate)) Hu).
  - apply same_apikeys_scan, (scan_untouched _ _ _ _ (λ k, selects_disjoint
      "a" "s" _ _ k eq_refl eq_refl ltac:(discriminate)) Hu).
  - apply same_logs_scan, (scan_untouched _ _ _ _ (λ k, selects_disjoint
      "l" "s" _ _ k eq_refl eq_refl ltac:(discriminate)) Hu).
  - by apply (same_settings_untouched (makeKey ModelMappingDB.KEY)).
Qed.

(** X24.  The two singletons share the key segment [settings] and still do
    not meet: [SystemSettingsDB.update] changes nothing that the readers of
    the model mappings, of the cookies, of the API keys or of the request
    logs return, and [ModelMappingDB.update] changes nothing that the
    readers of the system settings or of the three collections return.
    Neither [get] writes, not even the default it falls back to. *)
Theorem X24_singletons_frame (cfg : Config) (w : World) :
  (∀ s, only_settings w (after (SystemSettingsDB.update cfg s) w))
  ∧ (∀ ms, only_models w (after (ModelMappingDB.update ms) w))
  ∧ after (SystemSettingsDB.get cfg) w = w
  ∧ after (ModelMappingDB.get cfg) w = w.
Proof.
  split; [|split; [|done]].
  - intros s. apply only_settings_untouched.
    eapply (untouched_insert _ (makeKey SystemSettingsDB.KEY));
      [reflexivity|].
    unfold after. rewrite settings_update_run. reflexivity.
  - intros ms. apply only_models_untouched.
    eapply (untouched_insert _ (makeKey ModelMappingDB.KEY));
      [reflexivity|reflexivity].
Qed.

(** ** The bootstrap, further *)

(** A list built index by index with keys that grow with the index is in
    order and has no two equal keys. *)
Lemma imap_sorted {A B} (key : B → Z) (f : nat → A → B) (l : list A) :
  (∀ i j a b, (i < j)%nat → key (f i a) < key (f j b)) →
  StronglySorted (by_key key) (imap f l) ∧ NoDup (key <$> imap f l).
Proof.
  revert f. induction l as [|x l IH]; intros f Hf.
  - split; constructor.
  - cbn [imap]. destruct (IH (f ∘ S)) as [Hs Hn].
    { intros i j a b Hij. apply Hf. lia. }
    split.
    + constructor; [exact Hs|]. apply Forall_forall.
      intros y (i & a & -> & _)%elem_of_lookup_imap.
      unfold by_key. specialize (Hf 0%nat (S i) x a). cbn. lia.
    + rewrite fmap_cons. constructor; [|exact Hn].
      intros (y & E & (i & a & -> & _)%elem_of_lookup_imap)%list_elem_of_fmap.
      specialize (Hf 0%nat (S i) x a). cbn in E. lia.
Qed.

Lemma cookie_getAll_in_order (w : World) (l : list Cookie.t) :
  result CookieDB.getAll w ≡ₚ l →
  StronglySorted (by_key Cookie.createdAt) l →
  NoDup (Cookie.createdAt <$> l) →
  result CookieDB.getAll w = l.
Proof.
  intros Hp Hs Hn. rewrite cookie_getAll_perm in Hp.
  unfold result. rewrite cookie_getAll_run. cbn [fst].
  assert (∀ a b : Cookie.t,
            Cookie.createdAt a - Cookie.createdAt b ≤ 0
            ↔ Cookie.createdAt a ≤ Cookie.createdAt b) as Hcmp by (intros; lia).
  rewrite (sort_perm_invariant _ Cookie.createdAt Hcmp _ _ Hp)
    by by rewrite Hp.
  by apply (sort_sorted_id _ Cookie.createdAt).
Qed.

Lemma apikey_getAll_in_order (w : World) (l : list ApiKey.t) :
  result ApiKeyDB.getAll w ≡ₚ l →
  StronglySorted (by_key ApiKey.createdAt) l →
  NoDup (ApiKey.createdAt <$> l) →
  result ApiKeyDB.getAll w = l.
Proof.
  intros Hp Hs Hn. rewrite apikey_getAll_perm in Hp.
  unfold result. rewrite apikey_getAll_run. cbn [fst].
  assert (∀ a b : ApiKey.t,
            ApiKey.createdAt a - ApiKey.createdAt b ≤ 0
            ↔ ApiKey.createdAt a ≤ ApiKey.createdAt b) as Hcmp by (intros; lia).
  rewrite (sort_perm_invariant _ ApiKey.createdAt Hcmp _ _ Hp)
    by by rewrite Hp.
  by apply (sort_sorted_id _ ApiKey.createdAt).
Qed.

(** X25.  With a clock that moves forward between readings, an id source
    that does not repeat and a table that keeps the key discipline, the
    bootstrap seeds in the configured order: after it, [getAll] of a
    collection that was empty returns the defaults one by one in the order
    of [Config.DEFAULT_CTO_COOKIES], respectively
    [Config.DEFAULT_CHAT_APIKEYS]. *)
Theorem X25_bootstrap_order (cfg : Config) (w : World) :
  well_typed (kv_data w) → fresh_ids w → clock_increases w →
  let w' := after (initializeDatabase cfg) w in
  (result CookieDB.getAll w = [] →
   Cookie.value <$> result CookieDB.getAll w' = DEFAULT_CTO_COOKIES cfg)
  ∧ (result ApiKeyDB.getAll w = [] →
     ApiKey.key <$> result ApiKeyDB.getAll w' = DEFAULT_CHAT_APIKEYS cfg).
Proof.
  intros Hwt Hf Hclk w'. unfold w', after. rewrite init_run. cbn [snd].
  set (w1 := if _ && _ then _ else w).
  assert (result ApiKeyDB.getAll w1 = result ApiKeyDB.getAll w) as Hk1.
  { apply apikey_getAll_scan. unfold w1. destruct (_ && _); [|done].
    apply scan_apikeys_put_cookies. }
  assert (well_typed (kv_data w1) ∧ fresh_ids w1 ∧ clock_increases w1)
    as (Hwt1 & Hf1 & Hclk1).
  { unfold w1. destruct (_ && _); [|done].
    split; [by apply well_typed_put_cookies|done]. }
  assert (result CookieDB.getAll w = [] →
          Cookie.value <$> result CookieDB.getAll w1
          = DEFAULT_CTO_COOKIES cfg) as Hseed1.
  { intros He. unfold w1. rewrite He. cbn [length].
    rewrite bool_decide_eq_true_2 by done. cbn [andb].
    case_bool_decide as Hd.
    - destruct (imap_sorted Cookie.createdAt (seeded_cookie w)
                  (DEFAULT_CTO_COOKIES cfg)) as [Hs Hn].
      { intros i j a b Hij. cbn. apply Hclk. lia. }
      rewrite (cookie_getAll_in_order _ _
                 (cookie_phase_seeds cfg w Hwt Hf He) Hs Hn).
      by destruct (seeded_cookie_values w (DEFAULT_CTO_COOKIES cfg))
        as [-> ?].
    - rewrite He. destruct (DEFAULT_CTO_COOKIES cfg); [done|].
      cbn [length] in Hd. lia. }
  clearbody w1.
  set (w2 := if bool_decide _ then _ else w1).
  assert (result CookieDB.getAll w2 = result CookieDB.getAll w1) as Hc2.
  { apply cookie_getAll_scan. unfold w2. destruct (bool_decide _); [|done].
    apply scan_cookies_put_apikeys. }
  split.
  - intros He. rewrite Hc2. by apply Hseed1.
  - intros He. unfold w2. rewrite Hk1, He. cbn [length].
    rewrite bool_decide_eq_true_2 by done.
    destruct (imap_sorted ApiKey.createdAt (seeded_apikey w1)
                (DEFAULT_CHAT_APIKEYS cfg)) as [Hs Hn].
    { intros i j a b Hij. cbn. apply Hclk1. lia. }
    assert (result ApiKeyDB.getAll w1 = []) as He1 by by rewrite Hk1.
    rewrite (apikey_getAll_in_order _ _
               (apikey_phase_seeds cfg w1 Hwt1 Hf1 He1) Hs Hn).
    by destruct (seeded_apikey_values w1 (DEFAULT_CHAT_APIKEYS cfg))
      as [-> ?].
Qed.

Lemma demo_clock_increases : clock_increases empty_world.
Proof.
  intros i j Hij. cbn [clock_source empty_world]. unfold demo_clock. lia.
Qed.

Lemma X25_bootstrap_order_witness :
  Cookie.value <$> result CookieDB.getAll seeded_world
  = ["cookie-a"; "cookie-b"]
  ∧ ApiKey.key <$> result ApiKeyDB.getAll seeded_world = ["sk-default"].
Proof.
  destruct (X25_bootstrap_order demo_config empty_world well_typed_empty
              demo_uuid_fresh demo_clock_increases) as [Hc Hk].
  split; [exact (Hc eq_refl)|exact (Hk eq_refl)].
Defined.

Lemma put_cookies_lookup (cs : list Cookie.t) (m : gmap string value)
    (k : string) :
  selects (makeKey CookieDB.PREFIX) k = false →
  put_cookies cs m !! k = m !! k.
Proof.
  intros Hk. revert m. induction cs as [|c cs IH]; intros m; [done|].
  change (put_cookies (c :: cs) m)
    with (put_cookies cs
            (<[makeKey (CookieDB.PREFIX ++ [SStr (Cookie.id c)]) :=
                 VCookie c]> m)).
  rewrite IH, lookup_insert_ne; [done|].
  intros <-. by rewrite cookie_key_prefix in Hk.
Qed.

Lemma put_apikeys_lookup (ks : list ApiKey.t) (m : gmap string value)
    (k : string) :
  selects (makeKey ApiKeyDB.PREFIX) k = false →
  put_apikeys ks m !! k = m !! k.
Proof.
  intros Hk. revert m. induction ks as [|a ks IH]; intros m; [done|].
  change (put_apikeys (a :: ks) m)
    with (put_apikeys ks
            (<[makeKey (ApiKeyDB.PREFIX ++ [SStr (ApiKey.id a)]) :=
                 VApiKey a]> m)).
  rewrite IH, lookup_insert_ne; [done|].
  intros <-. by rewrite apikey_key_prefix in Hk.
Qed.

Lemma put_cookies_dom (cs : list Cookie.t) (m : gmap string value) :
  dom m ⊆ dom (put_cookies cs m).
Proof.
  revert m. induction cs as [|c cs IH]; intros m; [done|].
  etrans; [|apply IH]. rewrite dom_insert. apply union_subseteq_r.
Qed.

Lemma put_apikeys_dom (ks : list ApiKey.t) (m : gmap string value) :
  dom m ⊆ dom (put_apikeys ks m).
Proof.
  revert m. induction ks as [|a ks IH]; intros m; [done|].
  etrans; [|apply IH]. rewrite dom_insert. apply union_subseteq_r.
Qed.

Lemma same_logs_trans (w1 w2 w3 : World) :
  same_logs w1 w2 → same_logs w2 w3 → same_logs w1 w3.
Proof.
  intros (Ha & Hb & Hc) (Ha' & Hb' & Hc'). split; [|split].
  - intros cfg limit. by rewrite Ha', Ha.
  - by rewrite Hb', Hb.
  - intros path. by rewrite Hc', Hc.
Qed.

(** X26.  [initializeDatabase] never removes a row, and it changes nothing
    that the readers of the request logs, of the system settings or of the
    model mappings return; the ids it draws are at most one per configured
    default. *)
Theorem X26_bootstrap_frame (cfg : Config) (w : World) :
  let w' := after (initializeDatabase cfg) w in
  dom (kv_data w) ⊆ dom (kv_data w')
  ∧ same_logs w w'
  ∧ same_settings w w'
  ∧ same_models w w'
  ∧ (uuids_drawn w ≤ uuids_drawn w'
     ≤ uuids_drawn w + length (DEFAULT_CTO_COOKIES cfg)
       + length (DEFAULT_CHAT_APIKEYS cfg))%nat.
Proof.
  intros w'. unfold w', after. rewrite init_run. cbn [snd].
  set (w1 := if _ && _ then _ else w).
  assert (dom (kv_data w) ⊆ dom (kv_data w1)
          ∧ untouched_outside (makeKey CookieDB.PREFIX) w w1
          ∧ (uuids_drawn w ≤ uuids_drawn w1
             ≤ uuids_drawn w + length (DEFAULT_CTO_COOKIES cfg))%nat)
    as (Hd1 & Hu1 & Hn1).
  { unfold w1. destruct (_ && _).
    - split; [apply put_cookies_dom|]. split; [|cbn; lia].
      intros k Hk. apply put_cookies_lookup, Hk.
    - split; [done|]. split; [by apply untouched_refl|lia]. }
  clearbody w1.
  set (w2 := if bool_decide _ then _ else w1).
  assert (dom (kv_data w1) ⊆ dom (kv_data w2)
          ∧ untouched_outside (makeKey ApiKeyDB.PREFIX) w1 w2
          ∧ (uuids_drawn w1 ≤ uuids_drawn w2
             ≤ uuids_drawn w1 + length (DEFAULT_CHAT_APIKEYS cfg))%nat)
    as (Hd2 & Hu2 & Hn2).
  { unfold w2. destruct (bool_decide _).
    - split; [apply put_apikeys_dom|]. split; [|cbn; lia].
      intros k Hk. apply put_apikeys_lookup, Hk.
    - split; [done|]. split; [by apply untouched_refl|lia]. }
  clearbody w2.
  destruct (only_cookies_untouched _ _ Hu1) as (_ & Hl1 & Hs1 & Hm1).
  destruct (only_apikeys_untouched _ _ Hu2) as (_ & Hl2 & Hs2 & Hm2).
  split; [by etrans|]. split; [by eapply same_logs_trans|].
  split; [|split; [|lia]].
  - intros c. by rewrite Hs2, Hs1.
  - intros c. by rewrite Hm2, Hm1.
Qed.

(** ** Every reachable table keeps the key discipline *)

Lemma well_typed_apikey_request (key : string) (w : World) :
  well_typed (kv_data w) →
  well_typed (kv_data (after (ApiKeyDB.incrementRequestCount key) w)).
Proof.
  intros Hwt. unfold after, ApiKeyDB.incrementRequestCount.
  rewrite bind_run.
  replace (after (ApiKeyDB.getByKey key) w) with w by done.
  destruct (result (ApiKeyDB.getByKey key) w) as [a|]; [|done].
  rewrite bind_run. cbn [ret snd].
  by apply (well_typed_preserved (mkConfig 0 0 [] [] [] ∅)).
Qed.

(** X27.  The key discipline is an invariant of the repository: from a
    table in which every cookie row holds a cookie, every API key row an
    API key, every log row a log stored under its own timestamp and id,
    and the two singleton rows their records, any sequence of calls of the
    writing methods and of the bootstrap leads to such a table again. *)
Theorem X27_reachable_typed (cfg : Config) (w w' : World) :
  rtc (step cfg) w w' →
  well_typed (kv_data w) →
  well_typed (kv_data w').
Proof.
  induction 1 as [w|w w1 w' Hstep _ IH]; [done|].
  intros Hwt. apply IH. clear IH.
  destruct (well_typed_preserved cfg w Hwt)
    as (H1 & H2 & H3 & H4 & H5 & H6 & H7 & H8 & H9 & H10 & H11 & H12).
  destruct Hstep as [f w|id u w|id w|id w|id w|f w|id u w|id w|key w|log w
                   |s w|ms w|w].
  - exact (H1 f).
  - exact (H2 id u).
  - exact (H3 id).
  - exact (H4 id).
  - exact (H5 id).
  - exact (H6 f).
  - exact (H7 id u).
  - exact (H8 id).
  - exact (well_typed_apikey_request key w Hwt).
  - exact (H9 log).
  - exact (H10 s).
  - exact (H11 ms).
  - exact H12.
Qed.

Lemma X27_reachable_typed_witness : well_typed (kv_data busy_world).
Proof.
  apply (X27_reachable_typed demo_config empty_world busy_world);
    [|exact well_typed_empty].
  unfold busy_world, seeded_world.
  eapply rtc_l; [exact (step_bootstrap demo_config empty_world)|].
  eapply rtc_l;
    [exact (step_cookie_add demo_config
              {| Cookie.f_value := "cookie-c"; Cookie.f_isValid := true;
                 Cookie.f_failCount := 0; Cookie.f_isDefault := false |}
              (after (initializeDatabase demo_config) empty_world))|].
  apply rtc_once. apply step_apikey_add.
Defined.
